(** * A shallow embedding of the PATRICIA (radix) tree of [patricia.cpp]

    The development follows the source file function by function.

    Conventions of the embedding.

    - A C string is the list of its characters, without the terminating
      NUL.  No character of a C string is NUL, so the terminator that is
      read at index [strlen s] is kept apart from every character: a byte
      read from a string is an [option], [None] for the terminator.
    - A pointer that the source tests against [NULL] is an [option].
    - The tree is mutated in place by the source; here every mutating
      routine returns the new value of the node it was given, next to its
      integer status.
    - The pointer comparison [cur_node == tree->root] is the boolean
      [is_root], true exactly for the outermost call of each wrapper.
    - The allocations whose result the source tests are those of
      [patricia_node_init]: whether they succeed is an argument of it, and
      [patricia_add_internal_alloc] takes the outcomes of the calls it
      makes.  [patricia_add_internal] and [patricia_add] are these routines
      when every such call succeeds.  The allocations whose result the
      source does not test ([malloc] in [substring], [list_create] in the
      two split cases) and those of [patricia_init] are taken to succeed.
    - The diagnostic counters of [PATRICIA_STATS_ON] (among them the
      [strlen] of a key that the two split cases have just freed) and the
      calls to [free] have no effect on any value modelled here and are
      left out.
    - The scratch arrays [res], [prev_res] and [temp_res] hold
      [PATRICIA_DEFAULT_KEYLEN] bytes; the buffer the caller gives to an
      enumeration is as large as the caller has made it, and is taken to
      be large enough.
    - String lengths and indices are natural numbers: a key is far shorter
      than [INT_MAX], so the [int]/[size_t] conversions of the source never
      wrap.  [substring], which is not [static], is also given on the
      [int] arguments of its declaration, as [substring_int].
    - Behaviour that C leaves undefined (dereferencing [NULL], reading or
      writing outside an array) is the outcome [Fault]. *)

From Stdlib Require Import Strings.String Strings.Ascii.
From Stdlib Require Import Lists.List Sorting.Sorted.
From Stdlib Require Import ZArith Arith Bool Lia.
Import ListNotations.

(** ** Outcomes of a C routine *)

Inductive outcome (A : Type) : Type :=
| Ret (a : A)
| Fault.

Arguments Ret {A} a.
Arguments Fault {A}.

Definition bind {A B : Type} (m : outcome A) (k : A -> outcome B) : outcome B :=
  match m with
  | Ret a => k a
  | Fault => Fault
  end.

Notation "x <- m ;; k" := (bind m (fun x => k))
  (at level 61, m at next level, right associativity).
Notation "' p <- m ;; k" := (bind m (fun p => k))
  (at level 61, p pattern, m at next level, right associativity).

(** ** C strings and the part of the C library the source uses *)

Definition cstring : Type := list ascii.

Definition cstr (s : string) : cstring := list_ascii_of_string s.

Definition SPACE : ascii := " "%char.
Definition SLASH : ascii := "/"%char.

Definition strlen (s : cstring) : nat := length s.

(** [s[0]]: the first character, or the terminator of an empty string. *)
Definition first_char (s : cstring) : option ascii := hd_error s.

(** [==] on two bytes read from strings. *)
Definition same_char (a b : option ascii) : bool :=
  match a, b with
  | Some c, Some d => Ascii.eqb c d
  | None, None => true
  | _, _ => false
  end.

(** [strcmp] compares bytes as [unsigned char], and the terminator is below
    every character.  The C standard fixes the sign of the result only. *)
Fixpoint strcmp (a b : cstring) : Z :=
  match a, b with
  | [], [] => 0
  | [], _ :: _ => -1
  | _ :: _, [] => 1
  | c :: a', d :: b' =>
      if Ascii.eqb c d then strcmp a' b'
      else if nat_of_ascii c <? nat_of_ascii d then -1 else 1
  end.

Fixpoint starts_with (needle hay : cstring) : bool :=
  match needle, hay with
  | [], _ => true
  | _ :: _, [] => false
  | c :: n', d :: h' => Ascii.eqb c d && starts_with n' h'
  end.

(** [strstr hay needle - hay]: offset of the first occurrence of [needle],
    [None] when [strstr] returns [NULL]. *)
Fixpoint strstr (hay needle : cstring) : option nat :=
  if starts_with needle hay then Some 0
  else match hay with
       | [] => None
       | _ :: hay' => option_map S (strstr hay' needle)
       end.

(** Size of the scratch arrays [res], [prev_res] and [temp_res]. *)
Definition PATRICIA_DEFAULT_KEYLEN : nat := 256.

(** Storing the string [s] and its terminator in a scratch array. *)
Definition store (s : cstring) : outcome cstring :=
  if strlen s <? PATRICIA_DEFAULT_KEYLEN then Ret s else Fault.

(** ** The ordered list of children

    [list.h] is not part of the sources; the tree uses it through
    [list_create], [list_insert], [list_insert_before], [list_remove],
    [list_get_head], [list_get_next], [list_empty] and [list_destroy]. *)

Section ChildList.
Variable E : Type.

(** Modelled from the spec: [list_create] of the missing [list.h],
    "create empty". *)
Definition list_create : list E := [].

(** Modelled from the spec: [list_insert] of the missing [list.h],
    "insert at tail". *)
Definition list_insert (l : list E) (e : E) : list E := l ++ [e].

(** Modelled from the spec: [list_remove] of the missing [list.h],
    "remove a given element in O(1) given its handle".  The handle is
    that of the element the iteration stands on, the head of the part
    of the list still to be visited; the call reports success. *)
Definition list_remove (l : list E) : Z * list E := (0%Z, tl l).

(** Modelled from the spec: [list_empty] of the missing [list.h],
    "empty-check". *)
Definition list_empty (l : list E) : bool :=
  match l with
  | [] => true
  | _ :: _ => false
  end.
End ChildList.

Arguments list_insert {E} l e.
Arguments list_remove {E} l.
Arguments list_empty {E} l.

(** Iteration with [list_get_head]/[list_get_next] is recursion over the
    list; [list_insert_before] and [list_remove], which take the handle of
    the element the iteration stands on, are the [cons] put in front of, and
    the omission of, the head of the remaining list. *)

(** ** Nodes and trees *)

#[local] Unset Elimination Schemes.
Inductive patricia_node : Type :=
| Node (key : cstring) (children : list patricia_node).
#[local] Set Elimination Schemes.

Definition node_key (n : patricia_node) : cstring :=
  match n with Node k _ => k end.

Definition node_children (n : patricia_node) : list patricia_node :=
  match n with Node _ cs => cs end.

Record patricia_tree : Type := Tree { root : patricia_node }.

(** ** Utilities *)

(** [int] is 32 bits wide, [size_t] 64 bits. *)
Definition INT_MIN : Z := -2147483648.
Definition INT_MAX : Z := 2147483647.

Definition is_int (z : Z) : bool := (INT_MIN <=? z)%Z && (z <=? INT_MAX)%Z.

(** The conversion of an [int] to [size_t]. *)
Definition to_size_t (z : Z) : Z := (z mod 18446744073709551616)%Z.

(** [substring] on the arguments the source declares: a string that may
    be [NULL] and two [int]s.  The comparisons [strlen(str) < begin] and
    [strlen(str) < (begin+len)] are made in [size_t], so that a negative
    [int] counts as a huge length; [begin+len] is an addition of [int]s,
    undefined when it overflows, and so is the [len + 1] handed to
    [malloc].  With a negative [len] that passes the sanity check the
    terminator is written at index 0 of an allocation that has no room for
    it ([malloc(0)]) or that no machine can provide ([malloc] of
    [(size_t)(len + 1)] bytes returns [NULL]). *)
Definition substring_int (str : option cstring) (begin len : Z)
  : outcome (option cstring) :=
  match str with
  | None => Ret None
  | Some s =>
      if strlen s =? 0 then Ret None
      else if (Z.of_nat (strlen s) <? to_size_t begin)%Z then Ret None
      else if negb (is_int (begin + len)) then Fault
      else if (Z.of_nat (strlen s) <? to_size_t (begin + len))%Z
           then Ret None
      else if negb (is_int (len + 1)) || (len <? 0)%Z then Fault
      else
        Ret (Some (firstn (Z.to_nat len) (skipn (Z.to_nat begin) s)))
  end.

(** [substring] as the routines of this file call it: on a string that is
    not [NULL], with a start and a length that are not negative. *)
Definition substring (str : cstring) (begin len : nat) : option cstring :=
  if (strlen str =? 0) || (strlen str <? begin) || (strlen str <? begin + len)
  then None
  else Some (firstn len (skipn begin str)).

(** The [while] loop of [is_substring]: [s1] is [str1] from index [i] on,
    [s2] is [str2] from index [j] on.  The result is [str1] from the final
    [i] on, with the final [count]; [None] when an index runs past a
    terminator. *)
Fixpoint is_substring_while (s1 s2 : cstring) (count : nat)
  : option (cstring * nat) :=
  match s1 with
  | c :: s1' =>
      if Ascii.eqb c SPACE then Some (s1, count)
      else
        match s2 with
        | d :: s2' =>
            if Ascii.eqb c d then is_substring_while s1' s2' (S count)
            else Some (s1', count)
        | [] => Some (s1', count)
        end
  | [] =>
      match s2 with
      | [] => None
      | _ :: _ => Some ([], count)
      end
  end.

(** The [for] loop of [is_substring]: [s1] is [str1] from index [i] on, so
    that [i < len1] reads [s1 <> []].  Every iteration advances [i], hence
    [fuel], which starts at [len1], is never less than the length of
    [s1]. *)
Fixpoint is_substring_for (fuel : nat) (s1 str2 : cstring) : option bool :=
  match fuel, s1 with
  | 0, _ | _, [] => Some false
  | S fuel', _ :: _ =>
      match is_substring_while s1 str2 0 with
      | None => None
      | Some (rest, count) =>
          if count =? strlen str2 then Some true
          else is_substring_for fuel' (tl rest) str2
      end
  end.

Definition is_substring (str1 str2 : cstring) : outcome bool :=
  if strlen str1 <? strlen str2 then Ret false
  else match is_substring_for (strlen str1) str1 str2 with
       | Some b => Ret b
       | None => Fault
       end.

(** [patricia_node_init] returns [NULL] for a [NULL] key, and when the
    [malloc] of the node, the [malloc] of its key or [list_create] returns
    [NULL]; [mem_ok] tells whether the allocations of the call succeed.  A
    node made with [create_list = 0] has no children list of its own: both
    callers assign one before the node is used. *)
Definition patricia_node_init (mem_ok : bool) (key : option cstring)
  (create_list : bool) : option patricia_node :=
  match key with
  | None => None
  | Some k =>
      if mem_ok then Some (Node k (list_create patricia_node)) else None
  end.

(** The scan of [patricia_add_child_node] for the first sibling that is
    greater than [child]. *)
Fixpoint add_child_scan (child : patricia_node) (l : list patricia_node)
  : list patricia_node :=
  match l with
  | [] => list_insert l child
  | node :: next =>
      if (strcmp (node_key child) (node_key node) <? 0)%Z
      then child :: node :: next
      else node :: add_child_scan child next
  end.

Definition patricia_add_child_node (parent : patricia_node)
  (child : option patricia_node) : patricia_node :=
  match child with
  | None => parent
  | Some c =>
      if list_empty (node_children parent)
      then Node (node_key parent) (list_insert (node_children parent) c)
      else Node (node_key parent) (add_child_scan c (node_children parent))
  end.

Fixpoint common_prefix_loop (key1 key2 : cstring) : nat :=
  match key1, key2 with
  | c :: k1, d :: k2 =>
      if Ascii.eqb c d then S (common_prefix_loop k1 k2) else 0
  | _, _ => 0
  end.

Definition patricia_get_prefix_count (key1 key2 : cstring) : nat :=
  if (strlen key1 =? 0) || (strlen key2 =? 0) then 0
  else common_prefix_loop key1 key2.

(** Number of leaves below [n], as [patricia_get_key_count] counts them. *)
Fixpoint patricia_get_key_count (n : patricia_node) : nat :=
  match n with
  | Node _ cs =>
      (fix walk (l : list patricia_node) : nat :=
         match l with
         | [] => 0
         | child :: next => patricia_get_key_count child + walk next
         end) cs
      + (if list_empty cs then 1 else 0)
  end.

Definition patricia_key_has_delimiter (key : cstring) : outcome bool :=
  match key with
  | [] => Fault
  | c :: _ => Ret (Ascii.eqb (last key c) SLASH)
  end.

(** The guard shared by lookup, delete and add:
    [cur_node == tree->root || prefix_len == 0 ||
     (prefix_len > 0 && prefix_len < strlen(key) &&
      prefix_len >= strlen(cur_node->key))]. *)
Definition descend (is_root : bool) (prefix_len : nat)
  (key cur_key : cstring) : bool :=
  is_root || (prefix_len =? 0) ||
  ((0 <? prefix_len) && (prefix_len <? strlen key) &&
   (strlen cur_key <=? prefix_len)).

(** ** Lookup *)

Fixpoint patricia_lookup_node_internal (is_root : bool)
  (cur_node : patricia_node) (key : cstring) {struct cur_node}
  : option patricia_node :=
  match cur_node with
  | Node cur_key cur_children =>
      let prefix_len := patricia_get_prefix_count key cur_key in
      if descend is_root prefix_len key cur_key then
        match substring key prefix_len (strlen key - prefix_len) with
        | None => None
        | Some new_key =>
            (fix scan (cs : list patricia_node) : option patricia_node :=
               match cs with
               | [] => None
               | child :: next =>
                   if same_char (first_char (node_key child))
                                (first_char new_key)
                   then patricia_lookup_node_internal false child new_key
                   else scan next
               end) cur_children
        end
      else if prefix_len =? strlen cur_key then Some cur_node
      else None
  end.

Definition patricia_lookup_node (tree : patricia_tree) (key : cstring)
  : option patricia_node :=
  patricia_lookup_node_internal true (root tree) key.

Fixpoint patricia_lookup_internal (is_root : bool)
  (cur_node : patricia_node) (key : cstring) {struct cur_node} : Z :=
  match cur_node with
  | Node cur_key cur_children =>
      let prefix_len := patricia_get_prefix_count key cur_key in
      if descend is_root prefix_len key cur_key then
        match substring key prefix_len (strlen key - prefix_len) with
        | None => 0%Z
        | Some new_key =>
            (fix scan (cs : list patricia_node) : Z :=
               match cs with
               | [] => 0%Z
               | child :: next =>
                   if same_char (first_char (node_key child))
                                (first_char new_key)
                   then patricia_lookup_internal false child new_key
                   else scan next
               end) cur_children
        end
      else if prefix_len =? strlen cur_key then 1%Z
      else 0%Z
  end.

(** [patricia_lookup] reads [tree->root] before any test of [tree]; the
    test of [key] is the sanity check of [patricia_lookup_internal]. *)
Definition patricia_lookup (tree : option patricia_tree)
  (key : option cstring) : outcome Z :=
  match tree with
  | None => Fault
  | Some t =>
      match key with
      | None => Ret 0%Z
      | Some k => Ret (patricia_lookup_internal true (root t) k)
      end
  end.

(** ** Prefix enumeration *)

(** The two places of [patricia_lookup_prefix_partial_internal] that build
    [temp_res] from [prefix] and [res] and append to [res_list] are the
    same statements. *)
Definition append_token (res_list prefix res : cstring) : outcome cstring :=
  temp_res <- store prefix ;;
  temp_res <- store (temp_res ++ res) ;;
  dup <- is_substring res_list temp_res ;;
  Ret (if dup then res_list else (res_list ++ prefix) ++ res ++ [SPACE]).

Fixpoint patricia_lookup_prefix_partial_internal (cur_node : patricia_node)
  (res res_list prefix : cstring) {struct cur_node}
  : outcome (cstring * cstring) :=
  match cur_node with
  | Node cur_key cur_children =>
      '(res, res_list) <-
        (fix walk (cs : list patricia_node) (res res_list : cstring)
           : outcome (cstring * cstring) :=
           match cs with
           | [] => Ret (res, res_list)
           | child :: next =>
               let len := strlen res in
               prev_res <- store (firstn len res) ;;
               res <- store (res ++ node_key child) ;;
               delim <- patricia_key_has_delimiter (node_key child) ;;
               '(res, res_list) <-
                 (if delim : bool then
                    let res := removelast res in
                    res_list <- append_token res_list prefix res ;;
                    Ret ([], res_list)
                  else
                    patricia_lookup_prefix_partial_internal
                      child res res_list prefix) ;;
               let res := firstn len prev_res in
               walk next res res_list
           end) cur_children res res_list ;;
      if list_empty cur_children then
        res_list <- append_token res_list prefix res ;;
        Ret (res, res_list)
      else Ret (res, res_list)
  end.

Definition patricia_lookup_prefix_partial (tree : option patricia_tree)
  (prefix res_list : option cstring) : outcome (Z * option cstring) :=
  match tree, prefix, res_list with
  | Some t, Some p, Some out =>
      match patricia_lookup_node t p with
      | None => Ret ((-1)%Z, res_list)
      | Some prefix_node =>
          '(_, out) <-
            patricia_lookup_prefix_partial_internal prefix_node [] out p ;;
          Ret (0%Z, Some out)
      end
  | _, _, _ => Ret ((-1)%Z, res_list)
  end.

Fixpoint patricia_lookup_prefix_full_internal (cur_node : patricia_node)
  (res res_list : cstring) {struct cur_node}
  : outcome (cstring * cstring) :=
  match cur_node with
  | Node cur_key cur_children =>
      let len := strlen res in
      prev_res <- store (firstn len res) ;;
      res <- store (res ++ cur_key) ;;
      '(res, res_list) <-
        (fix walk (cs : list patricia_node) (res res_list : cstring)
           : outcome (cstring * cstring) :=
           match cs with
           | [] => Ret (res, res_list)
           | child :: next =>
               '(res, res_list) <-
                 patricia_lookup_prefix_full_internal child res res_list ;;
               walk next res res_list
           end) cur_children res res_list ;;
      let res_list :=
        if list_empty cur_children then (res_list ++ res) ++ [SPACE]
        else res_list in
      Ret (firstn len prev_res, res_list)
  end.

(** A [NULL] buffer makes [patricia_lookup_prefix_full_internal] return at
    its sanity check, and the wrapper still answers 0. *)
Definition patricia_lookup_prefix_full (tree : option patricia_tree)
  (prefix buf : option cstring) : outcome (Z * option cstring) :=
  match tree, prefix with
  | Some t, Some p =>
      match patricia_lookup_node t p with
      | None => Ret ((-1)%Z, buf)
      | Some prefix_node =>
          match strstr p (node_key prefix_node) with
          | None => Fault
          | Some keylen =>
              res <- store (firstn keylen p) ;;
              match buf with
              | None => Ret (0%Z, None)
              | Some out =>
                  '(_, out) <-
                    patricia_lookup_prefix_full_internal prefix_node res out ;;
                  Ret (0%Z, Some out)
              end
          end
      end
  | _, _ => Ret ((-1)%Z, buf)
  end.

(** ** Deletion *)

(** [patricia_delete_keys] walks the detached subtree and releases it; 0 is
    its only status for a node that exists. *)
Fixpoint patricia_delete_keys (root : patricia_node) : Z :=
  match root with
  | Node _ cs =>
      (fix walk (l : list patricia_node) : Z :=
         match l with
         | [] => 0%Z
         | child :: next =>
             let _ := patricia_delete_keys child in walk next
         end) cs
  end.

Fixpoint patricia_delete_internal (is_root : bool)
  (cur_node : patricia_node) (key : cstring) {struct cur_node}
  : Z * patricia_node :=
  match cur_node with
  | Node cur_key cur_children =>
      let prefix_len := patricia_get_prefix_count key cur_key in
      if descend is_root prefix_len key cur_key then
        match substring key prefix_len (strlen key - prefix_len) with
        | None => ((-1)%Z, cur_node)
        | Some new_key =>
            let '(ret, cs') :=
              (fix scan (cs : list patricia_node)
                 : Z * list patricia_node :=
                 match cs with
                 | [] => ((-1)%Z, [])
                 | child :: next =>
                     if same_char (first_char (node_key child))
                                  (first_char new_key)
                     then
                       if (strcmp (node_key child) new_key =? 0)%Z then
                         let '(ret, rest) := list_remove cs in
                         if negb (ret =? 0)%Z then ((-1)%Z, cs)
                         else if negb (patricia_delete_keys child =? 0)%Z
                              then ((-1)%Z, rest)
                              else (0%Z, rest)
                       else
                         let '(ret, child') :=
                           patricia_delete_internal false child new_key in
                         (ret, child' :: next)
                     else
                       let '(ret, next') := scan next in
                       (ret, child :: next')
                 end) cur_children in
            (ret, Node cur_key cs')
        end
      else ((-1)%Z, cur_node)
  end.

Definition patricia_delete (tree : option patricia_tree)
  (key : option cstring) : Z * option patricia_tree :=
  match tree, key with
  | Some t, Some k =>
      let '(ret, r) := patricia_delete_internal true (root t) k in
      (ret, Some (Tree r))
  | _, _ => ((-1)%Z, tree)
  end.

(** ** Insertion *)

(** Attaching to a node the children list of another one, as
    [prev_node->children = cur_node->children] does; [Fault] when the node
    pointer is [NULL]. *)
Definition set_children (n : option patricia_node)
  (cs : list patricia_node) : outcome patricia_node :=
  match n with
  | None => Fault
  | Some (Node k _) => Ret (Node k cs)
  end.

(** [cur_node->key = common_key] with a fresh children list.  A node whose
    key is [NULL] is outside the data model: every routine applies
    [strlen] to the key of the nodes it visits. *)
Definition rewrite_node (common_key : option cstring)
  : outcome patricia_node :=
  match common_key with
  | None => Fault
  | Some k => Ret (Node k (list_create patricia_node))
  end.

(** The outcomes of the calls of [patricia_node_init] that are still to
    come, in the order of the calls: [true] for a call whose allocations
    succeed.  A call past the end of the list succeeds. *)
Definition allocations : Type := list bool.

Definition next_allocation (mem : allocations) : bool * allocations :=
  (hd true mem, tl mem).

(** No call fails. *)
Definition no_failure (mem : allocations) : Prop :=
  forall ok, In ok mem -> ok = true.

(** [patricia_add_internal], with the outcomes [mem] of its calls of
    [patricia_node_init].  The source tests none of their results:
    [patricia_add_child_node] returns at once for a [NULL] child, the
    assignment [prev_node->children = ...] dereferences the pointer, and
    the status is 0 in every case. *)
Fixpoint patricia_add_internal_alloc (mem : allocations) (is_root : bool)
  (cur_node : patricia_node) (key : cstring) {struct cur_node}
  : outcome (Z * patricia_node) :=
  match cur_node with
  | Node cur_key cur_children =>
      let prefix_len := patricia_get_prefix_count key cur_key in
      if descend is_root prefix_len key cur_key then
        match substring key prefix_len (strlen key - prefix_len) with
        | None => Ret ((-1)%Z, cur_node)
        | Some new_key =>
            match
              (fix scan (cs : list patricia_node)
                 : option (outcome (Z * list patricia_node)) :=
                 match cs with
                 | [] => None
                 | child :: next =>
                     if same_char (first_char (node_key child))
                                  (first_char new_key)
                     then
                       Some ('(ret, child') <-
                               patricia_add_internal_alloc mem false child
                                 new_key ;;
                             Ret ((if (ret =? 0)%Z then 0 else -1)%Z,
                                  child' :: next))
                     else
                       match scan next with
                       | None => None
                       | Some r =>
                           Some ('(ret, next') <- r ;;
                                 Ret (ret, child :: next'))
                       end
                 end) cur_children
            with
            | Some r => '(ret, cs') <- r ;; Ret (ret, Node cur_key cs')
            | None =>
                let '(ok, _) := next_allocation mem in
                let new_node := patricia_node_init ok (Some new_key) true in
                Ret (0%Z, patricia_add_child_node cur_node new_node)
            end
        end
      else if prefix_len <? strlen key then
        let common_key := substring key 0 prefix_len in
        let prev_key :=
          substring cur_key prefix_len (strlen cur_key - prefix_len) in
        let next_key := substring key prefix_len (strlen key - prefix_len) in
        let '(ok, mem) := next_allocation mem in
        prev_node <-
          set_children (patricia_node_init ok prev_key false) cur_children ;;
        let '(ok, _) := next_allocation mem in
        let next_node := patricia_node_init ok next_key true in
        cur <- rewrite_node common_key ;;
        let cur := patricia_add_child_node cur (Some prev_node) in
        let cur := patricia_add_child_node cur next_node in
        Ret (0%Z, cur)
      else if prefix_len =? strlen key then
        let common_key := substring key 0 prefix_len in
        let next_key :=
          substring cur_key prefix_len (strlen cur_key - prefix_len) in
        if prefix_len =? strlen cur_key then Ret (0%Z, cur_node)
        else
          let '(ok, _) := next_allocation mem in
          next_node <-
            set_children (patricia_node_init ok next_key false)
              cur_children ;;
          cur <- rewrite_node common_key ;;
          Ret (0%Z, patricia_add_child_node cur (Some next_node))
      else Ret (0%Z, cur_node)
  end.

Definition patricia_add_alloc (mem : allocations)
  (tree : option patricia_tree) (key : option cstring)
  : outcome (Z * option patricia_tree) :=
  match tree, key with
  | Some t, Some k =>
      '(ret, r) <- patricia_add_internal_alloc mem true (root t) k ;;
      Ret (ret, Some (Tree r))
  | _, _ => Ret ((-1)%Z, tree)
  end.

(** [patricia_add_internal] when every call of [patricia_node_init]
    succeeds. *)
Definition patricia_add_internal (is_root : bool)
  (cur_node : patricia_node) (key : cstring)
  : outcome (Z * patricia_node) :=
  patricia_add_internal_alloc [] is_root cur_node key.

Arguments patricia_add_internal : simpl never.

(** [patricia_add] when every call of [patricia_node_init] succeeds. *)
Definition patricia_add (tree : option patricia_tree)
  (key : option cstring) : outcome (Z * option patricia_tree) :=
  match tree, key with
  | Some t, Some k =>
      '(ret, r) <- patricia_add_internal true (root t) k ;;
      Ret (ret, Some (Tree r))
  | _, _ => Ret ((-1)%Z, tree)
  end.

(** ** Initialisation *)

Definition patricia_init : option patricia_tree :=
  Some (Tree (Node [] (list_create patricia_node))).

(** ** Reachable trees *)

(** The trees a client can hold: the result of [patricia_init], changed by
    any sequence of [patricia_add] and [patricia_delete] calls, whatever
    their status. *)
Inductive reachable : patricia_tree -> Prop :=
| reachable_init : forall t,
    patricia_init = Some t -> reachable t
| reachable_add : forall t key ret t',
    reachable t ->
    patricia_add (Some t) key = Ret (ret, Some t') ->
    reachable t'
| reachable_delete : forall t key ret t',
    reachable t ->
    patricia_delete (Some t) key = (ret, Some t') ->
    reachable t'.

(** * Induction over nodes and the child selected by a key *)

Section NodeInduction.
Variable P : patricia_node -> Prop.
Hypothesis step : forall k cs, Forall P cs -> P (Node k cs).

Fixpoint patricia_node_ind (n : patricia_node) : P n :=
  match n with
  | Node k cs =>
      step k cs
        ((fix all (l : list patricia_node) : Forall P l :=
            match l with
            | [] => Forall_nil P
            | c :: l' => Forall_cons c (patricia_node_ind c) (all l')
            end) cs)
  end.
End NodeInduction.

(** The first child whose fragment starts with [c], with the siblings
    before and after it: what the three scanning loops look for. *)
Fixpoint find_child (c : option ascii) (cs : list patricia_node)
  : option (list patricia_node * patricia_node * list patricia_node) :=
  match cs with
  | [] => None
  | child :: next =>
      if same_char (first_char (node_key child)) c
      then Some ([], child, next)
      else match find_child c next with
           | None => None
           | Some (pre, x, post) => Some (child :: pre, x, post)
           end
  end.

Definition starts_other (c : option ascii) (n : patricia_node) : Prop :=
  first_char (node_key n) <> c.


(** * Well-formed nodes *)

(** The leading byte of a fragment as a number; the terminator of an empty
    fragment counts as 0. *)
Definition lead (n : patricia_node) : nat :=
  match node_key n with
  | [] => 0
  | c :: _ => nat_of_ascii c
  end.

(** Siblings in strictly increasing order of their leading bytes. *)
Definition siblings_ok (cs : list patricia_node) : Prop :=
  StronglySorted (fun a b => lead a < lead b) cs.

(** Every node below the root holds a non-empty fragment, and the
    children of every node are [siblings_ok]. *)
Fixpoint wf_node (n : patricia_node) : Prop :=
  match n with
  | Node k cs =>
      k <> [] /\ siblings_ok cs /\
      (fix all (l : list patricia_node) : Prop :=
         match l with
         | [] => True
         | c :: l' => wf_node c /\ all l'
         end) cs
  end.

(** The shape of a node at the root ([b = true]) or below it. *)
Definition wf_at (b : bool) (n : patricia_node) : Prop :=
  (if b then node_key n = [] else node_key n <> []) /\
  siblings_ok (node_children n) /\ Forall wf_node (node_children n).


(** ** Nodes of a tree *)

(** [node_in n m]: the node [n] is [m] or lies below it. *)
Inductive node_in (n : patricia_node) : patricia_node -> Prop :=
| node_in_here : node_in n n
| node_in_child : forall c m,
    In c (node_children m) -> node_in n c -> node_in n m.


(** ** Sibling fragments seen from outside *)

Definition is_prefix (a b : cstring) : Prop := exists s, b = a ++ s.

(** Strictly ascending in iteration order for [strcmp]. *)
Definition ascending (cs : list patricia_node) : Prop :=
  StronglySorted
    (fun a b => (strcmp (node_key a) (node_key b) < 0)%Z) cs.

(** No two siblings share their leading byte. *)
Definition leading_bytes_distinct (cs : list patricia_node) : Prop :=
  Forall (fun c => node_key c <> []) cs /\
  NoDup (map (fun c => first_char (node_key c)) cs).

(** No sibling fragment is a prefix of another one. *)
Definition prefix_free (cs : list patricia_node) : Prop :=
  ForallOrdPairs
    (fun a b => ~ is_prefix (node_key a) (node_key b) /\
                ~ is_prefix (node_key b) (node_key a)) cs.


(** ** A client that inserts keys one after the other *)

Fixpoint add_keys (t : patricia_tree) (ks : list cstring)
  : option patricia_tree :=
  match ks with
  | [] => Some t
  | k :: ks' =>
      match patricia_add (Some t) (Some k) with
      | Ret (_, Some t') => add_keys t' ks'
      | _ => None
      end
  end.

(** The tree of the keys [ks], inserted in this order into a new tree. *)
Definition tree_of_keys (ks : list string) : option patricia_tree :=
  match patricia_init with
  | Some t => add_keys t (map cstr ks)
  | None => None
  end.

(** ** Reading the output buffer *)

(** The tokens of a buffer, each closed by a space; characters after the
    last space make a last token. *)
Fixpoint split_tokens (acc buf : cstring) : list cstring :=
  match buf with
  | [] => match acc with
          | [] => []
          | _ :: _ => [acc]
          end
  | c :: rest =>
      if Ascii.eqb c SPACE then acc :: split_tokens [] rest
      else split_tokens (acc ++ [c]) rest
  end.

Definition tokens (buf : cstring) : list cstring := split_tokens [] buf.

(** The buffer that holds the tokens [toks], a space after each. *)
Fixpoint join_tokens (toks : list cstring) : cstring :=
  match toks with
  | [] => []
  | tok :: toks' => (tok ++ [SPACE]) ++ join_tokens toks'
  end.

(** ** Trees used as examples *)

Definition tree_cat : patricia_tree :=
  Tree (Node [] [Node (cstr "cat") []]).

Definition node_ca : patricia_node :=
  Node (cstr "ca") [Node (cstr "r") []; Node (cstr "t") []].

Definition tree_cat_car : patricia_tree := Tree (Node [] [node_ca]).

Definition tree_cat_car_dog : patricia_tree :=
  Tree (Node [] [node_ca; Node (cstr "dog") []]).

Definition tree_xy : patricia_tree :=
  Tree (Node [] [Node (cstr "xy") []]).

Definition tree_x_xy : patricia_tree :=
  Tree (Node [] [Node (cstr "x") [Node (cstr "y") []]]).

Definition tree_empty : patricia_tree := Tree (Node [] []).

(** ** The enumerations as the specification words them *)

(** "Full: depth-first walk from the resolved node; append each visited
    node's fragment to a path accumulator on the way down; at each leaf
    emit one token": the accumulated fragments from [n] down to each leaf
    below it, leftmost leaf first. *)
Fixpoint leaf_paths (n : patricia_node) : list cstring :=
  match n with
  | Node k cs =>
      if list_empty cs then [k]
      else
        map (app k)
          ((fix below (l : list patricia_node) : list cstring :=
              match l with
              | [] => []
              | c :: l' => leaf_paths c ++ below l'
              end) cs)
  end.

(** "Partial: identical walk, but when a child's fragment ends in the
    delimiter byte, emit that segment (accumulator + child fragment,
    trailing delimiter stripped) as one token immediately and do not
    descend into that child": the candidate tokens below [n], without the
    fragment of [n] itself. *)
Fixpoint partial_paths (n : patricia_node) : list cstring :=
  match n with
  | Node _ cs =>
      if list_empty cs then [[]]
      else
        (fix below (l : list patricia_node) : list cstring :=
           match l with
           | [] => []
           | c :: l' =>
               match patricia_key_has_delimiter (node_key c) with
               | Ret true => [removelast (node_key c)]
               | _ => map (app (node_key c)) (partial_paths c)
               end ++ below l'
           end) cs
  end.

(** The candidates a child contributes to the walk of its parent. *)
Definition child_paths (c : patricia_node) : list cstring :=
  match patricia_key_has_delimiter (node_key c) with
  | Ret true => [removelast (node_key c)]
  | _ => map (app (node_key c)) (partial_paths c)
  end.

(** [subseq l1 l2]: [l1] is [l2] with some of its elements left out. *)
Inductive subseq {A : Type} : list A -> list A -> Prop :=
| subseq_nil : subseq [] []
| subseq_skip : forall x l1 l2, subseq l1 l2 -> subseq l1 (x :: l2)
| subseq_take : forall x l1 l2, subseq l1 l2 -> subseq (x :: l1) (x :: l2).

Definition no_space (tok : cstring) : Prop := ~ In SPACE tok.

(** What the partial walk below [c] does to its accumulator [res] and to
    the buffer [rl]: [res] comes back as it was, and the buffer has grown by
    some of the candidates, in their order. *)
Definition partial_spec (prefix : cstring) (c : patricia_node) : Prop :=
  forall res rl r' out,
    patricia_lookup_prefix_partial_internal c res rl prefix = Ret (r', out) ->
    r' = res /\
    exists toks,
      out = rl ++ join_tokens toks /\
      subseq toks (map (fun s => prefix ++ res ++ s) (partial_paths c)).


(** The positions the [for] loop of [is_substring] can stand on while a
    token that begins with [tok] is still ahead: in front of the rest [w]
    of a token, its closing space and the tokens [ts] that follow. *)
Definition leading_match_ahead (tok s1 : cstring) : Prop :=
  exists w ts,
    s1 = w ++ SPACE :: join_tokens ts /\
    no_space w /\ Forall no_space ts /\
    (is_prefix tok w \/ Exists (is_prefix tok) ts).

(** The tree of "x/b-c", "x/b/" and "x/z", and its node for "x/". *)
Definition node_x_dir : patricia_node :=
  Node (cstr "x/")
    [Node (cstr "b") [Node (cstr "-c") []; Node (cstr "/") []];
     Node (cstr "z") []].

Definition tree_x_dir : patricia_tree := Tree (Node [] [node_x_dir]).

(** * Further definitions: what the remaining routines are measured by *)

From Stdlib Require Import Sorting.Permutation.

(** The keys [patricia_lookup] is meant to find below [n]: the fragments
    from [n] down to any node, joined. *)
Fixpoint node_paths (n : patricia_node) : list cstring :=
  match n with
  | Node k cs =>
      k :: map (app k)
             ((fix below (l : list patricia_node) : list cstring :=
                 match l with
                 | [] => []
                 | c :: l' => node_paths c ++ below l'
                 end) cs)
  end.

(** The keys spelled by the nodes of a tree; the root spells none. *)
Definition stored_paths (t : patricia_tree) : list cstring :=
  flat_map node_paths (node_children (root t)).

(** The child a scanning loop stops at. *)
Definition pick (c : option ascii) (cs : list patricia_node)
  : option patricia_node :=
  match find_child c cs with
  | Some (_, x, _) => Some x
  | None => None
  end.

(** [occurs s2 s1]: the characters of [s2] stand next to each other
    somewhere in [s1]. *)
Definition occurs (s2 s1 : cstring) : Prop :=
  exists a b, s1 = a ++ s2 ++ b.

(** A buffer as the enumerations leave it: empty, or closed by a space. *)
Definition space_closed (buf : cstring) : Prop :=
  buf = [] \/ exists body, buf = body ++ [SPACE].

(** The key count [patricia_print_stats] prints: it resets [total_keys]
    and lets [patricia_get_key_count] count from the root, which it reads
    from the tree without a test for [NULL]. *)
Definition patricia_print_stats (tree : option patricia_tree) : outcome nat :=
  match tree with
  | None => Fault
  | Some t => Ret (patricia_get_key_count (root t))
  end.

(** Ascending for [strcmp], equal fragments allowed: the order
    [patricia_add_child_node] works with, whatever the fragments are. *)
Definition weakly_ascending (cs : list patricia_node) : Prop :=
  StronglySorted
    (fun a b => (strcmp (node_key a) (node_key b) <= 0)%Z) cs.

(** [patricia_lookup_prefix_partial_internal] at the node [n] stays inside
    its scratch arrays: called with a path [res] that fits behind the prefix
    and a buffer that is empty or ends in a space, below a node all of whose
    paths fit as well, it returns, with [res] as it was and such a buffer
    again. *)
Definition partial_runs (prefix : cstring) (n : patricia_node) : Prop :=
  forall res rl,
    space_closed rl ->
    length (prefix ++ res) < PATRICIA_DEFAULT_KEYLEN ->
    (forall c lp, In c (node_children n) -> In lp (node_paths c) ->
                  length (prefix ++ res ++ lp) < PATRICIA_DEFAULT_KEYLEN) ->
    exists out,
      patricia_lookup_prefix_partial_internal n res rl prefix
      = Ret (res, out) /\ space_closed out.

(** "A candidate token is appended to the output buffer if and only if
    [is_substring] does not find it in the buffer accumulated so far": the
    candidates taken in their order, each one tested against the buffer as
    the candidates before it have left it, and put at its end, with a space,
    when the test answers 0. *)
Fixpoint append_new (buf : cstring) (cands : list cstring)
  : outcome cstring :=
  match cands with
  | [] => Ret buf
  | cand :: rest =>
      dup <- is_substring buf cand ;;
      append_new (if dup : bool then buf else buf ++ cand ++ [SPACE]) rest
  end.

(** What the partial walk below [c] does to the buffer [rl], read through
    [append_new]. *)
Definition partial_filter (prefix : cstring) (c : patricia_node) : Prop :=
  forall res rl r' out,
    patricia_lookup_prefix_partial_internal c res rl prefix = Ret (r', out) ->
    r' = res /\
    append_new rl (map (fun s => prefix ++ res ++ s) (partial_paths c))
    = Ret out.

(** The tree of "aaxab" and "ab", and its node for "a". *)
Definition node_a_fork : patricia_node :=
  Node (cstr "a") [Node (cstr "axab") []; Node (cstr "b") []].

Definition tree_a_fork : patricia_tree := Tree (Node [] [node_a_fork]).
(** * Facts about strings *)


Lemma same_char_spec (a b : option ascii) :
  reflect (a = b) (same_char a b).
Proof.
  destruct a as [c|], b as [d|]; simpl; try (constructor; congruence).
  destruct (Ascii.eqb_spec c d); constructor; congruence.
Qed.

Lemma same_char_refl (a : option ascii) : same_char a a = true.
Proof. destruct (same_char_spec a a); congruence. Qed.

Lemma first_char_app (a b : cstring) :
  a <> [] -> first_char (a ++ b) = first_char a.
Proof. destruct a; [congruence | reflexivity]. Qed.

Lemma prefix_count_loop (a b : cstring) :
  patricia_get_prefix_count a b = common_prefix_loop a b.
Proof.
  unfold patricia_get_prefix_count.
  destruct a as [|c a]; [reflexivity|].
  destruct b as [|d b]; reflexivity.
Qed.

Lemma common_prefix_le_l (a b : cstring) :
  common_prefix_loop a b <= length a.
Proof.
  revert b; induction a as [|c a IH]; intros [|d b]; simpl; try lia.
  destruct (Ascii.eqb c d); [specialize (IH b)|]; lia.
Qed.

Lemma common_prefix_le_r (a b : cstring) :
  common_prefix_loop a b <= length b.
Proof.
  revert b; induction a as [|c a IH]; intros [|d b]; simpl; try lia.
  destruct (Ascii.eqb c d); [specialize (IH b)|]; lia.
Qed.

Lemma common_prefix_firstn (a b : cstring) :
  firstn (common_prefix_loop a b) a = firstn (common_prefix_loop a b) b.
Proof.
  revert b; induction a as [|c a IH]; intros [|d b]; simpl; try reflexivity.
  destruct (Ascii.eqb_spec c d) as [->|]; simpl; [|reflexivity].
  now rewrite IH.
Qed.

Lemma common_prefix_refl (a : cstring) :
  common_prefix_loop a a = length a.
Proof.
  induction a as [|c a IH]; simpl; [reflexivity|].
  now rewrite Ascii.eqb_refl, IH.
Qed.

Lemma common_prefix_diverge (a b : cstring) :
  common_prefix_loop a b < length a ->
  common_prefix_loop a b < length b ->
  first_char (skipn (common_prefix_loop a b) a)
  <> first_char (skipn (common_prefix_loop a b) b).
Proof.
  revert b; induction a as [|c a IH]; intros [|d b]; simpl; try lia.
  destruct (Ascii.eqb_spec c d) as [->|Hcd]; simpl.
  - intros; apply IH; lia.
  - intros _ _; congruence.
Qed.

Lemma common_prefix_pos_inv (a b : cstring) :
  0 < common_prefix_loop a b ->
  a <> [] /\ b <> [] /\ first_char a = first_char b.
Proof.
  destruct a as [|c a], b as [|d b]; simpl; try lia.
  destruct (Ascii.eqb_spec c d) as [->|]; [|lia].
  intros _. repeat split; discriminate.
Qed.

(** A key that matches over its whole length and over the whole fragment
    is the fragment. *)
Lemma common_prefix_full (a b : cstring) :
  common_prefix_loop a b = length a ->
  common_prefix_loop a b = length b ->
  a = b.
Proof.
  intros Ha Hb. pose proof (common_prefix_firstn a b) as H.
  rewrite Ha in H at 1. rewrite Hb in H.
  now rewrite !firstn_all in H.
Qed.

Lemma common_prefix_of_firstn (a b : cstring) :
  common_prefix_loop a (firstn (common_prefix_loop a b) a)
  = common_prefix_loop a b.
Proof.
  revert b; induction a as [|c a IH]; intros [|d b]; simpl; try reflexivity.
  destruct (Ascii.eqb_spec c d) as [->|]; simpl; [|reflexivity].
  now rewrite Ascii.eqb_refl, IH.
Qed.

Lemma common_prefix_app (a b s : cstring) :
  common_prefix_loop a b < length a ->
  common_prefix_loop (a ++ s) b = common_prefix_loop a b.
Proof.
  revert b; induction a as [|c a IH]; intros [|d b]; simpl; try lia.
  destruct (Ascii.eqb_spec c d) as [->|]; simpl; [|reflexivity].
  intros H. rewrite IH; [reflexivity | lia].
Qed.

Lemma common_prefix_nil_r (a : cstring) : common_prefix_loop a [] = 0.
Proof. destruct a; reflexivity. Qed.

Lemma substring_tail (key : cstring) (n : nat) :
  key <> [] -> n <= length key ->
  substring key n (strlen key - n) = Some (skipn n key).
Proof.
  intros Hk Hn. unfold substring, strlen.
  assert (length key <> 0) by (destruct key; simpl; congruence).
  destruct (Nat.eqb_spec (length key) 0); [lia|].
  destruct (Nat.ltb_spec (length key) n); [lia|].
  destruct (Nat.ltb_spec (length key) (n + (length key - n))); [lia|].
  simpl. f_equal. apply firstn_all2. rewrite length_skipn. lia.
Qed.

Lemma substring_head (key : cstring) (n : nat) :
  key <> [] -> n <= length key ->
  substring key 0 n = Some (firstn n key).
Proof.
  intros Hk Hn. unfold substring, strlen.
  assert (length key <> 0) by (destruct key; simpl; congruence).
  destruct (Nat.eqb_spec (length key) 0); [lia|].
  destruct (Nat.ltb_spec (length key) 0); [lia|].
  destruct (Nat.ltb_spec (length key) (0 + n)); [lia|].
  reflexivity.
Qed.

Lemma substring_some_nonempty (s r : cstring) (b n : nat) :
  substring s b n = Some r -> s <> [].
Proof. intros H ->. discriminate. Qed.

Lemma skipn_nonempty (s : cstring) (n : nat) :
  n < length s -> skipn n s <> [].
Proof.
  intros H E. apply (f_equal (@length _)) in E.
  rewrite length_skipn in E. simpl in E. lia.
Qed.

Lemma firstn_nonempty (s : cstring) (n : nat) :
  0 < n -> s <> [] -> firstn n s <> [].
Proof. destruct n, s; simpl; try lia; congruence. Qed.

Lemma first_char_firstn (s : cstring) (n : nat) :
  0 < n -> first_char (firstn n s) = first_char s.
Proof. destruct n, s; simpl; try lia; reflexivity. Qed.

Lemma strcmp_eq (a b : cstring) : strcmp a b = 0%Z <-> a = b.
Proof.
  revert b; induction a as [|c a IH]; intros [|d b]; simpl;
    try (split; [lia | discriminate]).
  - tauto.
  - destruct (Ascii.eqb_spec c d) as [->|Hcd].
    + rewrite IH. split; congruence.
    + destruct (nat_of_ascii c <? nat_of_ascii d);
        (split; [lia | congruence]).
Qed.

(** On two strings with distinct first characters [strcmp] is decided
    by these. *)
Lemma strcmp_first (c d : ascii) (a b : cstring) :
  c <> d ->
  ((strcmp (c :: a) (d :: b) < 0)%Z <-> nat_of_ascii c < nat_of_ascii d).
Proof.
  intros Hcd. simpl. destruct (Ascii.eqb_spec c d); [contradiction|].
  destruct (Nat.ltb_spec (nat_of_ascii c) (nat_of_ascii d)); lia.
Qed.

Lemma nat_of_ascii_inj (c d : ascii) :
  nat_of_ascii c = nat_of_ascii d -> c = d.
Proof.
  intros H. rewrite <- (ascii_nat_embedding c), <- (ascii_nat_embedding d).
  now rewrite H.
Qed.


Lemma find_child_some c cs pre x post :
  find_child c cs = Some (pre, x, post) ->
  cs = pre ++ x :: post /\ first_char (node_key x) = c /\
  Forall (starts_other c) pre.
Proof.
  revert pre; induction cs as [|child next IH]; intros pre; simpl.
  - discriminate.
  - destruct (same_char_spec (first_char (node_key child)) c) as [E|N].
    + intros [= <- <- <-]. repeat split; auto.
    + destruct (find_child c next) as [[[pre' x'] post']|]; [|discriminate].
      intros [= <- <- <-]. destruct (IH pre' eq_refl) as (-> & Hx & Hpre).
      repeat split; auto.
Qed.

Lemma find_child_none c cs :
  find_child c cs = None <-> Forall (starts_other c) cs.
Proof.
  induction cs as [|child next IH]; simpl.
  - split; auto.
  - destruct (same_char_spec (first_char (node_key child)) c) as [E|N].
    + split; [discriminate|]. intros H. inversion H; subst. contradiction.
    + destruct (find_child c next) as [[[pre' x'] post']|].
      * split; [discriminate|]. intros H. inversion H; subst.
        apply IH in H3. discriminate.
      * split; auto. intros _. constructor; [exact N | now apply IH].
Qed.

Lemma find_child_here c pre x post :
  Forall (starts_other c) pre -> first_char (node_key x) = c ->
  find_child c (pre ++ x :: post) = Some (pre, x, post).
Proof.
  intros Hpre Hx. induction Hpre as [|y pre Hy Hpre IH]; simpl.
  - rewrite Hx, same_char_refl. reflexivity.
  - destruct (same_char_spec (first_char (node_key y)) c) as [E|N].
    + contradiction.
    + now rewrite IH.
Qed.

(** ** The routines, with their loops read through [find_child] *)

Lemma patricia_lookup_internal_eq b k cs key :
  patricia_lookup_internal b (Node k cs) key =
  let prefix_len := common_prefix_loop key k in
  if descend b prefix_len key k then
    match substring key prefix_len (strlen key - prefix_len) with
    | None => 0%Z
    | Some new_key =>
        match find_child (first_char new_key) cs with
        | None => 0%Z
        | Some (_, x, _) => patricia_lookup_internal false x new_key
        end
    end
  else if prefix_len =? strlen k then 1%Z else 0%Z.
Proof.
  simpl. rewrite prefix_count_loop.
  destruct (descend b (common_prefix_loop key k) key k); [|reflexivity].
  destruct (substring key _ _) as [new_key|]; [|reflexivity].
  induction cs as [|child next IH]; simpl; [reflexivity|].
  destruct (same_char _ _); [reflexivity|].
  rewrite IH. now destruct (find_child _ next) as [[[? ?] ?]|].
Qed.

Lemma patricia_lookup_node_internal_eq b k cs key :
  patricia_lookup_node_internal b (Node k cs) key =
  let prefix_len := common_prefix_loop key k in
  if descend b prefix_len key k then
    match substring key prefix_len (strlen key - prefix_len) with
    | None => None
    | Some new_key =>
        match find_child (first_char new_key) cs with
        | None => None
        | Some (_, x, _) => patricia_lookup_node_internal false x new_key
        end
    end
  else if prefix_len =? strlen k then Some (Node k cs) else None.
Proof.
  simpl. rewrite prefix_count_loop.
  destruct (descend b (common_prefix_loop key k) key k); [|reflexivity].
  destruct (substring key _ _) as [new_key|]; [|reflexivity].
  induction cs as [|child next IH]; simpl; [reflexivity|].
  destruct (same_char _ _); [reflexivity|].
  rewrite IH. now destruct (find_child _ next) as [[[? ?] ?]|].
Qed.

Lemma patricia_delete_keys_ok n : patricia_delete_keys n = 0%Z.
Proof.
  destruct n as [k cs]. simpl.
  induction cs as [|child next IH]; [reflexivity | exact IH].
Qed.

Lemma patricia_delete_internal_eq b k cs key :
  patricia_delete_internal b (Node k cs) key =
  let prefix_len := common_prefix_loop key k in
  if descend b prefix_len key k then
    match substring key prefix_len (strlen key - prefix_len) with
    | None => ((-1)%Z, Node k cs)
    | Some new_key =>
        match find_child (first_char new_key) cs with
        | None => ((-1)%Z, Node k cs)
        | Some (pre, x, post) =>
            if (strcmp (node_key x) new_key =? 0)%Z
            then (0%Z, Node k (pre ++ post))
            else (fst (patricia_delete_internal false x new_key),
                  Node k (pre ++
                          snd (patricia_delete_internal false x new_key)
                          :: post))
        end
    end
  else ((-1)%Z, Node k cs).
Proof.
  simpl. rewrite prefix_count_loop.
  destruct (descend b (common_prefix_loop key k) key k); [|reflexivity].
  destruct (substring key _ _) as [new_key|]; [|reflexivity].
  match goal with
  | |- (let '(r, c) := ?scan cs in _) = _ =>
      assert (scan cs =
              match find_child (first_char new_key) cs with
              | None => ((-1)%Z, cs)
              | Some (pre, x, post) =>
                  if (strcmp (node_key x) new_key =? 0)%Z
                  then (0%Z, pre ++ post)
                  else (fst (patricia_delete_internal false x new_key),
                        pre ++
                        snd (patricia_delete_internal false x new_key)
                        :: post)
              end) as ->
  end.
  { induction cs as [|child next IH]; [reflexivity|].
    cbn [find_child]. destruct (same_char _ _).
    - destruct (strcmp (node_key child) new_key =? 0)%Z.
      + cbn. now rewrite patricia_delete_keys_ok.
      + now destruct (patricia_delete_internal false child new_key).
    - rewrite IH. destruct (find_child _ next) as [[[pre x] post]|].
      + now destruct (strcmp (node_key x) new_key =? 0)%Z.
      + reflexivity. }
  destruct (find_child _ cs) as [[[pre x] post]|]; [|reflexivity].
  now destruct (strcmp (node_key x) new_key =? 0)%Z.
Qed.

Lemma patricia_add_internal_alloc_eq mem b k cs key :
  patricia_add_internal_alloc mem b (Node k cs) key =
  let prefix_len := common_prefix_loop key k in
  if descend b prefix_len key k then
    match substring key prefix_len (strlen key - prefix_len) with
    | None => Ret ((-1)%Z, Node k cs)
    | Some new_key =>
        match find_child (first_char new_key) cs with
        | Some (pre, x, post) =>
            '(ret, x') <- patricia_add_internal_alloc mem false x new_key ;;
            Ret ((if (ret =? 0)%Z then 0 else -1)%Z,
                 Node k (pre ++ x' :: post))
        | None =>
            Ret (0%Z,
                 patricia_add_child_node (Node k cs)
                   (patricia_node_init (hd true mem) (Some new_key) true))
        end
    end
  else if prefix_len <? strlen key then
    prev_node <-
      set_children
        (patricia_node_init (hd true mem)
           (substring k prefix_len (strlen k - prefix_len)) false) cs ;;
    cur <- rewrite_node (substring key 0 prefix_len) ;;
    Ret (0%Z,
         patricia_add_child_node
           (patricia_add_child_node cur (Some prev_node))
           (patricia_node_init (hd true (tl mem))
              (substring key prefix_len (strlen key - prefix_len)) true))
  else if prefix_len =? strlen key then
    if prefix_len =? strlen k then Ret (0%Z, Node k cs)
    else
      next_node <-
        set_children
          (patricia_node_init (hd true mem)
             (substring k prefix_len (strlen k - prefix_len)) false) cs ;;
      cur <- rewrite_node (substring key 0 prefix_len) ;;
      Ret (0%Z, patricia_add_child_node cur (Some next_node))
  else Ret (0%Z, Node k cs).
Proof.
  simpl. rewrite prefix_count_loop.
  destruct (descend b (common_prefix_loop key k) key k); [|reflexivity].
  destruct (substring key _ _) as [new_key|]; [|reflexivity].
  match goal with
  | |- match ?scan cs with _ => _ end = _ =>
      assert (scan cs =
              match find_child (first_char new_key) cs with
              | Some (pre, x, post) =>
                  Some ('(ret, x') <-
                          patricia_add_internal_alloc mem false x new_key ;;
                        Ret ((if (ret =? 0)%Z then 0 else -1)%Z,
                             pre ++ x' :: post))
              | None => None
              end) as ->
  end.
  { induction cs as [|child next IH]; [reflexivity|].
    cbn [find_child]. destruct (same_char _ _); [reflexivity|].
    rewrite IH. destruct (find_child _ next) as [[[pre x] post]|];
      [|reflexivity].
    f_equal.
    destruct (patricia_add_internal_alloc mem false x new_key)
      as [[r x']|]; [|reflexivity].
    reflexivity. }
  destruct (find_child _ cs) as [[[pre x] post]|]; [|reflexivity].
  destruct (patricia_add_internal_alloc mem false x new_key) as [[r x']|];
    reflexivity.
Qed.

Lemma patricia_add_internal_eq b k cs key :
  patricia_add_internal b (Node k cs) key =
  let prefix_len := common_prefix_loop key k in
  if descend b prefix_len key k then
    match substring key prefix_len (strlen key - prefix_len) with
    | None => Ret ((-1)%Z, Node k cs)
    | Some new_key =>
        match find_child (first_char new_key) cs with
        | Some (pre, x, post) =>
            '(ret, x') <- patricia_add_internal false x new_key ;;
            Ret ((if (ret =? 0)%Z then 0 else -1)%Z,
                 Node k (pre ++ x' :: post))
        | None =>
            Ret (0%Z,
                 patricia_add_child_node (Node k cs)
                   (patricia_node_init true (Some new_key) true))
        end
    end
  else if prefix_len <? strlen key then
    prev_node <-
      set_children
        (patricia_node_init true
           (substring k prefix_len (strlen k - prefix_len)) false) cs ;;
    cur <- rewrite_node (substring key 0 prefix_len) ;;
    Ret (0%Z,
         patricia_add_child_node
           (patricia_add_child_node cur (Some prev_node))
           (patricia_node_init true
              (substring key prefix_len (strlen key - prefix_len)) true))
  else if prefix_len =? strlen key then
    if prefix_len =? strlen k then Ret (0%Z, Node k cs)
    else
      next_node <-
        set_children
          (patricia_node_init true
             (substring k prefix_len (strlen k - prefix_len)) false) cs ;;
      cur <- rewrite_node (substring key 0 prefix_len) ;;
      Ret (0%Z, patricia_add_child_node cur (Some next_node))
  else Ret (0%Z, Node k cs).
Proof. exact (patricia_add_internal_alloc_eq [] b k cs key). Qed.

Lemma wf_node_eq k cs :
  wf_node (Node k cs) <-> k <> [] /\ siblings_ok cs /\ Forall wf_node cs.
Proof.
  simpl. assert (forall l,
    (fix all (l : list patricia_node) : Prop :=
       match l with
       | [] => True
       | c :: l' => wf_node c /\ all l'
       end) l <-> Forall wf_node l) as E.
  { induction l as [|c l IH]; [split; auto|].
    rewrite IH. split.
    - intros [? ?]; now constructor.
    - intros H; inversion H; auto. }
  now rewrite E.
Qed.

Lemma wf_at_false n : wf_at false n <-> wf_node n.
Proof. destruct n as [k cs]. now rewrite wf_node_eq. Qed.

(** ** Sorted sibling lists *)


Lemma lead_first_char x y :
  first_char (node_key x) = first_char (node_key y) -> lead x = lead y.
Proof.
  unfold lead. destruct (node_key x), (node_key y); simpl; congruence.
Qed.

Lemma sorted_app (A : Type) (R : A -> A -> Prop) (l1 l2 : list A) :
  StronglySorted R (l1 ++ l2) <->
  StronglySorted R l1 /\ StronglySorted R l2 /\
  (forall a b, In a l1 -> In b l2 -> R a b).
Proof.
  induction l1 as [|x l1 IH]; simpl.
  - split; [intros H; repeat split; auto; try constructor; tauto | tauto].
  - split.
    + intros H. inversion H as [|? ? Hs Hf]; subst.
      apply IH in Hs. destruct Hs as (H1 & H2 & H3).
      rewrite Forall_app in Hf. destruct Hf as [Hf1 Hf2].
      repeat split; auto.
      * now constructor.
      * intros a b [<-|Ha] Hb; [|now apply H3].
        rewrite Forall_forall in Hf2. now apply Hf2.
    + intros (H1 & H2 & H3). inversion H1 as [|? ? Hs Hf]; subst.
      constructor.
      * apply IH. repeat split; auto.
      * rewrite Forall_app. split; [exact Hf|].
        rewrite Forall_forall. intros b Hb. apply H3; auto.
Qed.

Lemma siblings_replace pre x x' post :
  siblings_ok (pre ++ x :: post) -> lead x' = lead x ->
  siblings_ok (pre ++ x' :: post).
Proof.
  unfold siblings_ok. rewrite !sorted_app. intros (H1 & H2 & H3) E.
  inversion H2 as [|? ? Hs Hf]; subst. repeat split; auto.
  - constructor; [exact Hs|]. now rewrite E.
  - intros a b Ha [<-|Hb].
    + rewrite E. apply H3; simpl; auto.
    + apply H3; simpl; auto.
Qed.

Lemma siblings_remove pre x post :
  siblings_ok (pre ++ x :: post) -> siblings_ok (pre ++ post).
Proof.
  unfold siblings_ok. rewrite !sorted_app. intros (H1 & H2 & H3).
  inversion H2; subst. repeat split; auto.
  intros a b Ha Hb. apply H3; simpl; auto.
Qed.

(** Below the selected child no sibling starts with the same byte. *)
Lemma siblings_rest_other pre x post :
  siblings_ok (pre ++ x :: post) ->
  Forall (starts_other (first_char (node_key x))) post.
Proof.
  unfold siblings_ok. rewrite sorted_app. intros (_ & H2 & _).
  inversion H2 as [|? ? _ Hf]; subst.
  rewrite Forall_forall in *. intros y Hy E.
  apply Hf in Hy. apply lead_first_char in E. lia.
Qed.

Lemma In_add_child_scan c l y :
  In y (add_child_scan c l) <-> y = c \/ In y l.
Proof.
  induction l as [|n next IH]; simpl.
  - intuition congruence.
  - destruct (strcmp (node_key c) (node_key n) <? 0)%Z; simpl.
    + intuition congruence.
    + rewrite IH. intuition congruence.
Qed.

Lemma strcmp_lead c n :
  node_key c <> [] -> node_key n <> [] ->
  first_char (node_key n) <> first_char (node_key c) ->
  ((strcmp (node_key c) (node_key n) < 0)%Z <-> lead c < lead n) /\
  lead c <> lead n.
Proof.
  unfold lead. destruct (node_key c) as [|a ka], (node_key n) as [|d kn];
    try congruence.
  intros _ _ H. assert (a <> d) as Had by (simpl in H; congruence).
  split; [now apply strcmp_first|].
  intros E. apply nat_of_ascii_inj in E. contradiction.
Qed.

Lemma siblings_insert c cs :
  node_key c <> [] ->
  Forall (fun n => node_key n <> []) cs ->
  Forall (starts_other (first_char (node_key c))) cs ->
  siblings_ok cs ->
  siblings_ok (add_child_scan c cs).
Proof.
  intros Hc Hne Hother Hs. unfold siblings_ok in *.
  induction cs as [|n next IH]; simpl.
  - repeat constructor.
  - inversion Hne as [|? ? Hn Hne']; subst.
    inversion Hother as [|? ? Hon Hother']; subst.
    inversion Hs as [|? ? Hs' Hf]; subst.
    destruct (strcmp_lead c n Hc Hn Hon) as [Hlt Hneq].
    destruct (Z.ltb_spec (strcmp (node_key c) (node_key n)) 0) as [L|L].
    + apply Hlt in L. constructor; [exact Hs|].
      constructor; [exact L|].
      rewrite Forall_forall in *. intros y Hy. specialize (Hf y Hy). lia.
    + assert (lead n < lead c).
      { assert (~ lead c < lead n) by (intro X; apply Hlt in X; lia).
        lia. }
      constructor; [now apply IH|].
      rewrite Forall_forall in *. intros y Hy.
      apply In_add_child_scan in Hy. destruct Hy as [->|Hy]; auto.
Qed.

Lemma patricia_add_child_node_scan k cs c :
  patricia_add_child_node (Node k cs) (Some c)
  = Node k (add_child_scan c cs).
Proof. destruct cs; reflexivity. Qed.

Lemma wf_children_nonempty cs :
  Forall wf_node cs -> Forall (fun n => node_key n <> []) cs.
Proof.
  apply Forall_impl. intros [k l] H. apply wf_node_eq in H. simpl. tauto.
Qed.

Lemma Forall_wf_add_child_scan c cs :
  wf_node c -> Forall wf_node cs -> Forall wf_node (add_child_scan c cs).
Proof.
  intros Hc Hcs. rewrite Forall_forall in *. intros y Hy.
  apply In_add_child_scan in Hy. destruct Hy as [->|Hy]; auto.
Qed.


(** ** The guard of the descent *)

Lemma descend_true b L key k :
  descend b L key k = true <->
  b = true \/ L = 0 \/ (0 < L /\ L < length key /\ length k <= L).
Proof.
  unfold descend, strlen.
  rewrite !orb_true_iff, !andb_true_iff, Nat.eqb_eq, !Nat.ltb_lt,
    Nat.leb_le.
  tauto.
Qed.

Lemma descend_false b L key k :
  descend b L key k = false <->
  b = false /\ 0 < L /\ (length key <= L \/ L < length k).
Proof.
  rewrite <- not_true_iff_false, descend_true.
  destruct b; split; intros H.
  - exfalso; apply H; auto.
  - destruct H; discriminate.
  - repeat split; auto; lia.
  - intros [?|?]; [discriminate | lia].
Qed.

(** What is left of the key after the descent has dropped the common
    prefix. *)
Lemma descend_new_key b key k new_key :
  (b = true -> k = []) ->
  descend b (common_prefix_loop key k) key k = true ->
  substring key (common_prefix_loop key k)
    (strlen key - common_prefix_loop key k) = Some new_key ->
  new_key = skipn (common_prefix_loop key k) key /\
  new_key <> [] /\ key <> [].
Proof.
  intros Hroot Hd Hs.
  pose proof (substring_some_nonempty _ _ _ _ Hs) as Hkey.
  pose proof (common_prefix_le_l key k) as Hle.
  rewrite substring_tail in Hs by assumption. injection Hs as E.
  subst new_key. repeat split; auto.
  apply descend_true in Hd. destruct Hd as [Hb | [H0 | (_ & Hlt & _)]].
  - rewrite (Hroot Hb), common_prefix_nil_r. exact Hkey.
  - rewrite H0. exact Hkey.
  - now apply skipn_nonempty.
Qed.

(** * Insertion keeps nodes well formed *)

Lemma wf_leaf k : k <> [] -> wf_node (Node k []).
Proof.
  intros H. apply wf_node_eq. repeat split; auto; constructor.
Qed.

Lemma patricia_add_child_node_none parent :
  patricia_add_child_node parent None = parent.
Proof. reflexivity. Qed.

Lemma patricia_add_internal_alloc_wf cur :
  forall mem b key ret cur',
    wf_at b cur ->
    patricia_add_internal_alloc mem b cur key = Ret (ret, cur') ->
    wf_at b cur' /\
    (b = false -> first_char (node_key cur') = first_char (node_key cur)).
Proof.
  induction cur as [k cs IH] using patricia_node_ind.
  intros mem b key ret cur' Hwf. rewrite patricia_add_internal_alloc_eq.
  cbv zeta.
  pose proof (common_prefix_le_l key k) as Hlk.
  pose proof (common_prefix_le_r key k) as Hlr.
  destruct Hwf as (Hk & Hsib & Hall). simpl in Hk, Hsib, Hall.
  destruct (descend b (common_prefix_loop key k) key k) eqn:Hd.
  - (* the key goes to a child *)
    destruct (substring key _ _) as [new_key|] eqn:Hs.
    2:{ intros [= <- <-]. split; [|reflexivity]. now repeat split. }
    assert (b = true -> k = []) as Hroot by (intros ->; exact Hk).
    destruct (descend_new_key b key k new_key Hroot Hd Hs)
      as (_ & Hnk & Hkey).
    destruct (find_child (first_char new_key) cs)
      as [[[pre x] post]|] eqn:Hf.
    + apply find_child_some in Hf. destruct Hf as (-> & Hx & Hpre).
      destruct (patricia_add_internal_alloc mem false x new_key)
        as [[r x']|] eqn:Hadd; [|discriminate].
      simpl. intros [= <- <-].
      rewrite Forall_app in IH, Hall. destruct IH as [_ IHx].
      destruct Hall as [Hall1 Hall2].
      inversion IHx as [|? ? IHx' _]; subst.
      inversion Hall2 as [|? ? Hwx Hall3]; subst.
      apply wf_at_false in Hwx.
      destruct (IHx' mem false new_key r x' Hwx Hadd) as [Hwx' Hfc].
      split; [|reflexivity]. split; [exact Hk|]. simpl. split.
      * apply siblings_replace with (x := x); [exact Hsib|].
        apply lead_first_char. now apply Hfc.
      * rewrite Forall_app. split; [exact Hall1|].
        constructor; [now apply wf_at_false | exact Hall3].
    + destruct (hd true mem).
      2:{ (* the allocation of the leaf fails: nothing is inserted *)
          intros [= <- <-]. split; [|reflexivity]. now repeat split. }
      unfold patricia_node_init. rewrite patricia_add_child_node_scan.
      intros [= <- <-]. split; [|reflexivity]. split; [exact Hk|]. simpl.
      apply find_child_none in Hf. split.
      * apply siblings_insert; auto.
        now apply wf_children_nonempty.
      * apply Forall_wf_add_child_scan; [now apply wf_leaf | exact Hall].
  - (* the key meets the fragment of this node *)
    apply descend_false in Hd. destruct Hd as (-> & Hpos & Hcase).
    destruct (common_prefix_pos_inv key k Hpos) as (Hkey & _ & Hfc).
    destruct (Nat.ltb_spec (common_prefix_loop key k) (strlen key)) as [Hlt|Hge].
    + (* diverging split *)
      unfold strlen in Hlt.
      rewrite !substring_tail, !substring_head by (auto; lia).
      destruct (hd true mem); [|discriminate].
      destruct (hd true (tl mem)).
      * cbn [bind set_children rewrite_node patricia_node_init list_create].
        rewrite !patricia_add_child_node_scan.
        match goal with
        | |- Ret (_, Node _ ?l) = _ -> _ => remember l as l' eqn:El
        end.
        intros [= <- <-]. unfold wf_at. cbn [node_key node_children]. split.
        -- split; [now apply firstn_nonempty|]. subst l'. split.
           ++ apply siblings_insert; simpl.
              ** apply skipn_nonempty; lia.
              ** repeat constructor. simpl. apply skipn_nonempty; lia.
              ** repeat constructor. unfold starts_other. simpl.
                 intros E. symmetry in E. revert E.
                 apply common_prefix_diverge; lia.
              ** repeat constructor.
           ++ apply Forall_wf_add_child_scan.
              ** apply wf_leaf. apply skipn_nonempty; lia.
              ** constructor; [|constructor]. apply wf_node_eq.
                 repeat split; auto. apply skipn_nonempty; lia.
        -- intros _. rewrite first_char_firstn by exact Hpos. exact Hfc.
      * (* the allocation of the new leaf fails: the split node keeps the
           old fragment's rest as its only child *)
        cbn [bind set_children rewrite_node patricia_node_init list_create].
        rewrite patricia_add_child_node_none, patricia_add_child_node_scan.
        cbn [add_child_scan list_insert app list_create].
        intros [= <- <-]. unfold wf_at. cbn [node_key node_children]. split.
        -- split; [now apply firstn_nonempty|]. split.
           ++ repeat constructor.
           ++ constructor; [|constructor]. apply wf_node_eq.
              repeat split; auto. apply skipn_nonempty; lia.
        -- intros _. rewrite first_char_firstn by exact Hpos. exact Hfc.
    + destruct (Nat.eqb_spec (common_prefix_loop key k) (strlen key)) as [He|Hne].
      * destruct (Nat.eqb_spec (common_prefix_loop key k) (strlen k)) as [He'|Hne'].
        -- intros [= <- <-]. split; [|reflexivity]. now repeat split.
        -- (* the key is a strict prefix of the fragment *)
           unfold strlen in *.
           rewrite !substring_tail, !substring_head by (auto; lia).
           destruct (hd true mem); [|discriminate].
           cbn [bind set_children rewrite_node patricia_node_init
                  list_create].
           rewrite !patricia_add_child_node_scan.
           intros [= <- <-]. unfold wf_at. cbn [node_key node_children]. split.
           ++ split; [now apply firstn_nonempty|]. split.
              ** repeat constructor.
              ** constructor; [|constructor]. apply wf_node_eq.
                 repeat split; auto. apply skipn_nonempty; lia.
           ++ intros _. rewrite first_char_firstn by exact Hpos. exact Hfc.
      * intros [= <- <-]. split; [|reflexivity]. now repeat split.
Qed.

Lemma patricia_add_internal_wf cur :
  forall b key ret cur',
    wf_at b cur ->
    patricia_add_internal b cur key = Ret (ret, cur') ->
    wf_at b cur' /\
    (b = false -> first_char (node_key cur') = first_char (node_key cur)).
Proof. exact (fun b => patricia_add_internal_alloc_wf cur [] b). Qed.

(** * Insertion when no allocation fails *)

Lemma no_failure_hd mem : no_failure mem -> hd true mem = true.
Proof.
  destruct mem as [|ok mem]; [reflexivity|]. intros H. apply H. now left.
Qed.

Lemma no_failure_tl mem : no_failure mem -> no_failure (tl mem).
Proof.
  destruct mem as [|ok mem]; [auto|]. intros H b Hb. apply H. now right.
Qed.

Lemma patricia_add_internal_no_failure cur :
  forall mem b key,
    no_failure mem ->
    patricia_add_internal_alloc mem b cur key
    = patricia_add_internal b cur key.
Proof.
  induction cur as [k cs IH] using patricia_node_ind.
  intros mem b key Hmem.
  rewrite patricia_add_internal_alloc_eq, patricia_add_internal_eq.
  cbv zeta.
  rewrite (no_failure_hd mem Hmem).
  rewrite (no_failure_hd (tl mem) (no_failure_tl mem Hmem)).
  destruct (descend _ _ _ _); [|reflexivity].
  destruct (substring _ _ _) as [new_key|]; [|reflexivity].
  destruct (find_child _ cs) as [[[pre x] post]|] eqn:Hf; [|reflexivity].
  apply find_child_some in Hf. destruct Hf as (-> & _ & _).
  rewrite Forall_app in IH. destruct IH as [_ IHx].
  apply Forall_inv in IHx. now rewrite IHx.
Qed.

(** * Deletion keeps nodes well formed *)

Lemma patricia_delete_internal_key cur :
  forall b key,
    node_key (snd (patricia_delete_internal b cur key)) = node_key cur.
Proof.
  destruct cur as [k cs]. intros b key.
  rewrite patricia_delete_internal_eq. cbv zeta.
  destruct (descend _ _ _ _); [|reflexivity].
  destruct (substring _ _ _); [|reflexivity].
  destruct (find_child _ _) as [[[pre x] post]|]; [|reflexivity].
  destruct (strcmp _ _ =? 0)%Z; reflexivity.
Qed.

Lemma patricia_delete_internal_wf cur :
  forall b key,
    wf_at b cur -> wf_at b (snd (patricia_delete_internal b cur key)).
Proof.
  induction cur as [k cs IH] using patricia_node_ind.
  intros b key Hwf. rewrite patricia_delete_internal_eq. cbv zeta.
  destruct (descend _ _ _ _); [|exact Hwf].
  destruct (substring _ _ _) as [new_key|]; [|exact Hwf].
  destruct (find_child _ _) as [[[pre x] post]|] eqn:Hf; [|exact Hwf].
  apply find_child_some in Hf. destruct Hf as (-> & Hx & Hpre).
  destruct Hwf as (Hk & Hsib & Hall). cbn [node_key node_children] in *.
  rewrite Forall_app in IH, Hall. destruct IH as [_ IHx].
  destruct Hall as [Hall1 Hall2].
  inversion IHx as [|? ? IHx' _]; subst.
  inversion Hall2 as [|? ? Hwx Hall3]; subst.
  destruct (strcmp _ _ =? 0)%Z; cbn [snd]; split; auto;
    cbn [node_children]; split.
  - now apply siblings_remove in Hsib.
  - rewrite Forall_app. now split.
  - apply siblings_replace with (x := x); [exact Hsib|].
    apply lead_first_char. now rewrite patricia_delete_internal_key.
  - rewrite Forall_app. split; [exact Hall1|].
    constructor; [|exact Hall3].
    apply wf_at_false. apply IHx'. now apply wf_at_false.
Qed.

(** * Every reachable tree is well formed *)

Lemma reachable_wf t : reachable t -> wf_at true (root t).
Proof.
  induction 1 as [t Hinit | t key ret t' Hr IH Hadd | t key ret t' Hr IH Hdel].
  - injection Hinit as <-. simpl. repeat split; constructor.
  - destruct key as [k|]; simpl in Hadd.
    + destruct (patricia_add_internal true (root t) k) as [[r n]|] eqn:E;
        [|discriminate].
      simpl in Hadd. injection Hadd as _ <-. simpl.
      now apply (patricia_add_internal_wf (root t) true k r n IH).
    + now injection Hadd as _ <-.
  - destruct key as [k|]; simpl in Hdel.
    + pose proof (patricia_delete_internal_wf (root t) true k IH) as Hw.
      destruct (patricia_delete_internal true (root t) k) as [r n].
      now injection Hdel as _ <-.
    + now injection Hdel as _ <-.
Qed.

Lemma reachable_root_key t : reachable t -> node_key (root t) = [].
Proof. intros H. now destruct (reachable_wf t H). Qed.

Lemma wf_at_node_in b m n :
  wf_at b m -> node_in n m -> n = m \/ wf_node n.
Proof.
  intros Hwf Hin. revert b Hwf.
  induction Hin as [|c m Hc Hin IH]; intros b Hwf; [now left|].
  right. destruct Hwf as (_ & _ & Hall).
  rewrite Forall_forall in Hall. specialize (Hall c Hc).
  destruct (IH false) as [->|H]; auto. now apply wf_at_false.
Qed.

Lemma node_in_siblings b m n :
  wf_at b m -> node_in n m ->
  siblings_ok (node_children n) /\ Forall wf_node (node_children n).
Proof.
  intros Hwf Hin. destruct (wf_at_node_in b m n Hwf Hin) as [->|H].
  - destruct Hwf as (_ & ? & ?). now split.
  - destruct n as [k cs]. apply wf_node_eq in H. simpl. tauto.
Qed.

(** ** What well-formed siblings look like from outside *)

Lemma is_prefix_first_char a b :
  a <> [] -> is_prefix a b -> first_char a = first_char b.
Proof. intros Ha [s ->]. now rewrite first_char_app. Qed.

Lemma lead_lt_facts a b :
  node_key a <> [] -> node_key b <> [] -> lead a < lead b ->
  (strcmp (node_key a) (node_key b) < 0)%Z /\
  first_char (node_key a) <> first_char (node_key b) /\
  ~ is_prefix (node_key a) (node_key b) /\
  ~ is_prefix (node_key b) (node_key a).
Proof.
  intros Ha Hb Hlt.
  assert (first_char (node_key a) <> first_char (node_key b)) as Hne.
  { intros E. apply lead_first_char in E. lia. }
  repeat split; auto.
  - apply (strcmp_lead a b Ha Hb); auto.
  - intros Hp. now apply is_prefix_first_char in Hp.
  - intros Hp. apply is_prefix_first_char in Hp; auto.
Qed.

Lemma siblings_ok_facts cs :
  siblings_ok cs -> Forall wf_node cs ->
  ascending cs /\ leading_bytes_distinct cs /\ prefix_free cs.
Proof.
  intros Hs Hall. apply wf_children_nonempty in Hall.
  unfold ascending, leading_bytes_distinct, prefix_free.
  induction Hs as [|a l Hs IH Hf].
  - repeat split; constructor.
  - inversion Hall as [|? ? Ha Hl]; subst.
    destruct (IH Hl) as (I1 & (_ & I2) & I3).
    assert (Forall (fun b =>
              (strcmp (node_key a) (node_key b) < 0)%Z /\
              first_char (node_key a) <> first_char (node_key b) /\
              ~ is_prefix (node_key a) (node_key b) /\
              ~ is_prefix (node_key b) (node_key a)) l) as Hfacts.
    { rewrite Forall_forall in *. intros b Hb.
      apply lead_lt_facts; auto. }
    repeat split.
    + constructor; [exact I1|]. revert Hfacts. apply Forall_impl. tauto.
    + exact Hall.
    + simpl. constructor; [|exact I2].
      rewrite in_map_iff. intros (b & E & Hb).
      rewrite Forall_forall in Hfacts. destruct (Hfacts b Hb) as (_ & N & _).
      congruence.
    + constructor; [|exact I3]. revert Hfacts. apply Forall_impl. tauto.
Qed.

Lemma add_keys_reachable ks :
  forall t t', reachable t -> add_keys t ks = Some t' -> reachable t'.
Proof.
  induction ks as [|k ks IH]; cbn [add_keys]; intros t t' Hr H.
  - now injection H as <-.
  - destruct (patricia_add (Some t) (Some k)) as [[r [t1|]]|] eqn:E;
      try discriminate.
    apply (IH t1); [|exact H].
    now apply (reachable_add t (Some k) r t1).
Qed.

Lemma tree_of_keys_reachable ks t :
  tree_of_keys ks = Some t -> reachable t.
Proof.
  unfold tree_of_keys. destruct patricia_init as [t0|] eqn:E; [|discriminate].
  apply add_keys_reachable. now apply reachable_init.
Qed.

(** * Lookup after insertion *)

Lemma lookup_fragment_itself k cs :
  k <> [] -> patricia_lookup_internal false (Node k cs) k = 1%Z.
Proof.
  intros Hk. rewrite patricia_lookup_internal_eq. cbv zeta.
  rewrite common_prefix_refl.
  assert (descend false (length k) k k = false) as ->.
  { apply descend_false. repeat split; [|lia].
    destruct k; [congruence | simpl; lia]. }
  unfold strlen. now rewrite Nat.eqb_refl.
Qed.

Lemma find_child_add_child_scan c leaf cs :
  Forall (starts_other c) cs -> first_char (node_key leaf) = c ->
  exists pre post,
    find_child c (add_child_scan leaf cs) = Some (pre, leaf, post).
Proof.
  intros Hcs Hleaf. induction Hcs as [|n next Hn Hnext IH]; simpl.
  - rewrite Hleaf, same_char_refl. now exists [], [].
  - destruct (strcmp (node_key leaf) (node_key n) <? 0)%Z; simpl.
    + rewrite Hleaf, same_char_refl. now exists [], (n :: next).
    + destruct (same_char_spec (first_char (node_key n)) c) as [E|_];
        [contradiction|].
      destruct IH as (pre & post & ->). now exists (n :: pre), post.
Qed.

Lemma patricia_add_internal_lookup cur :
  forall b key cur',
    wf_at b cur ->
    patricia_add_internal b cur key = Ret (0%Z, cur') ->
    patricia_lookup_internal b cur' key = 1%Z.
Proof.
  induction cur as [k cs IH] using patricia_node_ind.
  intros b key cur' Hwf Hadd.
  pose proof (patricia_add_internal_wf (Node k cs) b key 0%Z cur' Hwf Hadd)
    as [Hwf' _].
  revert Hadd. rewrite patricia_add_internal_eq. cbv zeta.
  pose proof (common_prefix_le_l key k) as Hlk.
  pose proof (common_prefix_le_r key k) as Hlr.
  destruct Hwf as (Hk & Hsib & Hall). cbn [node_key node_children] in *.
  destruct (descend b (common_prefix_loop key k) key k) eqn:Hd.
  - destruct (substring key _ _) as [new_key|] eqn:Hs; [|discriminate].
    assert (b = true -> k = []) as Hroot by (intros ->; exact Hk).
    destruct (descend_new_key b key k new_key Hroot Hd Hs)
      as (_ & Hnk & Hkey).
    destruct (find_child (first_char new_key) cs)
      as [[[pre x] post]|] eqn:Hf.
    + apply find_child_some in Hf. destruct Hf as (-> & Hx & Hpre).
      destruct (patricia_add_internal false x new_key) as [[r x']|] eqn:Hadd;
        [|discriminate].
      cbn [bind]. destruct (Z.eqb_spec r 0) as [->|]; [|discriminate].
      intros [= <-].
      rewrite Forall_app in IH, Hall. destruct IH as [_ IHx].
      destruct Hall as [_ Hall2].
      inversion IHx as [|? ? IHx' _]; subst.
      inversion Hall2 as [|? ? Hwx _]; subst.
      apply wf_at_false in Hwx.
      destruct (patricia_add_internal_wf x false new_key 0%Z x' Hwx Hadd)
        as [_ Hfc].
      rewrite patricia_lookup_internal_eq. cbv zeta. rewrite Hd, Hs.
      rewrite find_child_here; auto.
      rewrite Hfc by reflexivity. exact Hx.
    + unfold patricia_node_init. rewrite patricia_add_child_node_scan.
      intros [= <-]. apply find_child_none in Hf.
      rewrite patricia_lookup_internal_eq. cbv zeta. rewrite Hd, Hs.
      destruct (find_child_add_child_scan (first_char new_key)
                  (Node new_key (list_create patricia_node)) cs Hf eq_refl)
        as (pre & post & ->).
      now apply lookup_fragment_itself.
  - apply descend_false in Hd. destruct Hd as (-> & Hpos & Hcase).
    destruct (common_prefix_pos_inv key k Hpos) as (Hkey & _ & Hfc).
    destruct (Nat.ltb_spec (common_prefix_loop key k) (strlen key))
      as [Hlt|Hge].
    + unfold strlen in Hlt.
      rewrite !substring_tail, !substring_head by (auto; lia).
      cbn [bind set_children rewrite_node patricia_node_init list_create].
      rewrite !patricia_add_child_node_scan.
      match goal with
      | |- Ret (_, Node _ ?l) = _ -> _ => remember l as l' eqn:El
      end.
      intros [= <-]. rewrite patricia_lookup_internal_eq. cbv zeta.
      rewrite common_prefix_of_firstn.
      assert (descend false (common_prefix_loop key k) key
                (firstn (common_prefix_loop key k) key) = true) as ->.
      { apply descend_true. right; right. unfold strlen.
        rewrite length_firstn. lia. }
      rewrite substring_tail by (auto; lia). subst l'. unfold list_create.
      destruct (find_child_add_child_scan
                  (first_char (skipn (common_prefix_loop key k) key))
                  (Node (skipn (common_prefix_loop key k) key) [])
                  (add_child_scan
                     (Node (skipn (common_prefix_loop key k) k) cs) []))
        as (pre & post & ->); [| reflexivity |].
      * simpl. repeat constructor. unfold starts_other. simpl.
        intros E. symmetry in E. revert E.
        apply common_prefix_diverge; lia.
      * apply lookup_fragment_itself. apply skipn_nonempty; lia.
    + destruct (Nat.eqb_spec (common_prefix_loop key k) (strlen key))
        as [He|Hne]; [|unfold strlen in *; lia].
      unfold strlen in *.
      destruct (Nat.eqb_spec (common_prefix_loop key k) (length k))
        as [He'|Hne'].
      * intros [= <-]. rewrite patricia_lookup_internal_eq. cbv zeta.
        assert (descend false (common_prefix_loop key k) key k = false) as ->.
        { apply descend_false. repeat split; auto; lia. }
        unfold strlen. rewrite He'. now rewrite Nat.eqb_refl.
      * rewrite !substring_tail, !substring_head by (auto; lia).
        cbn [bind set_children rewrite_node patricia_node_init list_create].
        rewrite !patricia_add_child_node_scan.
        intros [= <-]. rewrite He, firstn_all.
        now apply lookup_fragment_itself.
Qed.

(** C1 at failing inputs.  [patricia_add_internal] tests the result of none
    of its calls of [patricia_node_init].  When the leaf for "cat" cannot be
    allocated, [patricia_add] into a new tree reports 0 and leaves the tree
    empty; when the leaf for "car" cannot be allocated, [patricia_add] into
    the tree of "cat" reports 0 after splitting "cat" into "ca" and "t".
    In both cases [patricia_lookup] does not find the key afterwards.
    When no call fails, a key whose [patricia_add] into a reachable tree
    has reported 0 is found. *)
Theorem add_reports_success_without_inserting :
  (patricia_add_alloc [false] (Some tree_empty) (Some (cstr "cat"))
   = Ret (0%Z, Some tree_empty) /\
   patricia_lookup (Some tree_empty) (Some (cstr "cat")) = Ret 0%Z) /\
  (patricia_add_alloc [true; false] (Some tree_cat) (Some (cstr "car"))
   = Ret (0%Z,
          Some (Tree (Node [] [Node (cstr "ca") [Node (cstr "t") []]]))) /\
   patricia_lookup
     (Some (Tree (Node [] [Node (cstr "ca") [Node (cstr "t") []]])))
     (Some (cstr "car")) = Ret 0%Z) /\
  (forall mem t k t',
      reachable t -> no_failure mem ->
      patricia_add_alloc mem (Some t) (Some k) = Ret (0%Z, Some t') ->
      patricia_lookup (Some t') (Some k) = Ret 1%Z).
Proof.
  split; [split; reflexivity|]. split; [split; reflexivity|].
  intros mem t k t' Hr Hmem Hadd. apply reachable_wf in Hr.
  cbn [patricia_add_alloc] in Hadd.
  rewrite (patricia_add_internal_no_failure (root t) mem true k Hmem)
    in Hadd.
  destruct (patricia_add_internal true (root t) k) as [[r n]|] eqn:E;
    [|discriminate].
  cbn [bind] in Hadd. injection Hadd as -> <-. simpl. f_equal.
  now apply (patricia_add_internal_lookup (root t) true k n).
Qed.

(** * Deletion after insertion *)

(** Where the descent goes on, a part of the key is left. *)
Lemma descend_lt b key k :
  (b = true -> k = []) -> key <> [] ->
  descend b (common_prefix_loop key k) key k = true ->
  common_prefix_loop key k < length key.
Proof.
  intros Hroot Hkey Hd.
  assert (0 < length key) by (destruct key; simpl; [congruence | lia]).
  apply descend_true in Hd. destruct Hd as [Hb | [H0 | (_ & Hlt & _)]].
  - rewrite (Hroot Hb), common_prefix_nil_r. assumption.
  - now rewrite H0.
  - assumption.
Qed.

Lemma descend_app b key k s :
  (b = true -> k = []) -> key <> [] ->
  descend b (common_prefix_loop key k) key k = true ->
  common_prefix_loop (key ++ s) k = common_prefix_loop key k /\
  descend b (common_prefix_loop key k) (key ++ s) k = true /\
  substring (key ++ s) (common_prefix_loop key k)
    (strlen (key ++ s) - common_prefix_loop key k)
  = Some (skipn (common_prefix_loop key k) key ++ s).
Proof.
  intros Hroot Hkey Hd.
  pose proof (descend_lt b key k Hroot Hkey Hd) as Hlt.
  split; [now apply common_prefix_app|]. split.
  - apply descend_true in Hd. apply descend_true.
    rewrite length_app. intuition lia.
  - rewrite substring_tail.
    + f_equal. rewrite skipn_app.
      replace (common_prefix_loop key k - length key) with 0 by lia.
      reflexivity.
    + destruct key; [congruence | discriminate].
    + rewrite length_app. lia.
Qed.

Lemma patricia_delete_internal_lookup cur :
  forall b key,
    wf_at b cur ->
    patricia_lookup_internal b cur key = 1%Z ->
    b = true \/ key <> node_key cur ->
    fst (patricia_delete_internal b cur key) = 0%Z /\
    forall s,
      patricia_lookup_internal b
        (snd (patricia_delete_internal b cur key)) (key ++ s) = 0%Z.
Proof.
  induction cur as [k cs IH] using patricia_node_ind.
  intros b key Hwf Hlook Hnot. revert Hlook.
  rewrite patricia_lookup_internal_eq, patricia_delete_internal_eq. cbv zeta.
  pose proof (common_prefix_le_l key k) as Hlk.
  destruct Hwf as (Hk & Hsib & Hall). cbn [node_key node_children] in *.
  destruct (descend b (common_prefix_loop key k) key k) eqn:Hd.
  - destruct (substring key _ _) as [new_key|] eqn:Hs; [|discriminate].
    assert (b = true -> k = []) as Hroot by (intros ->; exact Hk).
    destruct (descend_new_key b key k new_key Hroot Hd Hs)
      as (Enk & Hnk & Hkey).
    destruct (find_child (first_char new_key) cs)
      as [[[pre x] post]|] eqn:Hf; [|discriminate].
    apply find_child_some in Hf. destruct Hf as (Ecs & Hx & Hpre).
    rewrite Ecs in IH, Hall, Hsib.
    rewrite Forall_app in IH, Hall. destruct IH as [_ IHx].
    destruct Hall as [_ Hall2].
    apply Forall_inv in IHx. apply Forall_inv in Hall2.
    apply wf_at_false in Hall2.
    intros Hlook.
    assert (forall s cs',
      patricia_lookup_internal b (Node k cs') (key ++ s) =
      match find_child (first_char new_key) cs' with
      | None => 0%Z
      | Some (_, y, _) => patricia_lookup_internal false y (new_key ++ s)
      end) as Hdown.
    { intros s cs'. rewrite patricia_lookup_internal_eq. cbv zeta.
      destruct (descend_app b key k s Hroot Hkey Hd) as (-> & -> & ->).
      rewrite <- Enk. now rewrite first_char_app. }
    destruct (Z.eqb_spec (strcmp (node_key x) new_key) 0) as [He|Hne];
      cbn [fst snd].
    + split; [reflexivity|]. intros s. rewrite Hdown.
      assert (find_child (first_char new_key) (pre ++ post) = None) as ->;
        [|reflexivity].
      apply find_child_none. rewrite Forall_app. split; [exact Hpre|].
      rewrite <- Hx. now apply siblings_rest_other with (pre := pre).
    + assert (new_key <> node_key x) as Hdiff.
      { intros E. apply Hne. apply strcmp_eq. now symmetry. }
      destruct (IHx false new_key Hall2 Hlook (or_intror Hdiff))
        as [Hret Hgone].
      split; [exact Hret|]. intros s. rewrite Hdown.
      rewrite find_child_here; auto.
      now rewrite patricia_delete_internal_key.
  - apply descend_false in Hd. destruct Hd as (-> & Hpos & Hcase).
    destruct (Nat.eqb_spec (common_prefix_loop key k) (strlen k))
      as [He|]; [|discriminate].
    intros _. exfalso. unfold strlen in He.
    destruct Hnot as [|Hnot]; [discriminate|]. apply Hnot.
    apply common_prefix_full; lia.
Qed.

(** C2. In a reachable tree, once [patricia_add] has stored a key and
    [patricia_delete] has then been called for it, the deletion reports
    success and [patricia_lookup] answers 0 for the key and for every key
    that extends it: the whole family below the key is gone. *)
Theorem add_delete_then_lookup t k t1 ret t2 :
  reachable t ->
  patricia_add (Some t) (Some k) = Ret (0%Z, Some t1) ->
  patricia_delete (Some t1) (Some k) = (ret, Some t2) ->
  ret = 0%Z /\
  patricia_lookup (Some t2) (Some k) = Ret 0%Z /\
  forall k', is_prefix k k' ->
             patricia_lookup (Some t2) (Some k') = Ret 0%Z.
Proof.
  intros Hr Hadd Hdel.
  assert (reachable t1) as Hr1
    by exact (reachable_add t (Some k) 0%Z t1 Hr Hadd).
  apply reachable_wf in Hr, Hr1.
  simpl in Hadd.
  destruct (patricia_add_internal true (root t) k) as [[r n]|] eqn:E;
    [|discriminate].
  simpl in Hadd. injection Hadd as -> <-. simpl in Hr1, Hdel.
  pose proof (patricia_add_internal_lookup (root t) true k n Hr E) as Hlook.
  destruct (patricia_delete_internal_lookup n true k Hr1 Hlook
              (or_introl eq_refl)) as [Hret Hgone].
  destruct (patricia_delete_internal true n k) as [r' n'].
  injection Hdel as <- <-. cbn [fst snd] in *.
  split; [exact Hret|]. split.
  - simpl. f_equal. specialize (Hgone []). now rewrite app_nil_r in Hgone.
  - intros k' [s ->]. simpl. f_equal. apply Hgone.
Qed.

(** * Insertion of a key that is present *)

Lemma patricia_add_internal_present cur :
  forall b key,
    patricia_lookup_internal b cur key = 1%Z ->
    patricia_add_internal b cur key = Ret (0%Z, cur).
Proof.
  induction cur as [k cs IH] using patricia_node_ind.
  intros b key.
  rewrite patricia_lookup_internal_eq, patricia_add_internal_eq. cbv zeta.
  pose proof (common_prefix_le_l key k) as Hlk.
  destruct (descend b (common_prefix_loop key k) key k) eqn:Hd.
  - destruct (substring key _ _) as [new_key|]; [|discriminate].
    destruct (find_child (first_char new_key) cs)
      as [[[pre x] post]|] eqn:Hf; [|discriminate].
    apply find_child_some in Hf. destruct Hf as (-> & _ & _).
    rewrite Forall_app in IH. destruct IH as [_ IHx].
    apply Forall_inv in IHx. intros Hlook.
    now rewrite (IHx false new_key Hlook).
  - apply descend_false in Hd. destruct Hd as (-> & Hpos & Hcase).
    unfold strlen.
    destruct (Nat.eqb_spec (common_prefix_loop key k) (length k))
      as [He|]; [|discriminate].
    intros _.
    destruct (Nat.ltb_spec (common_prefix_loop key k) (length key)); [lia|].
    destruct (Nat.eqb_spec (common_prefix_loop key k) (length key)); [|lia].
    reflexivity.
Qed.

(** C7. Adding a key that [patricia_lookup] already finds reports success
    and returns the tree as it was: the lookup still answers 1 and both
    enumerations write what they wrote before the call, so no token is
    added for the key. *)
Theorem add_present_is_noop t k :
  patricia_lookup (Some t) (Some k) = Ret 1%Z ->
  exists t',
    patricia_add (Some t) (Some k) = Ret (0%Z, Some t') /\
    t' = t /\
    patricia_lookup (Some t') (Some k) = Ret 1%Z /\
    (forall p buf,
        patricia_lookup_prefix_full (Some t') p buf
        = patricia_lookup_prefix_full (Some t) p buf) /\
    (forall p buf,
        patricia_lookup_prefix_partial (Some t') p buf
        = patricia_lookup_prefix_partial (Some t) p buf).
Proof.
  intros Hlook. exists t. simpl in Hlook. injection Hlook as Hlook.
  split; [|now repeat split; simpl; f_equal].
  simpl. rewrite (patricia_add_internal_present (root t) true k Hlook).
  simpl. now destruct t.
Qed.

(** * The status of an insertion *)

Lemma patricia_add_internal_succeeds cur :
  forall b key,
    (b = true -> node_key cur = []) -> key <> [] ->
    exists cur', patricia_add_internal b cur key = Ret (0%Z, cur').
Proof.
  induction cur as [k cs IH] using patricia_node_ind.
  intros b key Hroot Hkey. cbn [node_key] in Hroot.
  rewrite patricia_add_internal_eq. cbv zeta.
  pose proof (common_prefix_le_l key k) as Hlk.
  pose proof (common_prefix_le_r key k) as Hlr.
  destruct (descend b (common_prefix_loop key k) key k) eqn:Hd.
  - pose proof (descend_lt b key k Hroot Hkey Hd) as Hlt.
    rewrite substring_tail by (auto; lia).
    destruct (find_child _ cs) as [[[pre x] post]|] eqn:Hf.
    + apply find_child_some in Hf. destruct Hf as (-> & _ & _).
      rewrite Forall_app in IH. destruct IH as [_ IHx].
      apply Forall_inv in IHx.
      destruct (IHx false (skipn (common_prefix_loop key k) key))
        as [x' ->]; [discriminate | now apply skipn_nonempty |].
      simpl. eauto.
    + eauto.
  - apply descend_false in Hd. destruct Hd as (-> & Hpos & Hcase).
    destruct (common_prefix_pos_inv key k Hpos) as (_ & Hk & _).
    rewrite !substring_tail, !substring_head by (auto; lia).
    cbn [bind set_children rewrite_node patricia_node_init].
    destruct (_ <? _); [eauto|].
    destruct (_ =? strlen key); [|eauto].
    destruct (_ =? strlen k); eauto.
Qed.

(** C9, as the code has it.  In a reachable tree [patricia_add] reports
    success for every non-empty key, and reports failure, leaving the tree
    as it was, for the empty key, which [substring] refuses. *)
Theorem add_status t k :
  reachable t ->
  (k <> [] ->
   exists t', patricia_add (Some t) (Some k) = Ret (0%Z, Some t')) /\
  (k = [] ->
   patricia_add (Some t) (Some k) = Ret ((-1)%Z, Some t)).
Proof.
  intros Hr. pose proof (reachable_root_key t Hr) as Hroot. split.
  - intros Hk.
    destruct (patricia_add_internal_succeeds (root t) true k
                (fun _ => Hroot) Hk) as [n Hn].
    exists (Tree n). simpl. now rewrite Hn.
  - intros ->. destruct t as [[rk cs]]. simpl in Hroot. subst rk. reflexivity.
Qed.

(** C9 as stated fails: no allocation fails in this run, and the status is
    -1. *)
Lemma add_empty_key_reports_failure :
  patricia_add patricia_init (Some []) = Ret ((-1)%Z, patricia_init).
Proof. reflexivity. Qed.

(** * The invariants of sibling lists *)

(** C6. In every tree reachable from the empty tree by additions and
    deletions, the children of every node are strictly ascending for the
    byte-wise lexicographic comparison, no two of them share their leading
    byte, and none of their fragments is a prefix of another. *)
Theorem reachable_siblings_invariant t n :
  reachable t -> node_in n (root t) ->
  ascending (node_children n) /\
  leading_bytes_distinct (node_children n) /\
  prefix_free (node_children n).
Proof.
  intros Hr Hin. apply reachable_wf in Hr.
  destruct (node_in_siblings true (root t) n Hr Hin) as [Hs Hall].
  now apply siblings_ok_facts.
Qed.

(** * The examples of the specification, evaluated *)

Lemma tree_cat_reachable : reachable tree_cat.
Proof. now apply (tree_of_keys_reachable ["cat"%string]). Qed.

Lemma tree_cat_car_dog_reachable : reachable tree_cat_car_dog.
Proof. now apply (tree_of_keys_reachable ["cat"; "car"; "dog"]%string). Qed.

Lemma tree_xy_reachable : reachable tree_xy.
Proof. now apply (tree_of_keys_reachable ["xy"%string]). Qed.

(** C2 at work: "x" added to the tree of "xy", then deleted. *)
Lemma add_delete_then_lookup_witness :
  reachable tree_xy /\
  patricia_add (Some tree_xy) (Some (cstr "x"))
  = Ret (0%Z, Some tree_x_xy) /\
  patricia_delete (Some tree_x_xy) (Some (cstr "x"))
  = (0%Z, Some tree_empty) /\
  patricia_lookup (Some tree_empty) (Some (cstr "x")) = Ret 0%Z /\
  forall k', is_prefix (cstr "x") k' ->
             patricia_lookup (Some tree_empty) (Some k') = Ret 0%Z.
Proof.
  split; [exact tree_xy_reachable|]. split; [reflexivity|].
  split; [reflexivity|].
  apply (add_delete_then_lookup tree_xy (cstr "x") tree_x_xy 0%Z tree_empty).
  - exact tree_xy_reachable.
  - reflexivity.
  - reflexivity.
Defined.

(** C7 at work: "car" added again to the tree of "cat" and "car". *)
Lemma add_present_is_noop_witness :
  patricia_lookup (Some tree_cat_car) (Some (cstr "car")) = Ret 1%Z /\
  patricia_add (Some tree_cat_car) (Some (cstr "car"))
  = Ret (0%Z, Some tree_cat_car).
Proof.
  split; [reflexivity|].
  destruct (add_present_is_noop tree_cat_car (cstr "car") eq_refl)
    as (t' & Hadd & -> & _).
  exact Hadd.
Defined.

(** C9 at work on the tree of "cat". *)
Lemma add_status_witness :
  reachable tree_cat /\
  (cstr "car" <> [] ->
   exists t', patricia_add (Some tree_cat) (Some (cstr "car"))
              = Ret (0%Z, Some t')) /\
  (cstr "car" = [] ->
   patricia_add (Some tree_cat) (Some (cstr "car"))
   = Ret ((-1)%Z, Some tree_cat)).
Proof.
  split; [exact tree_cat_reachable|].
  apply (add_status tree_cat (cstr "car")). exact tree_cat_reachable.
Defined.

(** C6 at work on the node "ca" of the tree of "cat", "car", "dog". *)
Lemma reachable_siblings_invariant_witness :
  reachable tree_cat_car_dog /\
  node_in node_ca (root tree_cat_car_dog) /\
  ascending (node_children node_ca) /\
  leading_bytes_distinct (node_children node_ca) /\
  prefix_free (node_children node_ca).
Proof.
  assert (node_in node_ca (root tree_cat_car_dog)) as Hin.
  { apply node_in_child with (c := node_ca); [now left | constructor]. }
  split; [exact tree_cat_car_dog_reachable|]. split; [exact Hin|].
  apply (reachable_siblings_invariant tree_cat_car_dog node_ca).
  - exact tree_cat_car_dog_reachable.
  - exact Hin.
Defined.

(** C3, as the code has it.  With "cat", "car" and "dog" inserted into a new
    tree, the full enumeration below "ca" writes the two tokens "car" and
    "cat", the lookup of "cat" answers 1, and so does the lookup of "ca",
    the fragment of the node the two keys share. *)
Theorem cat_car_dog_example :
  tree_of_keys ["cat"; "car"; "dog"]%string = Some tree_cat_car_dog /\
  (exists out,
     patricia_lookup_prefix_full (Some tree_cat_car_dog)
       (Some (cstr "ca")) (Some []) = Ret (0%Z, Some out) /\
     tokens out = [cstr "car"; cstr "cat"] /\
     forall tok, In tok (tokens out) <-> tok = cstr "cat" \/ tok = cstr "car")
  /\
  patricia_lookup (Some tree_cat_car_dog) (Some (cstr "ca")) = Ret 1%Z /\
  patricia_lookup (Some tree_cat_car_dog) (Some (cstr "cat")) = Ret 1%Z.
Proof.
  split; [reflexivity|]. split; [|split; reflexivity].
  exists (cstr "car cat "). split; [reflexivity|]. split; [reflexivity|].
  intros tok. simpl. intuition congruence.
Qed.

(** C3 as stated fails: the lookup of "ca" answers 1, not 0. *)
Lemma lookup_ca_is_found :
  patricia_lookup (tree_of_keys ["cat"; "car"; "dog"]%string)
    (Some (cstr "ca")) = Ret 1%Z /\
  patricia_lookup (tree_of_keys ["cat"; "car"; "dog"]%string)
    (Some (cstr "ca")) <> Ret 0%Z.
Proof. split; [reflexivity | discriminate]. Qed.

(** C4 at a failing input.  With "xaya" and "xayb" stored, the prefix
    "xaya" resolves to the leaf of fragment "a" below the node "xay"; the
    part of the prefix the walk starts from is cut at the first "a" of the
    prefix, so that the token written is "xa", which is not a stored key
    and does not begin with the prefix. *)
Theorem full_enumeration_cuts_prefix_short :
  patricia_lookup_prefix_full (tree_of_keys ["xaya"; "xayb"]%string)
    (Some (cstr "xaya")) (Some [])
  = Ret (0%Z, Some (cstr "xa ")) /\
  patricia_lookup (tree_of_keys ["xaya"; "xayb"]%string)
    (Some (cstr "xaya")) = Ret 1%Z /\
  patricia_lookup (tree_of_keys ["xaya"; "xayb"]%string)
    (Some (cstr "xa")) = Ret 0%Z.
Proof. repeat split. Qed.

(** C8 at the failing input.  [patricia_lookup] dereferences a [NULL] tree
    before any check; a [NULL] key alone is answered 0. *)
Theorem lookup_null_arguments :
  (forall key, patricia_lookup None key = Fault) /\
  (forall t, patricia_lookup (Some t) None = Ret 0%Z).
Proof. split; reflexivity. Qed.

(** * The enumerations *)

Ltac inv_bind H :=
  match type of H with
  | bind ?m _ = Ret _ =>
      let E := fresh "E" in
      destruct m eqn:E; [cbn [bind] in H | discriminate H]
  end.

Lemma store_ret s s' : store s = Ret s' -> s' = s.
Proof. unfold store. destruct (_ <? _); [congruence | discriminate]. Qed.

Lemma firstn_length_self (s : cstring) : firstn (strlen s) s = s.
Proof. apply firstn_all. Qed.

Lemma join_tokens_app a b :
  join_tokens (a ++ b) = join_tokens a ++ join_tokens b.
Proof.
  induction a as [|tok a IH]; simpl; [reflexivity|].
  now rewrite IH, <- !app_assoc.
Qed.

Lemma leaf_paths_eq k cs :
  leaf_paths (Node k cs) =
  if list_empty cs then [k] else map (app k) (flat_map leaf_paths cs).
Proof.
  destruct cs; reflexivity.
Qed.

(** ** Full enumeration *)

Lemma full_walk_spec cs :
  Forall (fun c => forall res buf r' out,
            patricia_lookup_prefix_full_internal c res buf = Ret (r', out) ->
            r' = res /\
            out = buf ++ join_tokens (map (app res) (leaf_paths c))) cs ->
  forall res buf r' out,
    (fix walk (cs : list patricia_node) (res res_list : cstring)
       : outcome (cstring * cstring) :=
       match cs with
       | [] => Ret (res, res_list)
       | child :: next =>
           '(res, res_list) <-
             patricia_lookup_prefix_full_internal child res res_list ;;
           walk next res res_list
       end) cs res buf = Ret (r', out) ->
    r' = res /\
    out = buf ++ join_tokens (map (app res) (flat_map leaf_paths cs)).
Proof.
  induction 1 as [|c cs Hc Hcs IH]; intros res buf r' out H.
  - injection H as <- <-. simpl. now rewrite app_nil_r.
  - inv_bind H. destruct a as [r1 b1].
    destruct (Hc _ _ _ _ E) as [-> ->].
    destruct (IH _ _ _ _ H) as [-> ->].
    split; [reflexivity|]. simpl.
    now rewrite map_app, join_tokens_app, app_assoc.
Qed.

Lemma patricia_lookup_prefix_full_internal_spec n :
  forall res buf r' out,
    patricia_lookup_prefix_full_internal n res buf = Ret (r', out) ->
    r' = res /\ out = buf ++ join_tokens (map (app res) (leaf_paths n)).
Proof.
  induction n as [k cs IH] using patricia_node_ind.
  intros res buf r' out H. rewrite leaf_paths_eq.
  cbn [patricia_lookup_prefix_full_internal] in H.
  inv_bind H. apply store_ret in E. subst a.
  inv_bind H. apply store_ret in E. subst a.
  inv_bind H. destruct a as [r1 b1].
  destruct (full_walk_spec cs IH _ _ _ _ E) as [-> ->].
  injection H as <- <-. rewrite !firstn_length_self.
  split; [reflexivity|].
  destruct cs as [|c cs]; cbn [list_empty].
  - simpl. now rewrite !app_nil_r, <- !app_assoc.
  - rewrite map_map. f_equal. f_equal. apply map_ext.
    intros s. now rewrite app_assoc.
Qed.

(** ** Distinct paths below a well-formed node *)

Lemma NoDup_map_app (k : cstring) (l : list cstring) :
  NoDup l -> NoDup (map (app k) l).
Proof.
  induction 1 as [|x l Hx Hl IH]; simpl; constructor; [|exact IH].
  rewrite in_map_iff. intros (y & E & Hy).
  apply app_inv_head in E. now subst y.
Qed.

Lemma NoDup_flat_map_sorted (A B : Type) (R : A -> A -> Prop)
  (f : A -> list B) (l : list A) :
  StronglySorted R l ->
  Forall (fun a => NoDup (f a)) l ->
  (forall a b y, In a l -> In b l -> R a b ->
                 In y (f a) -> In y (f b) -> False) ->
  NoDup (flat_map f l).
Proof.
  induction 1 as [|a l Hs IH Hf]; intros Hnd Hdis; simpl; [constructor|].
  inversion Hnd as [|? ? Ha Hl]; subst.
  apply NoDup_app; [exact Ha | |].
  - apply IH; [exact Hl|]. intros x y z Hx Hy. apply Hdis; now right.
  - intros y Hy Hin. apply in_flat_map in Hin. destruct Hin as (b & Hb & Hyb).
    rewrite Forall_forall in Hf.
    apply (Hdis a b y); auto; [now left | now right].
Qed.

Lemma leaf_paths_start n p :
  In p (leaf_paths n) -> exists s, p = node_key n ++ s.
Proof.
  destruct n as [k cs]. rewrite leaf_paths_eq.
  destruct (list_empty cs).
  - intros [<-|[]]. exists []. simpl. now rewrite app_nil_r.
  - rewrite in_map_iff. intros (s & <- & _). now exists s.
Qed.

Lemma wf_node_children c :
  wf_node c ->
  node_key c <> [] /\ siblings_ok (node_children c) /\
  Forall wf_node (node_children c).
Proof. destruct c as [k cs]. now rewrite wf_node_eq. Qed.

Lemma leaf_paths_NoDup n :
  siblings_ok (node_children n) -> Forall wf_node (node_children n) ->
  NoDup (leaf_paths n).
Proof.
  induction n as [k cs IH] using patricia_node_ind.
  cbn [node_children]. intros Hs Hall. rewrite leaf_paths_eq.
  destruct (list_empty cs); [repeat constructor; auto|].
  apply NoDup_map_app.
  apply NoDup_flat_map_sorted with (R := fun a b => lead a < lead b);
    [exact Hs | |].
  - rewrite Forall_forall in *. intros c Hc.
    destruct (wf_node_children c (Hall c Hc)) as (_ & ? & ?).
    now apply IH.
  - rewrite Forall_forall in Hall.
    intros a b y Ha Hb Hlt Hya Hyb.
    destruct (wf_node_children a (Hall a Ha)) as (Hka & _).
    destruct (wf_node_children b (Hall b Hb)) as (Hkb & _).
    apply leaf_paths_start in Hya, Hyb.
    destruct Hya as [sa ->]. destruct Hyb as [sb E].
    apply (f_equal first_char) in E.
    rewrite !first_char_app in E by assumption.
    apply lead_first_char in E. lia.
Qed.

(** ** Partial enumeration *)

Lemma partial_paths_eq k cs :
  partial_paths (Node k cs) =
  if list_empty cs then [[]] else flat_map child_paths cs.
Proof. destruct cs; reflexivity. Qed.

Lemma subseq_nil_l (A : Type) (l : list A) : subseq [] l.
Proof. induction l; constructor; assumption. Qed.

Lemma subseq_refl (A : Type) (l : list A) : subseq l l.
Proof. induction l; constructor; assumption. Qed.

Lemma subseq_app (A : Type) (a b c d : list A) :
  subseq a b -> subseq c d -> subseq (a ++ c) (b ++ d).
Proof.
  induction 1; simpl; intros Hcd;
    [exact Hcd | apply subseq_skip | apply subseq_take]; auto.
Qed.

Lemma subseq_In (A : Type) (a b : list A) x :
  subseq a b -> In x a -> In x b.
Proof.
  induction 1; simpl; auto.
  intros [?|?]; auto.
Qed.

Lemma subseq_NoDup (A : Type) (a b : list A) :
  subseq a b -> NoDup b -> NoDup a.
Proof.
  induction 1 as [|x a b Hs IH|x a b Hs IH]; intros Hb.
  - constructor.
  - inversion Hb; auto.
  - inversion Hb; subst. constructor; auto.
    intros Hx. now apply (subseq_In _ _ _ _ Hs) in Hx.
Qed.

Lemma append_token_ret res_list prefix res out :
  append_token res_list prefix res = Ret out ->
  exists dup,
    is_substring res_list (prefix ++ res) = Ret dup /\
    out = if dup then res_list
          else res_list ++ join_tokens [prefix ++ res].
Proof.
  unfold append_token. intros H.
  inv_bind H. apply store_ret in E. subst a.
  inv_bind H. apply store_ret in E. subst a.
  inv_bind H. injection H as <-. exists a. split; [reflexivity|].
  destruct a; [reflexivity|]. simpl.
  now rewrite app_nil_r, <- !app_assoc.
Qed.

Lemma append_token_subseq res_list prefix res out :
  append_token res_list prefix res = Ret out ->
  exists toks,
    out = res_list ++ join_tokens toks /\ subseq toks [prefix ++ res].
Proof.
  intros H. apply append_token_ret in H. destruct H as ([|] & _ & ->).
  - exists []. simpl. rewrite app_nil_r. split; [reflexivity|].
    apply subseq_nil_l.
  - exists [prefix ++ res]. split; [reflexivity | apply subseq_refl].
Qed.

Lemma partial_walk_spec prefix cs :
  Forall (partial_spec prefix) cs ->
  forall res rl r' out,
    (fix walk (cs : list patricia_node) (res res_list : cstring)
       : outcome (cstring * cstring) :=
       match cs with
       | [] => Ret (res, res_list)
       | child :: next =>
           let len := strlen res in
           prev_res <- store (firstn len res) ;;
           res <- store (res ++ node_key child) ;;
           delim <- patricia_key_has_delimiter (node_key child) ;;
           '(res, res_list) <-
             (if delim : bool then
                let res := removelast res in
                res_list <- append_token res_list prefix res ;;
                Ret ([], res_list)
              else
                patricia_lookup_prefix_partial_internal
                  child res res_list prefix) ;;
           let res := firstn len prev_res in
           walk next res res_list
       end) cs res rl = Ret (r', out) ->
    r' = res /\
    exists toks,
      out = rl ++ join_tokens toks /\
      subseq toks (map (fun s => prefix ++ res ++ s)
                     (flat_map child_paths cs)).
Proof.
  induction 1 as [|c cs Hc Hcs IH]; intros res rl r' out H.
  - injection H as <- <-. split; [reflexivity|]. exists [].
    simpl. rewrite app_nil_r. split; [reflexivity | constructor].
  - cbv zeta in H.
    inv_bind H. apply store_ret in E. subst a.
    inv_bind H. apply store_ret in E. subst a.
    inv_bind H. rename a into delim, E into Hdelim.
    inv_bind H. destruct a as [r1 rl1].
    rewrite !firstn_length_self in H.
    destruct (IH _ _ _ _ H) as (-> & toks2 & -> & Hsub2).
    split; [reflexivity|].
    assert (exists toks1,
               rl1 = rl ++ join_tokens toks1 /\
               subseq toks1
                 (map (fun s => prefix ++ res ++ s) (child_paths c)))
      as (toks1 & -> & Hsub1).
    { unfold child_paths. rewrite Hdelim. destruct delim.
      - inv_bind E. injection E as _ <-.
        apply append_token_subseq in E0.
        destruct E0 as (toks1 & -> & Hsub1).
        exists toks1. split; [reflexivity|].
        rewrite removelast_app in Hsub1; [exact Hsub1|].
        intros Hnil. rewrite Hnil in Hdelim. discriminate.
      - destruct (Hc _ _ _ _ E) as (_ & toks1 & -> & Hsub1).
        exists toks1. split; [reflexivity|].
        rewrite map_map.
        erewrite map_ext; [exact Hsub1|].
        intros s. simpl. now rewrite <- !app_assoc. }
    exists (toks1 ++ toks2). split.
    + now rewrite join_tokens_app, app_assoc.
    + simpl. rewrite map_app. now apply subseq_app.
Qed.

Lemma patricia_lookup_prefix_partial_internal_spec prefix n :
  partial_spec prefix n.
Proof.
  induction n as [k cs IH] using patricia_node_ind.
  intros res rl r' out H. rewrite partial_paths_eq.
  cbn [patricia_lookup_prefix_partial_internal] in H.
  inv_bind H. destruct a as [r1 rl1].
  destruct (partial_walk_spec prefix cs IH _ _ _ _ E)
    as (-> & toks & -> & Hsub).
  destruct cs as [|c cs]; cbn [list_empty] in *.
  - inv_bind H. injection H as <- <-. split; [reflexivity|].
    apply append_token_subseq in E0. destruct E0 as (toks' & -> & Hsub').
    inversion Hsub; subst. simpl. rewrite !app_nil_r in *.
    exists toks'. now split.
  - injection H as <- <-. split; [reflexivity|]. now exists toks.
Qed.

(** A candidate of a child starts like the fragment of the child, unless
    the fragment is the delimiter alone and the candidate is empty. *)
Lemma child_paths_start c p :
  node_key c <> [] -> In p (child_paths c) ->
  (p <> [] /\ first_char p = first_char (node_key c)) \/
  (p = [] /\ first_char (node_key c) = Some SLASH).
Proof.
  intros Hk. unfold child_paths.
  destruct (node_key c) as [|x k] eqn:Ek; [congruence|].
  cbn [patricia_key_has_delimiter].
  destruct (Ascii.eqb_spec (last (x :: k) x) SLASH) as [Hl|Hl].
  - intros [<-|[]]. destruct k as [|y k].
    + right. simpl in *. now subst x.
    + left. split; [discriminate | reflexivity].
  - rewrite in_map_iff. intros (s & <- & _). left.
    split; [discriminate | reflexivity].
Qed.

Lemma child_paths_NoDup c :
  NoDup (partial_paths c) -> NoDup (child_paths c).
Proof.
  intros H. unfold child_paths.
  destruct (patricia_key_has_delimiter (node_key c)) as [[|]|];
    try now apply NoDup_map_app.
  repeat constructor. auto.
Qed.

Lemma partial_paths_NoDup n :
  siblings_ok (node_children n) -> Forall wf_node (node_children n) ->
  NoDup (partial_paths n).
Proof.
  induction n as [k cs IH] using patricia_node_ind.
  cbn [node_children]. intros Hs Hall. rewrite partial_paths_eq.
  destruct (list_empty cs); [repeat constructor; auto|].
  apply NoDup_flat_map_sorted with (R := fun a b => lead a < lead b);
    [exact Hs | |].
  - rewrite Forall_forall in *. intros c Hc. apply child_paths_NoDup.
    destruct (wf_node_children c (Hall c Hc)) as (_ & ? & ?).
    now apply IH.
  - rewrite Forall_forall in Hall.
    intros a b y Ha Hb Hlt Hya Hyb.
    destruct (wf_node_children a (Hall a Ha)) as (Hka & _).
    destruct (wf_node_children b (Hall b Hb)) as (Hkb & _).
    apply child_paths_start in Hya, Hyb; try assumption.
    assert (first_char (node_key a) = first_char (node_key b)) as E
      by (destruct Hya as [[? ?]|[? ?]], Hyb as [[? ?]|[? ?]]; congruence).
    apply lead_first_char in E. lia.
Qed.

(** ** The node a prefix resolves to *)

Lemma patricia_lookup_node_internal_in cur :
  forall b key n,
    patricia_lookup_node_internal b cur key = Some n -> node_in n cur.
Proof.
  induction cur as [k cs IH] using patricia_node_ind.
  intros b key n. rewrite patricia_lookup_node_internal_eq. cbv zeta.
  destruct (descend _ _ _ _).
  - destruct (substring _ _ _) as [new_key|]; [|discriminate].
    destruct (find_child _ cs) as [[[pre x] post]|] eqn:Hf; [|discriminate].
    apply find_child_some in Hf. destruct Hf as (-> & _ & _).
    rewrite Forall_app in IH. destruct IH as [_ IHx].
    apply Forall_inv in IHx. intros H.
    apply node_in_child with (c := x).
    + simpl. apply in_or_app. right. now left.
    + now apply (IHx false new_key).
  - destruct (_ =? _); [|discriminate]. intros [= <-]. constructor.
Qed.

Lemma reachable_resolved_node t p n :
  reachable t -> patricia_lookup_node t p = Some n ->
  siblings_ok (node_children n) /\ Forall wf_node (node_children n).
Proof.
  intros Hr Hn. apply reachable_wf in Hr.
  apply patricia_lookup_node_internal_in in Hn.
  now apply (node_in_siblings true (root t) n).
Qed.

(** ** Reading the tokens back *)

Lemma split_tokens_token acc tok rest :
  no_space tok ->
  split_tokens acc (tok ++ SPACE :: rest)
  = (acc ++ tok) :: split_tokens [] rest.
Proof.
  revert acc. induction tok as [|c tok IH]; intros acc Hns.
  - simpl. now rewrite app_nil_r.
  - simpl. destruct (Ascii.eqb_spec c SPACE) as [->|_].
    + exfalso. apply Hns. now left.
    + rewrite IH.
      * now rewrite <- app_assoc.
      * intros H. apply Hns. now right.
Qed.

Lemma tokens_join_tokens toks :
  Forall no_space toks -> tokens (join_tokens toks) = toks.
Proof.
  unfold tokens. induction 1 as [|tok toks Htok Htoks IH]; [reflexivity|].
  simpl. rewrite <- app_assoc. simpl.
  rewrite split_tokens_token by assumption. now rewrite IH.
Qed.

(** * The duplicate test of the partial enumeration *)

Lemma is_substring_while_spec w :
  forall s2 count rest,
    no_space w ->
    is_substring_while (w ++ SPACE :: rest) s2 count =
    Some (if common_prefix_loop w s2 =? length w
          then SPACE :: rest
          else skipn (S (common_prefix_loop w s2)) w ++ SPACE :: rest,
          count + common_prefix_loop w s2).
Proof.
  induction w as [|c w IH]; intros s2 count rest Hns.
  - simpl. now rewrite Nat.add_0_r.
  - assert (c <> SPACE) as Hc by (intros ->; apply Hns; now left).
    assert (no_space w) as Hw by (intros H; apply Hns; now right).
    cbn [app is_substring_while].
    destruct (Ascii.eqb_spec c SPACE) as [|_]; [contradiction|].
    destruct s2 as [|d s2].
    + simpl. now rewrite Nat.add_0_r.
    + cbn [common_prefix_loop].
      destruct (Ascii.eqb_spec c d) as [_|_].
      * rewrite IH by assumption. cbn [length Nat.eqb skipn].
        now rewrite Nat.add_succ_r.
      * simpl. now rewrite Nat.add_0_r.
Qed.

Lemma common_prefix_is_prefix w tok :
  common_prefix_loop w tok = length tok <-> is_prefix tok w.
Proof.
  split.
  - intros H. exists (skipn (length tok) w).
    pose proof (common_prefix_firstn w tok) as E. rewrite H in E.
    rewrite firstn_all in E.
    transitivity (firstn (length tok) w ++ skipn (length tok) w);
      [symmetry; apply firstn_skipn | now rewrite E].
  - intros [s ->]. induction tok as [|c tok IH]; simpl.
    + now destruct s.
    + now rewrite Ascii.eqb_refl, IH.
Qed.

Lemma join_tokens_cons tok toks :
  join_tokens (tok :: toks) = tok ++ SPACE :: join_tokens toks.
Proof. simpl. now rewrite <- app_assoc. Qed.

Lemma leading_match_ahead_join tok ts :
  Forall no_space ts -> Exists (is_prefix tok) ts ->
  leading_match_ahead tok (join_tokens ts).
Proof.
  intros Hns Hex. destruct ts as [|t ts]; [inversion Hex|].
  rewrite join_tokens_cons. exists t, ts.
  inversion Hns; subst. repeat split; auto.
  inversion Hex; auto.
Qed.

Lemma no_space_skipn n w : no_space w -> no_space (skipn n w).
Proof.
  intros H Hin. apply H. rewrite <- (firstn_skipn n w).
  apply in_or_app. now right.
Qed.

Lemma is_substring_for_leading_match tok fuel :
  tok <> [] ->
  forall s1,
    leading_match_ahead tok s1 -> length s1 <= fuel ->
    is_substring_for fuel s1 tok = Some true.
Proof.
  intros Htok. induction fuel as [|fuel IH]; intros s1 Hs1 Hlen.
  - destruct Hs1 as (w & ts & -> & _). rewrite length_app in Hlen.
    simpl in Hlen. lia.
  - destruct Hs1 as (w & ts & -> & Hw & Hts & Hahead).
    cbn [is_substring_for].
    destruct (w ++ SPACE :: join_tokens ts) as [|c0 s0] eqn:Es1.
    { destruct w; discriminate. }
    rewrite <- Es1. rewrite is_substring_while_spec by assumption.
    rewrite Nat.add_0_l. unfold strlen.
    destruct (Nat.eqb_spec (common_prefix_loop w tok) (length tok))
      as [Hm|Hm]; [reflexivity|].
    assert (Exists (is_prefix tok) ts) as Hex.
    { destruct Hahead as [Hp|Hex]; [|exact Hex].
      apply common_prefix_is_prefix in Hp. contradiction. }
    assert (length (c0 :: s0) = length w + S (length (join_tokens ts)))
      as Hl by (rewrite <- Es1, length_app; reflexivity).
    simpl in Hl, Hlen.
    destruct (Nat.eqb_spec (common_prefix_loop w tok) (length w)) as [_|_].
    + cbn [tl]. apply IH; [now apply leading_match_ahead_join | lia].
    + destruct (skipn (S (common_prefix_loop w tok)) w) as [|c1 w1] eqn:Ew.
      * cbn [app tl]. apply IH; [now apply leading_match_ahead_join | lia].
      * cbn [app tl]. apply IH.
        -- exists w1, ts. repeat split; auto.
           assert (no_space (c1 :: w1)) as Hns
               by (rewrite <- Ew; now apply no_space_skipn).
           intros Hin. apply Hns. now right.
        -- apply (f_equal (@length _)) in Ew. rewrite length_skipn in Ew.
           simpl in Ew. rewrite length_app. simpl. lia.
Qed.

Lemma join_tokens_length_In t toks :
  In t toks -> length t <= length (join_tokens toks).
Proof.
  induction toks as [|x toks IH]; [intros []|].
  rewrite join_tokens_cons, length_app. intros [->|H]; [lia|].
  specialize (IH H). simpl. lia.
Qed.

(** A candidate that is the beginning of a token already in the buffer is
    taken for a duplicate. *)
Lemma is_substring_leading_match toks t tok :
  Forall no_space toks -> In t toks -> is_prefix tok t -> tok <> [] ->
  is_substring (join_tokens toks) tok = Ret true.
Proof.
  intros Hns Hin Hp Htok. unfold is_substring, strlen.
  assert (length tok <= length (join_tokens toks)) as Hlen.
  { apply join_tokens_length_In in Hin. destruct Hp as [s ->].
    rewrite length_app in Hin. lia. }
  destruct (Nat.ltb_spec (length (join_tokens toks)) (length tok)); [lia|].
  rewrite (is_substring_for_leading_match tok _ Htok); auto.
  apply leading_match_ahead_join; [exact Hns|].
  apply Exists_exists. now exists t.
Qed.


(** * Further properties of the routines *)

(** ** The two string utilities *)

Lemma common_prefix_sym (a b : cstring) :
  common_prefix_loop a b = common_prefix_loop b a.
Proof.
  revert b; induction a as [|c a IH]; intros [|d b]; simpl; try reflexivity.
  rewrite (Ascii.eqb_sym c d). destruct (Ascii.eqb d c); [|reflexivity].
  now rewrite IH.
Qed.

Lemma common_prefix_maximal (a b : cstring) (m : nat) :
  m <= length a -> m <= length b -> firstn m a = firstn m b ->
  m <= common_prefix_loop a b.
Proof.
  revert b m; induction a as [|c a IH]; intros [|d b] [|m]; simpl;
    try lia.
  intros Ha Hb [= -> E]. rewrite Ascii.eqb_refl.
  apply le_n_S. apply IH; [lia | lia | exact E].
Qed.

(** X1.  [patricia_get_prefix_count] returns the length of the longest
    common prefix of its two arguments: both strings agree on that many
    leading characters, on no more, and the order of the arguments does not
    matter. *)
Theorem prefix_count_longest_common_prefix key1 key2 :
  patricia_get_prefix_count key1 key2 <= strlen key1 /\
  patricia_get_prefix_count key1 key2 <= strlen key2 /\
  firstn (patricia_get_prefix_count key1 key2) key1
  = firstn (patricia_get_prefix_count key1 key2) key2 /\
  (forall m, m <= strlen key1 -> m <= strlen key2 ->
             firstn m key1 = firstn m key2 ->
             m <= patricia_get_prefix_count key1 key2) /\
  patricia_get_prefix_count key2 key1 = patricia_get_prefix_count key1 key2.
Proof.
  rewrite !prefix_count_loop. unfold strlen. repeat split.
  - apply common_prefix_le_l.
  - apply common_prefix_le_r.
  - apply common_prefix_firstn.
  - apply common_prefix_maximal.
  - apply common_prefix_sym.
Qed.

Lemma substring_nat_slice str begin len :
  (substring str begin len = None <->
   str = [] \/ strlen str < begin + len) /\
  (forall r,
      substring str begin len = Some r ->
      r = firstn len (skipn begin str) /\
      strlen r = len /\
      firstn begin str ++ r ++ skipn (begin + len) str = str).
Proof.
  unfold substring, strlen. split.
  - destruct str as [|c s]; [simpl; split; auto|].
    cbn [length Nat.eqb orb].
    destruct (Nat.ltb_spec (S (length s)) begin);
      destruct (Nat.ltb_spec (S (length s)) (begin + len)); simpl;
      (split; [intros H'; try discriminate H'; right; lia
              | intros [H'|H']; [discriminate H' | try reflexivity; lia]]).
  - intros r.
    destruct (Nat.eqb_spec (length str) 0); [discriminate|].
    destruct (Nat.ltb_spec (length str) begin); [discriminate|].
    destruct (Nat.ltb_spec (length str) (begin + len)); [discriminate|].
    simpl. intros [= <-]. split; [reflexivity|]. split.
    + rewrite length_firstn, length_skipn. lia.
    + rewrite <- (firstn_skipn begin str) at 4.
      f_equal. rewrite Nat.add_comm, <- skipn_skipn.
      apply firstn_skipn.
Qed.

Lemma is_int_range z :
  is_int z = true <-> (INT_MIN <= z <= INT_MAX)%Z.
Proof.
  unfold is_int. rewrite andb_true_iff, !Z.leb_le. tauto.
Qed.

Lemma to_size_t_int z :
  is_int z = true ->
  to_size_t z = if (z <? 0)%Z then (18446744073709551616 + z)%Z else z.
Proof.
  intros H. apply is_int_range in H. unfold INT_MIN, INT_MAX in H.
  unfold to_size_t. destruct (Z.ltb_spec z 0).
  - symmetry. apply (Z.mod_unique_pos _ _ (-1)); lia.
  - apply Z.mod_small. lia.
Qed.

(** On the arguments of its callers [substring_int] is [substring]. *)
Lemma substring_int_nat s (b l : nat) :
  (Z.of_nat (strlen s) < INT_MAX)%Z ->
  (Z.of_nat b + Z.of_nat l <= INT_MAX)%Z ->
  substring_int (Some s) (Z.of_nat b) (Z.of_nat l) = Ret (substring s b l).
Proof.
  unfold INT_MAX. intros Hs Hbl. unfold substring_int, substring.
  assert (is_int (Z.of_nat b) = true) as Hb
      by (apply is_int_range; unfold INT_MIN, INT_MAX; lia).
  assert (is_int (Z.of_nat b + Z.of_nat l) = true) as Hsum
      by (apply is_int_range; unfold INT_MIN, INT_MAX; lia).
  rewrite (to_size_t_int _ Hb), (to_size_t_int _ Hsum), Hsum.
  cbn [negb].
  destruct (Nat.eqb_spec (strlen s) 0); [reflexivity|]. cbn [orb].
  destruct (Z.ltb_spec (Z.of_nat b) 0); [lia|].
  destruct (Z.ltb_spec (Z.of_nat b + Z.of_nat l) 0); [lia|].
  destruct (Z.ltb_spec (Z.of_nat (strlen s)) (Z.of_nat b));
    destruct (Nat.ltb_spec (strlen s) b); try lia; [reflexivity|].
  cbn [orb].
  destruct (Z.ltb_spec (Z.of_nat (strlen s)) (Z.of_nat b + Z.of_nat l));
    destruct (Nat.ltb_spec (strlen s) (b + l)); try lia; [reflexivity|].
  assert (is_int (Z.of_nat l + 1) = true) as ->
      by (apply is_int_range; unfold INT_MIN, INT_MAX; lia).
  destruct (Z.ltb_spec (Z.of_nat l) 0); [lia|].
  cbn [negb orb]. now rewrite !Nat2Z.id.
Qed.

Lemma substring_int_cases s begin len :
  is_int begin = true -> is_int len = true ->
  (Z.of_nat (strlen s) < INT_MAX)%Z ->
  substring_int None begin len = Ret None /\
  (substring_int (Some s) begin len = Ret None <->
   s = [] \/ (begin < 0)%Z \/ (Z.of_nat (strlen s) < begin)%Z \/
   ((begin + len <= INT_MAX)%Z /\
    ((begin + len < 0)%Z \/ (Z.of_nat (strlen s) < begin + len)%Z))) /\
  (substring_int (Some s) begin len = Fault <->
   s <> [] /\ (0 <= begin <= Z.of_nat (strlen s))%Z /\
   ((INT_MAX < begin + len)%Z \/
    ((0 <= begin + len <= Z.of_nat (strlen s))%Z /\ (len < 0)%Z))) /\
  (forall r,
      substring_int (Some s) begin len = Ret (Some r) ->
      (0 <= begin)%Z /\ (0 <= len)%Z /\
      substring s (Z.to_nat begin) (Z.to_nat len) = Some r /\
      r = firstn (Z.to_nat len) (skipn (Z.to_nat begin) s) /\
      strlen r = Z.to_nat len /\
      firstn (Z.to_nat begin) s ++ r
        ++ skipn (Z.to_nat begin + Z.to_nat len) s = s).
Proof.
  intros Hb Hl Hs. split; [reflexivity|].
  pose proof (proj1 (is_int_range begin) Hb) as Rb.
  pose proof (proj1 (is_int_range len) Hl) as Rl.
  unfold substring_int. rewrite (to_size_t_int begin Hb).
  assert (s = [] <-> strlen s = 0) as Hnil
      by (unfold strlen; destruct s; simpl; split; congruence).
  unfold INT_MIN, INT_MAX in *.
  destruct (Nat.eqb_spec (strlen s) 0) as [E0|E0].
  { apply Hnil in E0. subst s. split; [|split].
    - split; auto.
    - split; [discriminate|]. now intros [H _].
    - discriminate. }
  assert (s <> []) as Hne by (intros E; apply E0, Hnil, E).
  destruct (Z.ltb_spec begin 0) as [Hneg|Hpos].
  { destruct (Z.ltb_spec (Z.of_nat (strlen s)) (18446744073709551616 + begin));
      [|lia].
    split; [|split].
    - split; auto.
    - split; [discriminate|]. intros (_ & H' & _). lia.
    - discriminate. }
  destruct (Z.ltb_spec (Z.of_nat (strlen s)) begin) as [Hpast|Hin].
  { split; [|split].
    - split; auto.
    - split; [discriminate|]. intros (_ & H' & _). lia.
    - discriminate. }
  destruct (is_int (begin + len)) eqn:Hsum; cbn [negb].
  2:{ assert (INT_MAX < begin + len)%Z as Hover.
      { destruct (Z.ltb_spec 2147483647 (begin + len)) as [H'|H'];
          [exact H'|].
        assert (is_int (begin + len) = true) as X
            by (apply is_int_range; unfold INT_MIN, INT_MAX; lia).
        congruence. }
      unfold INT_MAX in Hover. split; [|split].
      - split; [discriminate|]. intros [H'|[H'|[H'|[H' _]]]];
          [contradiction | lia | lia | lia].
      - split; [|reflexivity]. intros _. repeat split; auto; lia.
      - discriminate. }
  rewrite (to_size_t_int _ Hsum). apply is_int_range in Hsum.
  unfold INT_MIN, INT_MAX in Hsum.
  destruct (Z.ltb_spec (begin + len) 0) as [Hsneg|Hspos].
  { destruct (Z.ltb_spec (Z.of_nat (strlen s))
                (18446744073709551616 + (begin + len))); [|lia].
    split; [|split].
    - split; [|reflexivity]. intros _. right. right. right. split; lia.
    - split; [discriminate|]. intros (_ & _ & [H'|[H' _]]); lia.
    - discriminate. }
  destruct (Z.ltb_spec (Z.of_nat (strlen s)) (begin + len)) as [Hspast|Hsin].
  { split; [|split].
    - split; [|reflexivity]. intros _. right. right. right. split; lia.
    - split; [discriminate|]. intros (_ & _ & [H'|[H' _]]); lia.
    - discriminate. }
  assert (is_int (len + 1) = true) as ->
      by (apply is_int_range; unfold INT_MIN, INT_MAX; lia).
  cbn [negb orb].
  destruct (Z.ltb_spec len 0) as [Hlneg|Hlpos].
  { split; [|split].
    - split; [discriminate|]. intros [H'|[H'|[H'|[_ [H'|H']]]]];
        [contradiction | lia | lia | lia | lia].
    - split; [|reflexivity]. intros _. repeat split; auto; lia.
    - discriminate. }
  split; [|split].
  - split; [discriminate|]. intros [H'|[H'|[H'|[_ [H'|H']]]]];
      [contradiction | lia | lia | lia | lia].
  - split; [discriminate|]. intros (_ & _ & [H'|[_ H']]); lia.
  - intros r [= <-].
    assert (substring s (Z.to_nat begin) (Z.to_nat len)
            = Some (firstn (Z.to_nat len) (skipn (Z.to_nat begin) s)))
      as Hnat.
    { unfold substring.
      destruct (Nat.eqb_spec (strlen s) 0); [contradiction|].
      destruct (Nat.ltb_spec (strlen s) (Z.to_nat begin)); [lia|].
      destruct (Nat.ltb_spec (strlen s) (Z.to_nat begin + Z.to_nat len));
        [lia | reflexivity]. }
    destruct (proj2 (substring_nat_slice s (Z.to_nat begin) (Z.to_nat len))
                _ Hnat) as (_ & Hlen & Hsplit).
    repeat split; auto.
Qed.

(** X2.  [substring], on a string shorter than [INT_MAX] and on two
    [int]s.  It returns [NULL] for a [NULL] string, and for a string that
    is not [NULL] exactly when the string is empty, [begin] is negative or
    past the end, or [begin + len], computed without overflow, is negative
    or past the end.  Its behaviour is undefined exactly when [begin] is
    inside the string and [begin + len] overflows or [len] is negative with
    [begin + len] inside the string.  In every other case it returns the
    [len] characters that follow the first [begin] ones, so that the string
    is what stands before the slice, the slice, and what stands after
    it, and on a start and a length that are not negative it is the
    [substring] that the routines of this file are written with. *)
Theorem substring_slice s begin len :
  is_int begin = true -> is_int len = true ->
  (Z.of_nat (strlen s) < INT_MAX)%Z ->
  substring_int None begin len = Ret None /\
  (substring_int (Some s) begin len = Ret None <->
   s = [] \/ (begin < 0)%Z \/ (Z.of_nat (strlen s) < begin)%Z \/
   ((begin + len <= INT_MAX)%Z /\
    ((begin + len < 0)%Z \/ (Z.of_nat (strlen s) < begin + len)%Z))) /\
  (substring_int (Some s) begin len = Fault <->
   s <> [] /\ (0 <= begin <= Z.of_nat (strlen s))%Z /\
   ((INT_MAX < begin + len)%Z \/
    ((0 <= begin + len <= Z.of_nat (strlen s))%Z /\ (len < 0)%Z))) /\
  (forall r,
      substring_int (Some s) begin len = Ret (Some r) ->
      (0 <= begin)%Z /\ (0 <= len)%Z /\
      substring s (Z.to_nat begin) (Z.to_nat len) = Some r /\
      r = firstn (Z.to_nat len) (skipn (Z.to_nat begin) s) /\
      strlen r = Z.to_nat len /\
      firstn (Z.to_nat begin) s ++ r
        ++ skipn (Z.to_nat begin + Z.to_nat len) s = s) /\
  (forall b l : nat,
      begin = Z.of_nat b -> len = Z.of_nat l ->
      (begin + len <= INT_MAX)%Z ->
      substring_int (Some s) begin len = Ret (substring s b l)).
Proof.
  intros Hb Hl Hs.
  destruct (substring_int_cases s begin len Hb Hl Hs)
    as (Hnull & Hnone & Hfault & Hsome).
  split; [exact Hnull|]. split; [exact Hnone|]. split; [exact Hfault|].
  split; [exact Hsome|].
  intros b l -> -> Hsum. now apply substring_int_nat.
Qed.

(** X2 at work: a negative start is refused although the slice would end
    inside "abc"; the slice of two characters after the first one is
    "bc". *)
Lemma substring_slice_witness :
  substring_int (Some (cstr "abc")) (-1) 2 = Ret None /\
  substring_int (Some (cstr "abc")) 1 2 = Ret (Some (cstr "bc")) /\
  (substring_int (Some (cstr "abc")) (-1) 2 = Ret None <->
   cstr "abc" = [] \/ (-1 < 0)%Z \/
   (Z.of_nat (strlen (cstr "abc")) < -1)%Z \/
   ((-1 + 2 <= INT_MAX)%Z /\
    ((-1 + 2 < 0)%Z \/ (Z.of_nat (strlen (cstr "abc")) < -1 + 2)%Z))).
Proof.
  split; [reflexivity|]. split; [reflexivity|].
  apply (substring_slice (cstr "abc") (-1) 2); [reflexivity | reflexivity|].
  unfold INT_MAX. simpl. lia.
Defined.

(** ** The duplicate test, read as a search *)

Lemma is_substring_while_matched s1 :
  forall s2 count rest count',
    is_substring_while s1 s2 count = Some (rest, count') ->
    exists m pre,
      count' = count + m /\
      firstn m s1 = firstn m s2 /\ length (firstn m s2) = m /\
      no_space (firstn m s1) /\
      s1 = pre ++ rest.
Proof.
  induction s1 as [|x s1 IH]; intros s2 count rest count' H.
  - destruct s2 as [|d s2]; [discriminate|]. injection H as <- <-.
    exists 0, []. repeat split; auto. intros [].
  - cbn [is_substring_while] in H.
    destruct (Ascii.eqb_spec x SPACE) as [->|Hx].
    { injection H as <- <-. exists 0, []. repeat split; auto. intros []. }
    destruct s2 as [|d s2].
    { injection H as <- <-. exists 0, [x]. repeat split; auto. intros []. }
    destruct (Ascii.eqb_spec x d) as [->|Hxd].
    + destruct (IH _ _ _ _ H) as (m & pre & -> & Hf & Hl & Hns & ->).
      exists (S m), (d :: pre). simpl. rewrite Hf, Hl.
      split; [lia|]. split; [reflexivity|]. split; [reflexivity|].
      split; [|reflexivity].
      intros [E|Hin]; [now subst d | ]. apply Hns. now rewrite Hf.
    + injection H as <- <-. exists 0, [x]. repeat split; auto. intros [].
Qed.

Lemma is_substring_for_found fuel :
  forall s1 str2,
    is_substring_for fuel s1 str2 = Some true ->
    occurs str2 s1 /\ no_space str2.
Proof.
  induction fuel as [|fuel IH]; intros s1 str2 H;
    [destruct s1; discriminate|].
  destruct s1 as [|x s1]; [discriminate|].
  cbn [is_substring_for] in H.
  destruct (is_substring_while (x :: s1) str2 0) as [[rest count]|] eqn:Hw;
    [|discriminate].
  destruct (is_substring_while_matched _ _ _ _ _ Hw)
    as (m & pre & -> & Hf & Hl & Hns & Hs1).
  simpl in H. destruct (Nat.eqb_spec m (strlen str2)) as [Em|_].
  - unfold strlen in Em. subst m. rewrite firstn_all in Hf.
    rewrite Hf in Hns. split.
    + exists [], (skipn (length str2) (x :: s1)). cbn [app].
      transitivity (firstn (length str2) (x :: s1)
                    ++ skipn (length str2) (x :: s1));
        [symmetry; apply firstn_skipn | now rewrite Hf].
    + exact Hns.
  - destruct rest as [|y rest]; [destruct fuel; discriminate H|].
    destruct (IH _ _ H) as [(a & b & Hocc) Hno]. split; [|exact Hno].
    simpl in Hocc. subst rest. exists (pre ++ y :: a), b.
    rewrite Hs1, <- app_assoc. reflexivity.
Qed.

(** X3.  When [is_substring] answers 1, the second string does stand in
    the first one, its characters next to each other, and holds no space.
    (The converse fails: the scan resumes two characters after a mismatch,
    so it can step over the place where the string stands.) *)
Theorem is_substring_found str1 str2 :
  is_substring str1 str2 = Ret true ->
  occurs str2 str1 /\ no_space str2.
Proof.
  unfold is_substring. destruct (_ <? _); [discriminate|].
  destruct (is_substring_for (strlen str1) str1 str2) as [[|]|] eqn:H;
    try discriminate.
  intros _. now apply is_substring_for_found with (fuel := strlen str1).
Qed.

(** X3 at work: "b" is found in the buffer "xab ". *)
Lemma is_substring_found_witness :
  is_substring (cstr "xab ") (cstr "b") = Ret true /\
  occurs (cstr "b") (cstr "xab ") /\ no_space (cstr "b").
Proof.
  split; [reflexivity|].
  apply (is_substring_found (cstr "xab ") (cstr "b")). reflexivity.
Defined.

Lemma ends_in_space_tl (s : cstring) :
  (exists body, s = body ++ [SPACE]) ->
  tl s = [] \/ exists body, tl s = body ++ [SPACE].
Proof.
  intros [[|c [|d body]] ->]; simpl.
  - now left.
  - right. now exists [].
  - right. now exists (d :: body).
Qed.

Lemma is_substring_while_in_bounds s1 :
  forall s2 count,
    (exists body, s1 = body ++ [SPACE]) ->
    exists rest count',
      is_substring_while s1 s2 count = Some (rest, count') /\
      (tl rest = [] \/ exists body, tl rest = body ++ [SPACE]).
Proof.
  induction s1 as [|x s1 IH]; intros s2 count Hs1.
  - destruct Hs1 as [[|? ?] E]; discriminate.
  - cbn [is_substring_while].
    destruct (Ascii.eqb_spec x SPACE) as [->|Hx].
    { exists (SPACE :: s1), count. split; [reflexivity|].
      now apply ends_in_space_tl. }
    assert (exists body, s1 = body ++ [SPACE]) as Hs1'.
    { destruct Hs1 as [[|c body] E]; simpl in E.
      - injection E as -> _. contradiction.
      - injection E as _ ->. now exists body. }
    destruct s2 as [|d s2].
    { exists s1, count. split; [reflexivity|]. now apply ends_in_space_tl. }
    destruct (Ascii.eqb_spec x d) as [_|_].
    + now apply IH.
    + exists s1, count. split; [reflexivity|]. now apply ends_in_space_tl.
Qed.

Lemma is_substring_for_in_bounds fuel :
  forall s1 str2,
    s1 = [] \/ (exists body, s1 = body ++ [SPACE]) ->
    exists b, is_substring_for fuel s1 str2 = Some b.
Proof.
  induction fuel as [|fuel IH]; intros s1 str2 Hs1.
  - exists false. now destruct s1.
  - destruct s1 as [|x s1]; [now exists false|].
    destruct Hs1 as [|Hs1]; [discriminate|]. cbn [is_substring_for].
    destruct (is_substring_while_in_bounds (x :: s1) str2 0 Hs1)
      as (rest & count & -> & Hrest).
    destruct (count =? strlen str2); [now exists true|].
    now apply IH.
Qed.

Lemma join_tokens_space_closed toks : space_closed (join_tokens toks).
Proof.
  induction toks as [|tok toks IH]; [now left|]. right.
  rewrite join_tokens_cons. destruct IH as [->|[body ->]].
  - now exists tok.
  - exists (tok ++ SPACE :: body). now rewrite <- app_assoc.
Qed.

Lemma is_substring_runs buf tok :
  space_closed buf -> exists dup, is_substring buf tok = Ret dup.
Proof.
  intros Hbuf. unfold is_substring.
  destruct (_ <? _); [now exists false|].
  destruct (is_substring_for_in_bounds (strlen buf) buf tok Hbuf) as [b ->].
  now exists b.
Qed.

(** X4.  On a buffer that is empty or ends in a space [is_substring]
    reads no byte past the terminators: it answers 0 or 1.  The buffer that
    holds any list of tokens, a space after each, is such a buffer. *)
Theorem is_substring_in_bounds :
  (forall buf tok,
      space_closed buf -> exists dup, is_substring buf tok = Ret dup) /\
  (forall toks, space_closed (join_tokens toks)).
Proof.
  split; [exact is_substring_runs | exact join_tokens_space_closed].
Qed.

(** X4 at work on the buffer "car ". *)
Lemma is_substring_in_bounds_witness :
  space_closed (cstr "car ") /\
  exists dup, is_substring (cstr "car ") (cstr "cat") = Ret dup.
Proof.
  assert (space_closed (cstr "car ")) as H
    by (right; now exists (cstr "car")).
  split; [exact H|].
  destruct is_substring_in_bounds as [Hin _].
  exact (Hin (cstr "car ") (cstr "cat") H).
Defined.

(** ** The insertion of a child among its siblings *)

Lemma strcmp_flip (a b : cstring) : strcmp b a = (- strcmp a b)%Z.
Proof.
  revert b; induction a as [|c a IH]; intros [|d b]; simpl; try reflexivity.
  rewrite (Ascii.eqb_sym d c).
  destruct (Ascii.eqb_spec c d) as [->|Hcd]; [apply IH|].
  assert (nat_of_ascii c <> nat_of_ascii d)
    by (intros E; apply Hcd; now apply nat_of_ascii_inj).
  destruct (Nat.ltb_spec (nat_of_ascii c) (nat_of_ascii d));
    destruct (Nat.ltb_spec (nat_of_ascii d) (nat_of_ascii c)); lia.
Qed.

Lemma strcmp_le_trans (a : cstring) :
  forall b c,
    (strcmp a b <= 0)%Z -> (strcmp b c <= 0)%Z -> (strcmp a c <= 0)%Z.
Proof.
  induction a as [|x a IH]; intros [|y b] [|z c]; simpl; try lia.
  destruct (Ascii.eqb_spec x y), (Ascii.eqb_spec y z), (Ascii.eqb_spec x z);
    subst; try congruence;
    repeat match goal with
           | |- context [(?n <? ?m)%nat] => destruct (Nat.ltb_spec n m)
           end;
    try lia; apply IH.
Qed.

Lemma add_child_scan_permutation child l :
  Permutation (child :: l) (add_child_scan child l).
Proof.
  induction l as [|n next IH]; simpl.
  - apply Permutation_refl.
  - destruct (strcmp (node_key child) (node_key n) <? 0)%Z.
    + apply Permutation_refl.
    + eapply perm_trans; [apply perm_swap|]. now apply perm_skip.
Qed.

Lemma add_child_scan_ascending child l :
  weakly_ascending l -> weakly_ascending (add_child_scan child l).
Proof.
  unfold weakly_ascending. induction 1 as [|n next Hs IH Hf]; simpl.
  - repeat constructor.
  - destruct (Z.ltb_spec (strcmp (node_key child) (node_key n)) 0) as [L|L].
    + constructor; [now constructor|].
      constructor; [lia|].
      revert Hf. apply Forall_impl. intros r Hr.
      apply strcmp_le_trans with (b := node_key n); [lia | exact Hr].
    + constructor; [exact IH|].
      rewrite Forall_forall in *. intros y Hy.
      apply In_add_child_scan in Hy. destruct Hy as [->|Hy]; auto.
      rewrite strcmp_flip. lia.
Qed.

(** X5.  [patricia_add_child_node] only adds the child: the new list of
    children is the old one with the child put in, the fragment of the
    parent is untouched, and a list that was ascending for [strcmp] is
    ascending afterwards. *)
Theorem add_child_node_sorted_insert parent child :
  weakly_ascending (node_children parent) ->
  node_key (patricia_add_child_node parent (Some child)) = node_key parent /\
  Permutation (child :: node_children parent)
    (node_children (patricia_add_child_node parent (Some child))) /\
  weakly_ascending
    (node_children (patricia_add_child_node parent (Some child))).
Proof.
  destruct parent as [k cs]. rewrite patricia_add_child_node_scan.
  cbn [node_key node_children]. intros Hs. split; [reflexivity|]. split.
  - apply add_child_scan_permutation.
  - now apply add_child_scan_ascending.
Qed.

(** X5 at work: "s" put between the children "r" and "t" of "ca". *)
Lemma add_child_node_sorted_insert_witness :
  weakly_ascending (node_children node_ca) /\
  node_children (patricia_add_child_node node_ca (Some (Node (cstr "s") [])))
  = [Node (cstr "r") []; Node (cstr "s") []; Node (cstr "t") []] /\
  weakly_ascending
    (node_children
       (patricia_add_child_node node_ca (Some (Node (cstr "s") [])))).
Proof.
  assert (weakly_ascending (node_children node_ca)) as H.
  { repeat constructor. simpl. lia. }
  split; [exact H|]. split; [reflexivity|].
  apply (add_child_node_sorted_insert node_ca (Node (cstr "s") []) H).
Defined.

(** ** What lookup finds *)

Lemma pick_cons c z l :
  pick c (z :: l) =
  if same_char (first_char (node_key z)) c then Some z else pick c l.
Proof.
  unfold pick. simpl. destruct (same_char _ _); [reflexivity|].
  now destruct (find_child c l) as [[[? ?] ?]|].
Qed.

Lemma pick_app c a b :
  pick c (a ++ b) =
  match pick c a with
  | Some y => Some y
  | None => pick c b
  end.
Proof.
  induction a as [|z a IH]; [reflexivity|].
  simpl app. rewrite !pick_cons. now destruct (same_char _ _).
Qed.

Lemma pick_some c cs y :
  pick c cs = Some y -> In y cs /\ first_char (node_key y) = c.
Proof.
  unfold pick. destruct (find_child c cs) as [[[pre x] post]|] eqn:Hf;
    [|discriminate].
  intros [= ->]. apply find_child_some in Hf. destruct Hf as (-> & Hx & _).
  split; [|exact Hx]. apply in_or_app. right. now left.
Qed.

Lemma pick_none c cs : pick c cs = None <-> Forall (starts_other c) cs.
Proof.
  rewrite <- find_child_none. unfold pick.
  destruct (find_child c cs) as [[[? ?] ?]|]; split; congruence.
Qed.

Lemma pick_here c pre x post :
  Forall (starts_other c) pre -> first_char (node_key x) = c ->
  pick c (pre ++ x :: post) = Some x.
Proof.
  intros Hpre Hx. unfold pick. now rewrite find_child_here.
Qed.

Lemma siblings_front_other pre x post :
  siblings_ok (pre ++ x :: post) ->
  Forall (starts_other (first_char (node_key x))) pre.
Proof.
  unfold siblings_ok. rewrite sorted_app. intros (_ & _ & H).
  rewrite Forall_forall. intros y Hy E.
  specialize (H y x Hy (or_introl eq_refl)).
  apply lead_first_char in E. lia.
Qed.

Lemma pick_sibling cs y :
  siblings_ok cs -> In y cs -> pick (first_char (node_key y)) cs = Some y.
Proof.
  intros Hs Hy. apply in_split in Hy. destruct Hy as (pre & post & ->).
  apply pick_here; [|reflexivity]. now apply siblings_front_other in Hs.
Qed.

Lemma patricia_lookup_internal_pick b k cs key :
  patricia_lookup_internal b (Node k cs) key =
  if descend b (common_prefix_loop key k) key k then
    match substring key (common_prefix_loop key k)
            (strlen key - common_prefix_loop key k) with
    | None => 0%Z
    | Some new_key =>
        match pick (first_char new_key) cs with
        | None => 0%Z
        | Some x => patricia_lookup_internal false x new_key
        end
    end
  else if common_prefix_loop key k =? strlen k then 1%Z else 0%Z.
Proof.
  rewrite patricia_lookup_internal_eq. cbv zeta. unfold pick.
  destruct (descend _ _ _ _); [|reflexivity].
  destruct (substring _ _ _) as [nk|]; [|reflexivity].
  now destruct (find_child _ cs) as [[[? ?] ?]|].
Qed.

Lemma node_paths_eq k cs :
  node_paths (Node k cs) = k :: map (app k) (flat_map node_paths cs).
Proof. reflexivity. Qed.

Lemma node_paths_start n p :
  In p (node_paths n) -> is_prefix (node_key n) p.
Proof.
  destruct n as [k cs]. rewrite node_paths_eq. intros [<-|H].
  - exists []. simpl. now rewrite app_nil_r.
  - apply in_map_iff in H. destruct H as (s & <- & _). now exists s.
Qed.

Lemma common_prefix_extension k s :
  common_prefix_loop (k ++ s) k = length k.
Proof. apply common_prefix_is_prefix. now exists s. Qed.

(** Below the root, a key that starts like the fragment of the node and
    is not the fragment goes down exactly when the fragment is its
    beginning. *)
Lemma descend_below k key :
  first_char key = first_char k -> key <> [] ->
  descend false (common_prefix_loop key k) key k = true ->
  exists new_key,
    key = k ++ new_key /\ new_key <> [] /\
    substring key (common_prefix_loop key k)
      (strlen key - common_prefix_loop key k) = Some new_key.
Proof.
  intros Hfc Hkey Hd. apply descend_true in Hd.
  pose proof (common_prefix_le_l key k) as Hlk.
  pose proof (common_prefix_le_r key k) as Hlr.
  assert (0 < common_prefix_loop key k) as Hpos.
  { destruct key as [|c key]; [congruence|].
    destruct k as [|d k]; [discriminate|]. simpl in *.
    injection Hfc as ->. rewrite Ascii.eqb_refl. lia. }
  destruct Hd as [Hd|[Hd|(_ & Hlt & Hge)]]; [discriminate | lia |].
  exists (skipn (common_prefix_loop key k) key).
  assert (common_prefix_loop key k = length k) as E by lia.
  split; [|split].
  - pose proof (common_prefix_firstn key k) as Hf.
    rewrite E in Hf at 2. rewrite firstn_all in Hf.
    transitivity (firstn (common_prefix_loop key k) key
                  ++ skipn (common_prefix_loop key k) key);
      [symmetry; apply firstn_skipn | now rewrite Hf].
  - now apply skipn_nonempty.
  - apply substring_tail; [exact Hkey | lia].
Qed.

Lemma lookup_below_in_paths n :
  forall key,
    first_char key = first_char (node_key n) ->
    patricia_lookup_internal false n key = 1%Z ->
    In key (node_paths n).
Proof.
  induction n as [k cs IH] using patricia_node_ind.
  intros key Hfc. cbn [node_key] in Hfc.
  rewrite patricia_lookup_internal_pick, node_paths_eq.
  destruct (descend false (common_prefix_loop key k) key k) eqn:Hd.
  - destruct (substring key _ _) as [nk|] eqn:Hs; [|discriminate].
    pose proof (substring_some_nonempty _ _ _ _ Hs) as Hkey.
    destruct (descend_below k key Hfc Hkey Hd) as (nk' & Ekey & Hnk & Hs').
    rewrite Hs in Hs'. injection Hs' as <-.
    destruct (pick (first_char nk) cs) as [x|] eqn:Hp; [|discriminate].
    apply pick_some in Hp. destruct Hp as [Hx Hfx].
    intros Hlook. right. rewrite Ekey. apply in_map.
    apply in_flat_map. exists x. split; [exact Hx|].
    rewrite Forall_forall in IH. apply (IH x Hx); [now symmetry | exact Hlook].
  - apply descend_false in Hd. destruct Hd as (_ & Hpos & Hcase).
    pose proof (common_prefix_le_l key k).
    destruct (Nat.eqb_spec (common_prefix_loop key k) (strlen k)) as [E|];
      [|discriminate].
    intros _. left. unfold strlen in E. symmetry.
    apply common_prefix_full; lia.
Qed.

Lemma paths_lookup_below n :
  forall key,
    wf_node n -> In key (node_paths n) ->
    patricia_lookup_internal false n key = 1%Z.
Proof.
  induction n as [k cs IH] using patricia_node_ind.
  intros key Hwf. apply wf_node_eq in Hwf. destruct Hwf as (Hk & Hs & Hall).
  rewrite node_paths_eq. intros [<-|Hin].
  - now apply lookup_fragment_itself.
  - apply in_map_iff in Hin. destruct Hin as (p & <- & Hp).
    apply in_flat_map in Hp. destruct Hp as (c & Hc & Hp).
    rewrite Forall_forall in IH, Hall.
    destruct (wf_node_children c (Hall c Hc)) as (Hkc & _).
    pose proof (node_paths_start c p Hp) as Hstart.
    assert (p <> []) as Hpne
        by (destruct Hstart as [s ->]; destruct (node_key c);
            [congruence | discriminate]).
    rewrite patricia_lookup_internal_pick, common_prefix_extension.
    assert (descend false (length k) (k ++ p) k = true) as ->.
    { apply descend_true. right; right. rewrite length_app.
      destruct k; [congruence|]. destruct p; [congruence|]. simpl. lia. }
    rewrite substring_tail.
    + rewrite skipn_app, skipn_all, Nat.sub_diag. cbn [app skipn].
      rewrite <- (is_prefix_first_char _ _ Hkc Hstart).
      rewrite (pick_sibling cs c Hs Hc).
      apply IH; [exact Hc | now apply Hall | exact Hp].
    + destruct k; [congruence | discriminate].
    + rewrite length_app. lia.
Qed.

Lemma lookup_root_paths r key :
  wf_at true r ->
  (patricia_lookup_internal true r key = 1%Z <->
   In key (flat_map node_paths (node_children r))).
Proof.
  destruct r as [k cs]. intros (Hk & Hs & Hall).
  cbn [node_key node_children] in *. subst k.
  rewrite patricia_lookup_internal_pick, common_prefix_nil_r.
  cbn [descend orb]. rewrite Forall_forall in Hall.
  destruct key as [|c key].
  - split; [discriminate|]. intros H. apply in_flat_map in H.
    destruct H as (x & Hx & H). apply node_paths_start in H.
    destruct (wf_node_children x (Hall x Hx)) as (Hkx & _).
    destruct H as [s H]. destruct (node_key x); [congruence | discriminate].
  - rewrite substring_tail by (simpl; try discriminate; lia).
    cbn [skipn]. split.
    + destruct (pick _ cs) as [x|] eqn:Hp; [|discriminate].
      apply pick_some in Hp. destruct Hp as [Hx Hfx]. intros Hlook.
      apply in_flat_map. exists x. split; [exact Hx|].
      apply lookup_below_in_paths; [now symmetry | exact Hlook].
    + intros H. apply in_flat_map in H. destruct H as (x & Hx & H).
      destruct (wf_node_children x (Hall x Hx)) as (Hkx & _).
      rewrite <- (is_prefix_first_char _ _ Hkx (node_paths_start x _ H)).
      rewrite (pick_sibling cs x Hs Hx).
      now apply paths_lookup_below; [apply Hall|].
Qed.

(** X6.  In a reachable tree [patricia_lookup] answers 1 exactly for the
    keys spelled by the fragments from below the root down to some node,
    a leaf or not, and 0 for every other key. *)
Theorem lookup_finds_node_paths t k :
  reachable t ->
  (patricia_lookup (Some t) (Some k) = Ret 1%Z <-> In k (stored_paths t)) /\
  (patricia_lookup (Some t) (Some k) = Ret 0%Z <-> ~ In k (stored_paths t)).
Proof.
  intros Hr. apply reachable_wf in Hr.
  pose proof (lookup_root_paths (root t) k Hr) as H.
  unfold stored_paths. simpl.
  assert (patricia_lookup_internal true (root t) k = 0%Z \/
          patricia_lookup_internal true (root t) k = 1%Z) as Hbits.
  { clear. generalize true. generalize k.
    induction (root t) as [fk cs IH] using patricia_node_ind.
    intros key b. rewrite patricia_lookup_internal_pick.
    destruct (descend _ _ _ _).
    - destruct (substring _ _ _) as [nk|]; [|now left].
      destruct (pick _ cs) as [x|] eqn:Hp; [|now left].
      apply pick_some in Hp. destruct Hp as [Hx _].
      rewrite Forall_forall in IH. now apply IH.
    - destruct (_ =? _); auto. }
  split; split.
  - intros [= E]. now apply H.
  - intros Hin. f_equal. now apply H.
  - intros [= E] Hin. apply H in Hin. congruence.
  - intros Hn. f_equal. destruct Hbits as [E|E]; [exact E|].
    exfalso. apply Hn. now apply H.
Qed.

(** X6 at work on the tree of "cat" and "car", whose nodes spell "ca",
    "car" and "cat". *)
Lemma lookup_finds_node_paths_witness :
  reachable tree_cat_car /\
  stored_paths tree_cat_car = [cstr "ca"; cstr "car"; cstr "cat"] /\
  (patricia_lookup (Some tree_cat_car) (Some (cstr "ca")) = Ret 1%Z <->
   In (cstr "ca") (stored_paths tree_cat_car)).
Proof.
  assert (reachable tree_cat_car) as Hr
    by (now apply (tree_of_keys_reachable ["cat"; "car"]%string)).
  split; [exact Hr|]. split; [reflexivity|].
  exact (proj1 (lookup_finds_node_paths tree_cat_car (cstr "ca") Hr)).
Defined.

(** ** What an insertion stores *)

Lemma node_paths_In k cs p :
  In p (node_paths (Node k cs)) <->
  p = k \/ exists c q, In c cs /\ In q (node_paths c) /\ p = k ++ q.
Proof.
  rewrite node_paths_eq. simpl. rewrite in_map_iff. split.
  - intros [<-|(q & <- & Hq)]; [now left|]. right.
    apply in_flat_map in Hq. destruct Hq as (c & Hc & Hq). now exists c, q.
  - intros [->|(c & q & Hc & Hq & ->)]; [now left|]. right.
    exists q. split; [reflexivity|]. apply in_flat_map. now exists c.
Qed.

Lemma is_prefix_app k a b : is_prefix a b -> is_prefix (k ++ a) (k ++ b).
Proof. intros [s ->]. exists s. now rewrite app_assoc. Qed.

Lemma is_prefix_refl a : is_prefix a a.
Proof. exists []. now rewrite app_nil_r. Qed.

(** The paths below a node after an insertion, whatever the outcome of the
    allocations: [sp] is the place where a fragment has been split, or a
    node that was there before; [ins] tells whether the leaf of the key has
    been put in. *)
Lemma add_alloc_paths_below cur :
  forall mem key cur',
    first_char key = first_char (node_key cur) ->
    patricia_add_internal_alloc mem false cur key = Ret (0%Z, cur') ->
    exists sp ins,
      is_prefix sp key /\
      (no_failure mem -> ins = true) /\
      forall p, In p (node_paths cur') <->
                In p (node_paths cur) \/ (ins = true /\ p = key) \/ p = sp.
Proof.
  induction cur as [k cs IH] using patricia_node_ind.
  intros mem key cur' Hfc. cbn [node_key] in Hfc.
  rewrite patricia_add_internal_alloc_eq. cbv zeta.
  pose proof (common_prefix_le_l key k) as Hlk.
  pose proof (common_prefix_le_r key k) as Hlr.
  destruct (descend false (common_prefix_loop key k) key k) eqn:Hd.
  - destruct (substring key _ _) as [nk|] eqn:Hs; [|discriminate].
    pose proof (substring_some_nonempty _ _ _ _ Hs) as Hkey.
    destruct (descend_below k key Hfc Hkey Hd) as (nk' & Ekey & Hnk & Hs').
    rewrite Hs in Hs'. injection Hs' as <-.
    destruct (find_child (first_char nk) cs) as [[[pre x] post]|] eqn:Hf.
    + apply find_child_some in Hf. destruct Hf as (-> & Hx & _).
      destruct (patricia_add_internal_alloc mem false x nk)
        as [[r x']|] eqn:Hadd; [|discriminate].
      cbn [bind]. destruct (Z.eqb_spec r 0) as [->|]; [|discriminate].
      intros [= <-].
      rewrite Forall_app in IH. destruct IH as [_ IHx].
      apply Forall_inv in IHx.
      destruct (IHx mem nk x' (eq_sym Hx) Hadd)
        as (sp & ins & Hsp & Hins & Hiff).
      exists (k ++ sp), ins.
      split; [rewrite Ekey; now apply is_prefix_app|].
      split; [exact Hins|].
      intros p. rewrite !node_paths_In. split.
      * intros [->|(c & q & Hc & Hq & ->)]; [now left; left|].
        apply in_app_or in Hc. destruct Hc as [Hc|[<-|Hc]].
        -- left. right. exists c, q. repeat split; auto.
           apply in_or_app. now left.
        -- apply Hiff in Hq. destruct Hq as [Hq|[[Hi ->]| ->]].
           ++ left. right. exists x, q. repeat split; auto.
              apply in_or_app. right. now left.
           ++ right. left. split; [exact Hi | now symmetry].
           ++ now right; right.
        -- left. right. exists c, q. repeat split; auto.
           apply in_or_app. right. now right.
      * intros [[->|(c & q & Hc & Hq & ->)]|[[Hi ->]| ->]].
        -- now left.
        -- right. apply in_app_or in Hc. destruct Hc as [Hc|[<-|Hc]].
           ++ exists c, q. repeat split; auto. apply in_or_app. now left.
           ++ exists x', q. repeat split; auto.
              ** apply in_or_app. right. now left.
              ** apply Hiff. now left.
           ++ exists c, q. repeat split; auto.
              apply in_or_app. right. now right.
        -- right. exists x', nk. repeat split; auto.
           ++ apply in_or_app. right. now left.
           ++ apply Hiff. right. left. now split.
        -- right. exists x', sp. repeat split; auto.
           ++ apply in_or_app. right. now left.
           ++ apply Hiff. right. now right.
    + destruct (hd true mem) eqn:Hok.
      2:{ (* the leaf is not allocated: the node stays as it was *)
          rewrite patricia_add_child_node_none. intros [= <-].
          exists k, false. split; [now exists nk|]. split.
          - intros Hmem. apply no_failure_hd in Hmem. congruence.
          - intros p. rewrite !node_paths_In. split; [tauto|].
            intros [H|[[Hi _]| ->]]; [exact H | discriminate Hi | now left]. }
      unfold patricia_node_init. rewrite patricia_add_child_node_scan.
      intros [= <-]. exists key, true. split; [apply is_prefix_refl|].
      split; [reflexivity|].
      intros p. rewrite !node_paths_In. split.
      * intros [->|(c & q & Hc & Hq & ->)]; [now left; left|].
        apply In_add_child_scan in Hc. destruct Hc as [->|Hc].
        -- destruct Hq as [<-|[]]. right. right. now symmetry.
        -- left. right. now exists c, q.
      * intros [[->|(c & q & Hc & Hq & ->)]|[[_ ->]| ->]].
        -- now left.
        -- right. exists c, q. repeat split; auto.
           apply In_add_child_scan. now right.
        -- right. exists (Node nk (list_create patricia_node)), nk.
           repeat split; auto; [apply In_add_child_scan|]; now left.
        -- right. exists (Node nk (list_create patricia_node)), nk.
           repeat split; auto; [apply In_add_child_scan|]; now left.
  - apply descend_false in Hd. destruct Hd as (_ & Hpos & Hcase).
    destruct (common_prefix_pos_inv key k Hpos) as (Hkey & Hk & _).
    pose proof (common_prefix_firstn key k) as Hcommon.
    pose proof (firstn_skipn (common_prefix_loop key k) k) as Hksplit.
    pose proof (firstn_skipn (common_prefix_loop key k) key) as Hkeysplit.
    destruct (Nat.ltb_spec (common_prefix_loop key k) (strlen key))
      as [Hlt|Hge].
    + rewrite !substring_tail, !substring_head by (auto; lia).
      destruct (hd true mem) eqn:Hok1; [|discriminate].
      destruct (hd true (tl mem)) eqn:Hok2.
      * cbn [bind set_children rewrite_node patricia_node_init].
        rewrite !patricia_add_child_node_scan.
        match goal with
        | |- Ret (_, Node _ ?l) = _ -> _ => remember l as l' eqn:El
        end.
        intros [= <-]. exists (firstn (common_prefix_loop key k) key), true.
        split; [now exists (skipn (common_prefix_loop key k) key)|].
        split; [reflexivity|].
        assert (forall c, In c l' <->
                  c = Node (skipn (common_prefix_loop key k) key)
                        (list_create patricia_node) \/
                  c = Node (skipn (common_prefix_loop key k) k) cs) as Hl'.
        { intros c. subst l'. rewrite In_add_child_scan. simpl.
          intuition congruence. }
        clear El.
        intros p. rewrite !node_paths_In. split.
        -- intros [->|(c & q & Hc & Hq & ->)]; [now right; right|].
           apply Hl' in Hc. destruct Hc as [->| ->].
           ++ destruct Hq as [<-|[]]. right. left.
              split; [reflexivity | exact Hkeysplit].
           ++ apply node_paths_In in Hq. rewrite Hcommon.
              destruct Hq as [->|(c & q' & Hc & Hq' & ->)].
              ** left. left. exact Hksplit.
              ** left. right. exists c, q'. repeat split; auto.
                 now rewrite app_assoc, Hksplit.
        -- intros [[->|(c & q & Hc & Hq & ->)]|[[_ ->]| ->]].
           ++ right.
              exists (Node (skipn (common_prefix_loop key k) k) cs),
                (skipn (common_prefix_loop key k) k).
              split; [apply Hl'; now right|]. split; [now left|].
              now rewrite Hcommon, Hksplit.
           ++ right.
              exists (Node (skipn (common_prefix_loop key k) k) cs),
                (skipn (common_prefix_loop key k) k ++ q).
              split; [apply Hl'; now right|]. split.
              ** apply node_paths_In. right. now exists c, q.
              ** now rewrite Hcommon, app_assoc, Hksplit.
           ++ right.
              exists (Node (skipn (common_prefix_loop key k) key)
                        (list_create patricia_node)),
                (skipn (common_prefix_loop key k) key).
              split; [apply Hl'; now left|]. split; [now left|].
              now rewrite Hkeysplit.
           ++ now left.
      * (* the new leaf is not allocated: only the split is made *)
        cbn [bind set_children rewrite_node patricia_node_init].
        rewrite patricia_add_child_node_none, patricia_add_child_node_scan.
        cbn [add_child_scan list_insert app list_create].
        intros [= <-]. exists (firstn (common_prefix_loop key k) key), false.
        split; [now exists (skipn (common_prefix_loop key k) key)|].
        split.
        { intros Hmem. apply no_failure_tl, no_failure_hd in Hmem.
          congruence. }
        intros p. rewrite !node_paths_In. split.
        -- intros [->|(c & q & [<-|[]] & Hq & ->)]; [now right; right|].
           apply node_paths_In in Hq. rewrite Hcommon.
           destruct Hq as [->|(c & q' & Hc & Hq' & ->)].
           ++ left. left. exact Hksplit.
           ++ left. right. exists c, q'. repeat split; auto.
              now rewrite app_assoc, Hksplit.
        -- intros [[->|(c & q & Hc & Hq & ->)]|[[Hi _]| ->]].
           ++ right.
              exists (Node (skipn (common_prefix_loop key k) k) cs),
                (skipn (common_prefix_loop key k) k).
              split; [now left|]. split; [now left|].
              now rewrite Hcommon, Hksplit.
           ++ right.
              exists (Node (skipn (common_prefix_loop key k) k) cs),
                (skipn (common_prefix_loop key k) k ++ q).
              split; [now left|]. split.
              ** apply node_paths_In. right. now exists c, q.
              ** now rewrite Hcommon, app_assoc, Hksplit.
           ++ discriminate Hi.
           ++ now left.
    + assert (common_prefix_loop key k = length key) as He
          by (unfold strlen in *; lia).
      destruct (Nat.eqb_spec (common_prefix_loop key k) (strlen key));
        [|unfold strlen in *; lia].
      rewrite He, firstn_all in Hcommon.
      destruct (Nat.eqb_spec (common_prefix_loop key k) (strlen k))
        as [He'|Hne'].
      * intros [= <-]. exists key, true. split; [apply is_prefix_refl|].
        split; [reflexivity|].
        assert (key = k) as -> by (apply common_prefix_full; auto).
        intros p. rewrite !node_paths_In. tauto.
      * unfold strlen in *.
        rewrite !substring_tail, !substring_head by (auto; lia).
        destruct (hd true mem) eqn:Hok; [|discriminate].
        cbn [bind set_children rewrite_node patricia_node_init].
        rewrite !patricia_add_child_node_scan. rewrite He, firstn_all.
        cbn [add_child_scan list_insert app list_create].
        intros [= <-]. exists key, true. split; [apply is_prefix_refl|].
        split; [reflexivity|].
        rewrite He in Hksplit. rewrite <- Hcommon in Hksplit.
        intros p. rewrite !node_paths_In. split.
        -- intros [->|(c & q & [<-|[]] & Hq & ->)]; [now right; right|].
           apply node_paths_In in Hq.
           destruct Hq as [->|(c & q' & Hc & Hq' & ->)].
           ++ left. left. exact Hksplit.
           ++ left. right. exists c, q'. repeat split; auto.
              now rewrite app_assoc, Hksplit.
        -- intros [[->|(c & q & Hc & Hq & ->)]|[[_ ->]| ->]].
           ++ right. exists (Node (skipn (length key) k) cs),
                (skipn (length key) k).
              split; [now left|]. split; [now left|]. now rewrite Hksplit.
           ++ right. exists (Node (skipn (length key) k) cs),
                (skipn (length key) k ++ q).
              split; [now left|]. split.
              ** apply node_paths_In. right. now exists c, q.
              ** now rewrite app_assoc, Hksplit.
           ++ now left.
           ++ now left.
Qed.

Lemma lookup_bit b n key :
  patricia_lookup_internal b n key = 0%Z \/
  patricia_lookup_internal b n key = 1%Z.
Proof.
  revert b key. induction n as [k cs IH] using patricia_node_ind.
  intros b key. rewrite patricia_lookup_internal_pick.
  destruct (descend _ _ _ _).
  - destruct (substring _ _ _) as [nk|]; [|now left].
    destruct (pick _ cs) as [x|] eqn:Hp; [|now left].
    apply pick_some in Hp. destruct Hp as [Hx _].
    rewrite Forall_forall in IH. now apply IH.
  - destruct (_ =? _); auto.
Qed.

Lemma add_alloc_paths_root mem r key r' :
  node_key r = [] ->
  patricia_add_internal_alloc mem true r key = Ret (0%Z, r') ->
  exists sp,
    is_prefix sp key /\
    (forall p, p <> key ->
               (In p (flat_map node_paths (node_children r')) <->
                In p (flat_map node_paths (node_children r)) \/ p = sp)) /\
    (In key (flat_map node_paths (node_children r)) ->
     In key (flat_map node_paths (node_children r'))) /\
    (no_failure mem -> In key (flat_map node_paths (node_children r'))).
Proof.
  destruct r as [k cs]. cbn [node_key node_children]. intros ->.
  rewrite patricia_add_internal_alloc_eq. cbv zeta.
  rewrite common_prefix_nil_r. cbn [descend orb].
  destruct key as [|c key]; [discriminate|].
  rewrite substring_tail by (simpl; try discriminate; lia). cbn [skipn].
  destruct (find_child _ cs) as [[[pre x] post]|] eqn:Hf.
  - apply find_child_some in Hf. destruct Hf as (-> & Hx & _).
    destruct (patricia_add_internal_alloc mem false x (c :: key))
      as [[r x']|] eqn:Hadd; [|discriminate].
    cbn [bind]. destruct (Z.eqb_spec r 0) as [->|]; [|discriminate].
    intros [= <-]. cbn [node_children].
    destruct (add_alloc_paths_below x mem (c :: key) x' (eq_sym Hx) Hadd)
      as (sp & ins & Hsp & Hins & Hiff).
    exists sp. split; [exact Hsp|]. rewrite !flat_map_app. cbn [flat_map].
    split; [|split].
    + intros p Hp. rewrite !in_app_iff, Hiff. tauto.
    + rewrite !in_app_iff, Hiff. tauto.
    + intros Hmem. rewrite !in_app_iff, Hiff. specialize (Hins Hmem). tauto.
  - destruct (hd true mem) eqn:Hok.
    + unfold patricia_node_init. rewrite patricia_add_child_node_scan.
      intros [= <-]. cbn [node_children]. exists (c :: key).
      split; [apply is_prefix_refl|].
      assert (forall p,
                In p (flat_map node_paths
                        (add_child_scan
                           (Node (c :: key) (list_create patricia_node)) cs))
                <-> In p (flat_map node_paths cs) \/ p = c :: key) as Hiff.
      { intros p. rewrite !in_flat_map. split.
        - intros (n & Hn & Hp). apply In_add_child_scan in Hn.
          destruct Hn as [->|Hn].
          + destruct Hp as [<-|[]]. now right.
          + left. now exists n.
        - intros [(n & Hn & Hp)| ->].
          + exists n. split; [apply In_add_child_scan; now right | exact Hp].
          + exists (Node (c :: key) (list_create patricia_node)).
            split; [apply In_add_child_scan|]; now left. }
      split; [|split].
      * intros p _. apply Hiff.
      * intros H. apply Hiff. now left.
      * intros _. apply Hiff. now right.
    + (* the leaf is not allocated: the tree stays as it was *)
      rewrite patricia_add_child_node_none. intros [= <-].
      cbn [node_children]. exists (c :: key).
      split; [apply is_prefix_refl|]. split; [|split].
      * intros p Hp. tauto.
      * auto.
      * intros Hmem. apply no_failure_hd in Hmem. congruence.
Qed.

(** X7.  Whatever the outcome of its allocations, a [patricia_add] into a
    reachable tree that reports 0 changes what [patricia_lookup] finds at
    two keys at most: the key added and one prefix of it, the place where a
    fragment has been split.  Every key other than the added one is found
    afterwards exactly when it was found before or is that prefix.  The
    added key stays found if it was, and it is found when no call of
    [patricia_node_init] has failed. *)
Theorem add_changes_lookup_at_key_only mem t k t' :
  reachable t ->
  patricia_add_alloc mem (Some t) (Some k) = Ret (0%Z, Some t') ->
  exists sp,
    is_prefix sp k /\
    (forall k',
        k' <> k ->
        (patricia_lookup (Some t') (Some k') = Ret 1%Z <->
         patricia_lookup (Some t) (Some k') = Ret 1%Z \/ k' = sp)) /\
    (patricia_lookup (Some t) (Some k) = Ret 1%Z ->
     patricia_lookup (Some t') (Some k) = Ret 1%Z) /\
    (no_failure mem -> patricia_lookup (Some t') (Some k) = Ret 1%Z).
Proof.
  intros Hr Hadd. apply reachable_wf in Hr.
  cbn [patricia_add_alloc] in Hadd.
  destruct (patricia_add_internal_alloc mem true (root t) k)
    as [[r n]|] eqn:E; [|discriminate].
  cbn [bind] in Hadd. injection Hadd as -> <-.
  destruct (patricia_add_internal_alloc_wf (root t) mem true k 0%Z n Hr E)
    as [Hr' _].
  destruct (add_alloc_paths_root mem (root t) k n (proj1 Hr) E)
    as (sp & Hsp & Hiff & Hkeep & Hin).
  exists sp. split; [exact Hsp|].
  assert (forall k', patricia_lookup (Some (Tree n)) (Some k') = Ret 1%Z <->
                     In k' (flat_map node_paths (node_children n))) as H'.
  { intros k'. simpl. rewrite <- (lookup_root_paths n k' Hr').
    split; [now intros [= ->] | now intros ->]. }
  assert (forall k', patricia_lookup (Some t) (Some k') = Ret 1%Z <->
                     In k' (flat_map node_paths (node_children (root t))))
    as H.
  { intros k'. simpl. rewrite <- (lookup_root_paths (root t) k' Hr).
    split; [now intros [= ->] | now intros ->]. }
  split; [|split].
  - intros k' Hk'. rewrite H', H. now apply Hiff.
  - rewrite H', H. exact Hkeep.
  - rewrite H'. exact Hin.
Qed.

(** X7 at work.  "car" added to the tree of "cat" makes "car" and "ca"
    found; when the leaf for "car" cannot be allocated, the status is 0 all
    the same and "ca" alone becomes found. *)
Lemma add_changes_lookup_at_key_only_witness :
  reachable tree_cat /\
  patricia_add_alloc [] (Some tree_cat) (Some (cstr "car"))
  = Ret (0%Z, Some tree_cat_car) /\
  patricia_add_alloc [true; false] (Some tree_cat) (Some (cstr "car"))
  = Ret (0%Z, Some (Tree (Node [] [Node (cstr "ca") [Node (cstr "t") []]])))
  /\
  exists sp,
    is_prefix sp (cstr "car") /\
    forall k',
      k' <> cstr "car" ->
      (patricia_lookup (Some tree_cat_car) (Some k') = Ret 1%Z <->
       patricia_lookup (Some tree_cat) (Some k') = Ret 1%Z \/ k' = sp).
Proof.
  split; [exact tree_cat_reachable|]. split; [reflexivity|].
  split; [reflexivity|].
  destruct (add_changes_lookup_at_key_only [] tree_cat (cstr "car")
              tree_cat_car tree_cat_reachable eq_refl)
    as (sp & Hsp & Hiff & _).
  exists sp. now split.
Defined.

(** X18.  Whatever the outcome of its allocations and whatever its
    status, [patricia_add] on a reachable tree leaves a tree in which the
    children of every node are strictly ascending for [strcmp], no two of
    them share their leading byte, and no fragment is a prefix of a
    sibling's. *)
Theorem add_alloc_keeps_siblings_invariant mem t key ret t' n :
  reachable t ->
  patricia_add_alloc mem (Some t) key = Ret (ret, Some t') ->
  node_in n (root t') ->
  ascending (node_children n) /\
  leading_bytes_distinct (node_children n) /\
  prefix_free (node_children n).
Proof.
  intros Hr Hadd Hin. apply reachable_wf in Hr.
  assert (wf_at true (root t')) as Hr'.
  { destruct key as [k|]; cbn [patricia_add_alloc] in Hadd.
    - destruct (patricia_add_internal_alloc mem true (root t) k)
        as [[r m]|] eqn:E; [|discriminate].
      cbn [bind] in Hadd. injection Hadd as _ <-. cbn [root].
      now apply (patricia_add_internal_alloc_wf (root t) mem true k r m Hr).
    - injection Hadd as _ <-. exact Hr. }
  destruct (node_in_siblings true (root t') n Hr' Hin) as [Hs Hall].
  now apply siblings_ok_facts.
Qed.

(** X18 at work: the leaf for "car" cannot be allocated, and the node "ca"
    is left with the one child "t". *)
Lemma add_alloc_keeps_siblings_invariant_witness :
  reachable tree_cat /\
  patricia_add_alloc [true; false] (Some tree_cat) (Some (cstr "car"))
  = Ret (0%Z, Some (Tree (Node [] [Node (cstr "ca") [Node (cstr "t") []]])))
  /\
  ascending [Node (cstr "t") []] /\
  leading_bytes_distinct [Node (cstr "t") []] /\
  prefix_free [Node (cstr "t") []].
Proof.
  split; [exact tree_cat_reachable|]. split; [reflexivity|].
  apply (add_alloc_keeps_siblings_invariant [true; false] tree_cat
           (Some (cstr "car")) 0%Z
           (Tree (Node [] [Node (cstr "ca") [Node (cstr "t") []]]))
           (Node (cstr "ca") [Node (cstr "t") []])
           tree_cat_reachable eq_refl).
  apply (node_in_child _ (Node (cstr "ca") [Node (cstr "t") []])).
  - now left.
  - apply node_in_here.
Defined.

(** ** An insertion that runs out of memory

    What [patricia_add_internal] leaves behind when a call of
    [patricia_node_init] fails is a tree that calls without failure
    build as well. *)




(** ** What a deletion removes *)

Lemma is_prefix_app_inv k a b : is_prefix (k ++ a) (k ++ b) -> is_prefix a b.
Proof.
  intros [s E]. exists s. rewrite <- app_assoc in E.
  now apply app_inv_head in E.
Qed.

Lemma is_prefix_longer a s : s <> [] -> ~ is_prefix (a ++ s) a.
Proof.
  intros Hs [u E]. apply (f_equal (@length _)) in E.
  rewrite !length_app in E. destruct s; [congruence|]. simpl in E. lia.
Qed.

(** The paths below a sibling that starts with another byte do not begin
    with the key that is looked for. *)
Lemma other_sibling_paths c nk q :
  node_key c <> [] -> nk <> [] ->
  first_char (node_key c) <> first_char nk ->
  In q (node_paths c) -> ~ is_prefix nk q.
Proof.
  intros Hc Hnk Hne Hq Hp.
  apply node_paths_start in Hq.
  apply is_prefix_first_char in Hq, Hp; auto. congruence.
Qed.

Lemma delete_paths cur :
  forall b key,
    wf_at b cur ->
    (b = false -> first_char key = first_char (node_key cur)) ->
    key <> node_key cur ->
    (fst (patricia_delete_internal b cur key) = 0%Z /\
     In key (node_paths cur) /\
     forall p, In p (node_paths (snd (patricia_delete_internal b cur key)))
               <-> In p (node_paths cur) /\ ~ is_prefix key p) \/
    (patricia_delete_internal b cur key = ((-1)%Z, cur) /\
     ~ In key (node_paths cur)).
Proof.
  induction cur as [k cs IH] using patricia_node_ind.
  intros b key Hwf Hfc Hkey. cbn [node_key] in *.
  destruct Hwf as (Hk & Hsib & Hall). cbn [node_key node_children] in *.
  rewrite patricia_delete_internal_eq. cbv zeta.
  assert (forall c q, In c cs -> In q (node_paths c) -> q <> []) as Hq_ne.
  { intros c q Hc Hq Eq. subst q. rewrite Forall_forall in Hall.
    destruct (wf_node_children c (Hall c Hc)) as (Hkc & _).
    apply node_paths_start in Hq. destruct Hq as [s Hs].
    destruct (node_key c); [congruence | discriminate]. }
  destruct (descend b (common_prefix_loop key k) key k) eqn:Hd.
  - destruct (substring key _ _) as [nk|] eqn:Hs.
    2:{ right. split; [reflexivity|].
        assert (key = []) as ->.
        { destruct key as [|a key]; [reflexivity|].
          rewrite substring_tail in Hs;
            [discriminate | discriminate | apply common_prefix_le_l]. }
        intros H. apply node_paths_In in H.
        destruct H as [E|(c & q & Hc & Hq & E)]; [congruence|].
        symmetry in E. apply app_eq_nil in E. destruct E as [_ E].
        now apply (Hq_ne c q). }
    pose proof (substring_some_nonempty _ _ _ _ Hs) as Hkne.
    assert (key = k ++ nk /\ nk <> []) as [Ekey Hnk].
    { destruct b.
      - subst k. rewrite common_prefix_nil_r in Hs.
        rewrite substring_tail in Hs by (auto; lia). injection Hs as <-.
        now split.
      - destruct (descend_below k key (Hfc eq_refl) Hkne Hd)
          as (nk' & E & Hne & Hs').
        rewrite Hs in Hs'. injection Hs' as <-. now split. }
    destruct (find_child (first_char nk) cs) as [[[pre x] post]|] eqn:Hf.
    + apply find_child_some in Hf. destruct Hf as (Ecs & Hx & Hpre).
      subst cs. pose proof (siblings_rest_other _ _ _ Hsib) as Hpost.
      rewrite Hx in Hpost.
      rewrite Forall_app in IH, Hall. destruct IH as [_ IHx].
      destruct Hall as [Hall1 Hall2].
      apply Forall_inv in IHx.
      pose proof (Forall_inv Hall2) as Hwx.
      apply Forall_inv_tail in Hall2.
      destruct (wf_node_children x Hwx) as (Hkx & _).
      assert (forall c q, In c (pre ++ post) -> In q (node_paths c) ->
                          ~ is_prefix nk q) as Hothers.
      { intros c q Hc Hq. apply in_app_or in Hc.
        rewrite Forall_forall in Hpre, Hpost, Hall1, Hall2.
        apply (other_sibling_paths c nk q); auto.
        - destruct Hc as [Hc|Hc];
            [apply (wf_node_children c (Hall1 c Hc))
            | apply (wf_node_children c (Hall2 c Hc))].
        - destruct Hc as [Hc|Hc]; [now apply Hpre | now apply Hpost]. }
      destruct (Z.eqb_spec (strcmp (node_key x) nk) 0) as [He|Hne].
      * apply strcmp_eq in He. left. cbn [fst snd].
        split; [reflexivity|]. split.
        { apply node_paths_In. right. exists x, nk.
          split; [apply in_or_app; right; now left|].
          split; [|exact Ekey]. rewrite <- He. destruct x. now left. }
        intros p. rewrite !node_paths_In. rewrite Ekey. split.
        -- intros [->|(c & q & Hc & Hq & ->)].
           ++ split; [now left|]. now apply is_prefix_longer.
           ++ split.
              ** right. exists c, q. repeat split; auto.
                 apply in_app_or in Hc. apply in_or_app.
                 destruct Hc; [now left | now right; right].
              ** intros Hp. apply is_prefix_app_inv in Hp.
                 now apply (Hothers c q).
        -- intros [[->|(c & q & Hc & Hq & ->)] Hnp]; [now left|].
           right. exists c, q. repeat split; auto.
           apply in_app_or in Hc. destruct Hc as [Hc|[<-|Hc]].
           ++ apply in_or_app. now left.
           ++ exfalso. apply Hnp. apply is_prefix_app.
              rewrite <- He. now apply node_paths_start.
           ++ apply in_or_app. now right.
      * assert (nk <> node_key x) as Hdiff.
        { intros E. apply Hne. apply strcmp_eq. now symmetry. }
        apply wf_at_false in Hwx.
        destruct (IHx false nk Hwx (fun _ => eq_sym Hx) Hdiff)
          as [(Hret & Hin & Hiff)|(Hsame & Hnin)].
        -- left. cbn [fst snd]. split; [exact Hret|]. split.
           { apply node_paths_In. right. exists x, nk.
             split; [apply in_or_app; right; now left|]. now split. }
           intros p. rewrite !node_paths_In. rewrite Ekey. split.
           ++ intros [->|(c & q & Hc & Hq & ->)].
              ** split; [now left|]. now apply is_prefix_longer.
              ** apply in_app_or in Hc. destruct Hc as [Hc|[<-|Hc]].
                 --- split.
                     +++ right. exists c, q. repeat split; auto.
                         apply in_or_app. now left.
                     +++ intros Hp. apply is_prefix_app_inv in Hp.
                         apply (Hothers c q); auto.
                         apply in_or_app. now left.
                 --- apply Hiff in Hq. destruct Hq as [Hq Hnp]. split.
                     +++ right. exists x, q. repeat split; auto.
                         apply in_or_app. right. now left.
                     +++ intros Hp. now apply is_prefix_app_inv in Hp.
                 --- split.
                     +++ right. exists c, q. repeat split; auto.
                         apply in_or_app. right. now right.
                     +++ intros Hp. apply is_prefix_app_inv in Hp.
                         apply (Hothers c q); auto.
                         apply in_or_app. now right.
           ++ intros [[->|(c & q & Hc & Hq & ->)] Hnp]; [now left|].
              right. apply in_app_or in Hc. destruct Hc as [Hc|[<-|Hc]].
              ** exists c, q. repeat split; auto. apply in_or_app. now left.
              ** exists (snd (patricia_delete_internal false x nk)), q.
                 split; [apply in_or_app; right; now left|].
                 split; [|reflexivity]. apply Hiff. split; [exact Hq|].
                 intros Hp. apply Hnp. now apply is_prefix_app.
              ** exists c, q. repeat split; auto.
                 apply in_or_app. right. now right.
        -- right. rewrite Hsame. cbn [fst snd]. split; [reflexivity|].
           intros H. apply node_paths_In in H.
           destruct H as [E|(c & q & Hc & Hq & E)]; [congruence|].
           rewrite Ekey in E. apply app_inv_head in E. subst q.
           apply in_app_or in Hc. destruct Hc as [Hc|[<-|Hc]].
           ++ apply (Hothers c nk); [apply in_or_app; now left | exact Hq|].
              apply is_prefix_refl.
           ++ contradiction.
           ++ apply (Hothers c nk); [apply in_or_app; now right | exact Hq|].
              apply is_prefix_refl.
    + right. split; [reflexivity|]. apply find_child_none in Hf.
      intros H. apply node_paths_In in H.
      destruct H as [E|(c & q & Hc & Hq & E)]; [congruence|].
      rewrite Ekey in E. apply app_inv_head in E. subst q.
      rewrite Forall_forall in Hf, Hall.
      destruct (wf_node_children c (Hall c Hc)) as (Hkc & _).
      apply (other_sibling_paths c nk nk); auto.
      * now apply Hf.
      * apply is_prefix_refl.
  - right. split; [reflexivity|].
    apply descend_false in Hd. destruct Hd as (-> & Hpos & Hcase).
    intros H. apply node_paths_In in H.
    destruct H as [E|(c & q & Hc & Hq & E)]; [congruence|].
    pose proof (Hq_ne c q Hc Hq) as Hqne. subst key.
    rewrite common_prefix_extension, length_app in Hcase.
    destruct q; [congruence|]. simpl in Hcase. lia.
Qed.

Lemma root_paths r p :
  wf_at true r ->
  (In p (flat_map node_paths (node_children r)) <->
   In p (node_paths r) /\ p <> []).
Proof.
  destruct r as [k cs]. intros (Hk & _ & Hall).
  cbn [node_key node_children] in *. subst k.
  rewrite node_paths_In, in_flat_map. rewrite Forall_forall in Hall.
  split.
  - intros (c & Hc & Hp). split; [right; now exists c, p|].
    intros ->. destruct (wf_node_children c (Hall c Hc)) as (Hkc & _).
    apply node_paths_start in Hp. destruct Hp as [s Hs].
    destruct (node_key c); [congruence | discriminate].
  - intros [[->|(c & q & Hc & Hq & ->)] Hne]; [congruence|]. now exists c.
Qed.

Lemma delete_root t k :
  reachable t -> k <> [] ->
  (fst (patricia_delete_internal true (root t) k) = 0%Z /\
   In k (stored_paths t) /\
   forall p,
     In p (flat_map node_paths
             (node_children (snd (patricia_delete_internal true (root t) k))))
     <-> In p (stored_paths t) /\ ~ is_prefix k p) \/
  (patricia_delete_internal true (root t) k = ((-1)%Z, root t) /\
   ~ In k (stored_paths t)).
Proof.
  intros Hr Hk. apply reachable_wf in Hr. unfold stored_paths.
  pose proof (patricia_delete_internal_wf (root t) true k Hr) as Hwf'.
  assert (k <> node_key (root t)) as Hne
      by (destruct Hr as (-> & _); exact Hk).
  destruct (delete_paths (root t) true k Hr
              (fun H => False_ind _ (Bool.diff_true_false H)) Hne)
    as [(Hret & Hin & Hiff)|(Hsame & Hnin)].
  - left. split; [exact Hret|]. split; [now apply root_paths|].
    intros p. rewrite !root_paths by assumption. rewrite Hiff. tauto.
  - right. split; [exact Hsame|]. intros H. apply Hnin.
    now apply root_paths in H.
Qed.

(** X8.  In a reachable tree [patricia_delete] of a key that
    [patricia_lookup] finds reports success, and afterwards a key is found
    exactly when it was found before and does not begin with the deleted
    key: the key goes with everything below it, and nothing else goes. *)
Theorem delete_removes_the_keys_below t k :
  reachable t ->
  patricia_lookup (Some t) (Some k) = Ret 1%Z ->
  exists t',
    patricia_delete (Some t) (Some k) = (0%Z, Some t') /\
    forall k',
      patricia_lookup (Some t') (Some k') = Ret 1%Z <->
      patricia_lookup (Some t) (Some k') = Ret 1%Z /\ ~ is_prefix k k'.
Proof.
  intros Hr Hlook. pose proof (reachable_wf t Hr) as Hwf.
  simpl in Hlook. injection Hlook as Hlook.
  apply (lookup_root_paths (root t) k Hwf) in Hlook.
  assert (k <> []) as Hk.
  { intros ->. now apply (root_paths (root t) [] Hwf) in Hlook. }
  pose proof (patricia_delete_internal_wf (root t) true k Hwf) as Hwf'.
  destruct (delete_root t k Hr Hk) as [(Hret & _ & Hiff)|(_ & Hnin)];
    [|contradiction].
  exists (Tree (snd (patricia_delete_internal true (root t) k))). split.
  - simpl. destruct (patricia_delete_internal true (root t) k) as [r n].
    simpl in Hret. now subst r.
  - intros k'. simpl.
    pose proof (lookup_root_paths _ k' Hwf') as H'.
    pose proof (lookup_root_paths _ k' Hwf) as H.
    split.
    + intros [= E]. apply H', Hiff in E. destruct E as [E Hnp].
      split; [f_equal; now apply H | exact Hnp].
    + intros [[= E] Hnp]. f_equal. apply H', Hiff.
      split; [now apply H | exact Hnp].
Qed.

(** X8 at work: "ca" deleted from the tree of "cat", "car" and "dog". *)
Lemma delete_removes_the_keys_below_witness :
  reachable tree_cat_car_dog /\
  patricia_lookup (Some tree_cat_car_dog) (Some (cstr "ca")) = Ret 1%Z /\
  exists t',
    patricia_delete (Some tree_cat_car_dog) (Some (cstr "ca"))
    = (0%Z, Some t') /\
    forall k',
      patricia_lookup (Some t') (Some k') = Ret 1%Z <->
      patricia_lookup (Some tree_cat_car_dog) (Some k') = Ret 1%Z /\
      ~ is_prefix (cstr "ca") k'.
Proof.
  split; [exact tree_cat_car_dog_reachable|]. split; [reflexivity|].
  apply (delete_removes_the_keys_below tree_cat_car_dog (cstr "ca")).
  - exact tree_cat_car_dog_reachable.
  - reflexivity.
Defined.

(** X9.  In a reachable tree [patricia_delete] of a key that
    [patricia_lookup] does not find reports -1 and leaves the tree as it
    was. *)
Theorem delete_missing_key t k :
  reachable t ->
  patricia_lookup (Some t) (Some k) = Ret 0%Z ->
  patricia_delete (Some t) (Some k) = ((-1)%Z, Some t).
Proof.
  intros Hr Hlook. pose proof (reachable_wf t Hr) as Hwf.
  simpl in Hlook. injection Hlook as Hlook.
  destruct k as [|c k].
  - destruct t as [[rk cs]]. destruct Hwf as (Hrk & _). simpl in Hrk.
    now subst rk.
  - destruct (delete_root t (c :: k) Hr) as [(_ & Hin & _)|(Hsame & _)];
      [discriminate | |].
    + apply (lookup_root_paths (root t) (c :: k) Hwf) in Hin. congruence.
    + simpl. rewrite Hsame. now destruct t.
Qed.

(** X9 at work: "cab" is not in the tree of "cat", "car" and "dog". *)
Lemma delete_missing_key_witness :
  reachable tree_cat_car_dog /\
  patricia_lookup (Some tree_cat_car_dog) (Some (cstr "cab")) = Ret 0%Z /\
  patricia_delete (Some tree_cat_car_dog) (Some (cstr "cab"))
  = ((-1)%Z, Some tree_cat_car_dog).
Proof.
  split; [exact tree_cat_car_dog_reachable|]. split; [reflexivity|].
  apply (delete_missing_key tree_cat_car_dog (cstr "cab")).
  - exact tree_cat_car_dog_reachable.
  - reflexivity.
Defined.

(** ** The empty key and keys that are not found *)

(** X10.  The empty key is no key of any tree: [patricia_lookup] does not
    find it, [patricia_add] and [patricia_delete] report -1 for it and
    leave the tree as it was, and both enumerations report -1 for the
    empty prefix and leave the buffer as it was. *)
Theorem empty_key_is_refused t :
  patricia_lookup (Some t) (Some []) = Ret 0%Z /\
  patricia_add (Some t) (Some []) = Ret ((-1)%Z, Some t) /\
  patricia_delete (Some t) (Some []) = ((-1)%Z, Some t) /\
  (forall buf,
      patricia_lookup_prefix_full (Some t) (Some []) buf
      = Ret ((-1)%Z, buf)) /\
  (forall buf,
      patricia_lookup_prefix_partial (Some t) (Some []) buf
      = Ret ((-1)%Z, buf)).
Proof.
  destruct t as [[k cs]]. repeat split; intros [buf|]; reflexivity.
Qed.

Lemma lookup_node_agrees cur :
  forall b key,
    (patricia_lookup_internal b cur key = 1%Z <->
     exists n, patricia_lookup_node_internal b cur key = Some n) /\
    (patricia_lookup_internal b cur key = 0%Z <->
     patricia_lookup_node_internal b cur key = None).
Proof.
  induction cur as [k cs IH] using patricia_node_ind.
  intros b key.
  rewrite patricia_lookup_internal_eq, patricia_lookup_node_internal_eq.
  cbv zeta. destruct (descend _ _ _ _).
  - destruct (substring _ _ _) as [nk|].
    + destruct (find_child _ cs) as [[[pre x] post]|] eqn:Hf.
      * apply find_child_some in Hf. destruct Hf as (-> & _ & _).
        rewrite Forall_app in IH. destruct IH as [_ IHx].
        apply Forall_inv in IHx. apply IHx.
      * split; split; try discriminate; auto. intros [n H]. discriminate.
    + split; split; try discriminate; auto. intros [n H]. discriminate.
  - destruct (_ =? _); split; split; try discriminate; eauto.
    intros [n H]. discriminate.
Qed.

(** X11.  An enumeration resolves its prefix as [patricia_lookup] does.
    For a prefix that lookup does not find, both enumerations report -1 and
    leave the buffer as it was.  For a prefix that lookup finds, the full
    enumeration never reports -1, with a buffer or with [NULL] for one, and
    the partial enumeration never reports -1 when it is given a buffer.
    Given [NULL] for the buffer, the partial enumeration reports -1
    whatever the prefix. *)
Theorem enumeration_status_follows_lookup t p :
  (patricia_lookup (Some t) (Some p) = Ret 0%Z ->
   forall buf,
     patricia_lookup_prefix_full (Some t) (Some p) buf = Ret ((-1)%Z, buf) /\
     patricia_lookup_prefix_partial (Some t) (Some p) buf
     = Ret ((-1)%Z, buf)) /\
  (patricia_lookup (Some t) (Some p) = Ret 1%Z ->
   forall buf res_list ret out,
     (patricia_lookup_prefix_full (Some t) (Some p) buf = Ret (ret, out) ->
      ret = 0%Z) /\
     (patricia_lookup_prefix_partial (Some t) (Some p) (Some res_list)
      = Ret (ret, out) -> ret = 0%Z)) /\
  patricia_lookup_prefix_partial (Some t) (Some p) None
  = Ret ((-1)%Z, None).
Proof.
  destruct (lookup_node_agrees (root t) true p) as [H1 H0].
  split; [|split; [|reflexivity]].
  - intros [= E]. apply H0 in E. intros buf.
    unfold patricia_lookup_prefix_full, patricia_lookup_prefix_partial,
      patricia_lookup_node. rewrite E. split; [reflexivity|].
    now destruct buf.
  - intros [= E]. apply H1 in E. destruct E as [n E].
    intros buf res_list ret out.
    unfold patricia_lookup_prefix_full, patricia_lookup_prefix_partial,
      patricia_lookup_node. rewrite E. split; intros H.
    + destruct (strstr p (node_key n)); [|discriminate].
      inv_bind H. destruct buf as [b|]; [|now injection H as <-].
      inv_bind H. destruct a0. now injection H as <-.
    + inv_bind H. destruct a. now injection H as <-.
Qed.

(** X11 at work on the tree of "cat", "car" and "dog": "c" is not found,
    "ca" is. *)
Lemma enumeration_status_follows_lookup_witness :
  patricia_lookup (Some tree_cat_car_dog) (Some (cstr "c")) = Ret 0%Z /\
  patricia_lookup_prefix_full (Some tree_cat_car_dog) (Some (cstr "c"))
    (Some (cstr "dog ")) = Ret ((-1)%Z, Some (cstr "dog ")) /\
  patricia_lookup_prefix_partial (Some tree_cat_car_dog) (Some (cstr "c"))
    (Some (cstr "dog ")) = Ret ((-1)%Z, Some (cstr "dog ")).
Proof.
  split; [reflexivity|].
  exact (proj1 (enumeration_status_follows_lookup tree_cat_car_dog (cstr "c"))
           eq_refl (Some (cstr "dog "))).
Defined.

(** ** The node a prefix resolves to, and the tokens below it *)

Lemma starts_with_app f x : starts_with f (f ++ x) = true.
Proof.
  induction f as [|c f IH]; [reflexivity|]. simpl.
  now rewrite Ascii.eqb_refl, IH.
Qed.

Lemma strstr_eq hay needle :
  strstr hay needle =
  if starts_with needle hay then Some 0
  else match hay with
       | [] => None
       | _ :: hay' => option_map S (strstr hay' needle)
       end.
Proof. destruct hay; reflexivity. Qed.

Lemma strstr_suffix q f :
  exists i, strstr (q ++ f) f = Some i /\ i <= length q.
Proof.
  induction q as [|c q IH].
  - exists 0. split; [|lia]. cbn [app]. rewrite strstr_eq.
    pose proof (starts_with_app f []) as H. rewrite app_nil_r in H.
    now rewrite H.
  - destruct IH as (i & Hi & Hle). rewrite strstr_eq. cbn [app].
    destruct (starts_with f (c :: q ++ f)).
    + exists 0. split; [reflexivity | lia].
    + rewrite Hi. exists (S i). split; [reflexivity | simpl; lia].
Qed.

Lemma leaf_paths_node_paths n p : In p (leaf_paths n) -> In p (node_paths n).
Proof.
  revert p. induction n as [k cs IH] using patricia_node_ind.
  intros p. rewrite leaf_paths_eq, node_paths_In.
  destruct (list_empty cs).
  - intros [<-|[]]. now left.
  - rewrite in_map_iff. intros (q & <- & Hq). right.
    apply in_flat_map in Hq. destruct Hq as (c & Hc & Hq).
    rewrite Forall_forall in IH. exists c, q. repeat split; auto.
Qed.

Lemma leaf_paths_not_nil n : leaf_paths n <> [].
Proof.
  induction n as [k cs IH] using patricia_node_ind.
  rewrite leaf_paths_eq. destruct cs as [|c cs]; [discriminate|].
  cbn [list_empty flat_map]. apply Forall_inv in IH.
  destruct (leaf_paths c); [congruence | discriminate].
Qed.

Lemma resolve_below cur :
  forall key n,
    first_char key = first_char (node_key cur) ->
    patricia_lookup_node_internal false cur key = Some n ->
    exists q,
      key = q ++ node_key n /\ node_key n <> [] /\
      forall lp, In lp (node_paths n) -> In (q ++ lp) (node_paths cur).
Proof.
  induction cur as [k cs IH] using patricia_node_ind.
  intros key n Hfc. cbn [node_key] in Hfc.
  rewrite patricia_lookup_node_internal_eq. cbv zeta.
  destruct (descend false (common_prefix_loop key k) key k) eqn:Hd.
  - destruct (substring key _ _) as [nk|] eqn:Hs; [|discriminate].
    pose proof (substring_some_nonempty _ _ _ _ Hs) as Hkey.
    destruct (descend_below k key Hfc Hkey Hd) as (nk' & Ekey & Hnk & Hs').
    rewrite Hs in Hs'. injection Hs' as <-.
    destruct (find_child _ cs) as [[[pre x] post]|] eqn:Hf; [|discriminate].
    apply find_child_some in Hf. destruct Hf as (-> & Hx & _).
    rewrite Forall_app in IH. destruct IH as [_ IHx].
    apply Forall_inv in IHx. intros H.
    destruct (IHx nk n (eq_sym Hx) H) as (q & Eq & Hn & Hpaths).
    exists (k ++ q). split; [now rewrite Ekey, Eq, app_assoc|].
    split; [exact Hn|]. intros lp Hlp. apply node_paths_In. right.
    exists x, (q ++ lp). split; [apply in_or_app; right; now left|].
    split; [now apply Hpaths | now rewrite app_assoc].
  - apply descend_false in Hd. destruct Hd as (_ & Hpos & Hcase).
    pose proof (common_prefix_le_l key k).
    destruct (Nat.eqb_spec (common_prefix_loop key k) (strlen k)) as [E|];
      [|discriminate].
    intros [= <-]. unfold strlen in E. exists []. cbn [node_key app].
    split; [apply common_prefix_full; lia|]. split; [|auto].
    now destruct (common_prefix_pos_inv key k Hpos) as (_ & ? & _).
Qed.

Lemma resolve_root t p n :
  reachable t -> patricia_lookup_node t p = Some n ->
  exists q,
    p = q ++ node_key n /\ node_key n <> [] /\
    forall lp, In lp (node_paths n) -> In (q ++ lp) (stored_paths t).
Proof.
  intros Hr. apply reachable_wf in Hr. unfold patricia_lookup_node,
    stored_paths.
  destruct (root t) as [k cs]. destruct Hr as (Hk & _).
  cbn [node_key node_children] in *. subst k.
  rewrite patricia_lookup_node_internal_eq. cbv zeta.
  rewrite common_prefix_nil_r. cbn [descend orb].
  destruct p as [|c p]; [discriminate|].
  rewrite substring_tail by (simpl; try discriminate; lia). cbn [skipn].
  destruct (find_child _ cs) as [[[pre x] post]|] eqn:Hf; [|discriminate].
  apply find_child_some in Hf. destruct Hf as (-> & Hx & _). intros H.
  destruct (resolve_below x (c :: p) n (eq_sym Hx) H) as (q & Eq & Hn & Hp).
  exists q. split; [exact Eq|]. split; [exact Hn|]. intros lp Hlp.
  apply in_flat_map. exists x. split; [|now apply Hp].
  apply in_or_app. right. now left.
Qed.

Lemma key_count_leaf_paths n :
  patricia_get_key_count n = length (leaf_paths n).
Proof.
  induction n as [k cs IH] using patricia_node_ind.
  rewrite leaf_paths_eq. cbn [patricia_get_key_count].
  assert ((fix walk (l : list patricia_node) : nat :=
             match l with
             | [] => 0
             | child :: next => patricia_get_key_count child + walk next
             end) cs = length (flat_map leaf_paths cs)) as ->.
  { induction IH as [|c cs Hc _ IHcs]; [reflexivity|].
    cbn [flat_map]. now rewrite length_app, Hc, IHcs. }
  destruct cs as [|c cs]; cbn [list_empty]; [reflexivity|].
  rewrite length_map. apply Nat.add_0_r.
Qed.

(** X12.  A successful full enumeration on a reachable tree has found
    the fragment of the resolved node in the prefix, no later than where
    the fragment stands at the end of the prefix, and has appended as many
    tokens as [patricia_get_key_count] counts below that node, one at
    least.  When the fragment does not occur earlier in the prefix, every
    token begins with the prefix and is a key that [patricia_lookup]
    finds. *)
Theorem full_enumeration_tokens t p buf out :
  reachable t ->
  patricia_lookup_prefix_full (Some t) (Some p) (Some buf)
  = Ret (0%Z, Some out) ->
  exists node q keylen toks,
    patricia_lookup_node t p = Some node /\
    p = q ++ node_key node /\
    strstr p (node_key node) = Some keylen /\ keylen <= length q /\
    out = buf ++ join_tokens toks /\
    length toks = patricia_get_key_count node /\ toks <> [] /\
    (keylen = length q ->
     forall tok, In tok toks ->
       is_prefix p tok /\
       patricia_lookup (Some t) (Some tok) = Ret 1%Z).
Proof.
  intros Hr H. cbn [patricia_lookup_prefix_full] in H.
  destruct (patricia_lookup_node t p) as [node|] eqn:Hn; [|discriminate].
  destruct (resolve_root t p node Hr Hn) as (q & Ep & Hne & Hpaths).
  destruct (strstr_suffix q (node_key node)) as (i & Hi & Hle).
  rewrite <- Ep in Hi. rewrite Hi in H.
  inv_bind H. apply store_ret in E. subst a.
  inv_bind H. destruct a as [r1 b1]. injection H as <-.
  apply patricia_lookup_prefix_full_internal_spec in E.
  destruct E as [_ ->].
  exists node, q, i, (map (app (firstn i p)) (leaf_paths node)).
  split; [reflexivity|]. split; [exact Ep|]. split; [exact Hi|].
  split; [exact Hle|]. split; [reflexivity|].
  split; [now rewrite length_map, key_count_leaf_paths|]. split.
  { pose proof (leaf_paths_not_nil node).
    destruct (leaf_paths node); [congruence | discriminate]. }
  intros -> tok Htok. apply in_map_iff in Htok.
  destruct Htok as (lp & <- & Hlp).
  rewrite Ep, firstn_app, Nat.sub_diag, firstn_all. cbn [firstn].
  rewrite app_nil_r. apply leaf_paths_node_paths in Hlp. split.
  - rewrite <- Ep. apply node_paths_start in Hlp. rewrite Ep.
    now apply is_prefix_app.
  - simpl. f_equal.
    apply (lookup_root_paths (root t) (q ++ lp) (reachable_wf t Hr)).
    now apply Hpaths.
Qed.

(** X12 at work below "ca" in the tree of "cat", "car" and "dog". *)
Lemma full_enumeration_tokens_witness :
  reachable tree_cat_car_dog /\
  patricia_lookup_prefix_full (Some tree_cat_car_dog) (Some (cstr "ca"))
    (Some []) = Ret (0%Z, Some (cstr "car cat ")) /\
  exists node q keylen toks,
    patricia_lookup_node tree_cat_car_dog (cstr "ca") = Some node /\
    cstr "ca" = q ++ node_key node /\
    strstr (cstr "ca") (node_key node) = Some keylen /\
    keylen <= length q /\
    cstr "car cat " = [] ++ join_tokens toks /\
    length toks = patricia_get_key_count node /\ toks <> [] /\
    (keylen = length q ->
     forall tok, In tok toks ->
       is_prefix (cstr "ca") tok /\
       patricia_lookup (Some tree_cat_car_dog) (Some tok) = Ret 1%Z).
Proof.
  split; [exact tree_cat_car_dog_reachable|]. split; [reflexivity|].
  apply (full_enumeration_tokens tree_cat_car_dog (cstr "ca") []
           (cstr "car cat ")).
  - exact tree_cat_car_dog_reachable.
  - reflexivity.
Defined.

(** ** The key count *)

Lemma key_count_eq k cs :
  patricia_get_key_count (Node k cs) =
  list_sum (map patricia_get_key_count cs)
  + (if list_empty cs then 1 else 0).
Proof.
  cbn [patricia_get_key_count]. f_equal.
  induction cs as [|c cs IH]; [reflexivity|]. simpl. now rewrite IH.
Qed.

Lemma key_count_positive n : 1 <= patricia_get_key_count n.
Proof.
  rewrite key_count_leaf_paths. pose proof (leaf_paths_not_nil n).
  destruct (leaf_paths n); [congruence | simpl; lia].
Qed.

(** X13.  For a reachable tree [patricia_print_stats] prints as its key
    count the number of paths from the root to a leaf.  These paths are
    pairwise different and, unless the tree has no node but its root, each
    is a key that [patricia_lookup] finds; for the tree without keys the
    count is 1, the root being a leaf. *)
Theorem print_stats_counts_leaf_keys t :
  reachable t ->
  patricia_print_stats (Some t) = Ret (length (leaf_paths (root t))) /\
  NoDup (leaf_paths (root t)) /\
  (node_children (root t) <> [] ->
   forall k, In k (leaf_paths (root t)) ->
             patricia_lookup (Some t) (Some k) = Ret 1%Z) /\
  (node_children (root t) = [] ->
   patricia_print_stats (Some t) = Ret 1 /\
   forall k, patricia_lookup (Some t) (Some k) = Ret 0%Z).
Proof.
  intros Hr. pose proof (reachable_wf t Hr) as Hwf.
  destruct Hwf as (Hk & Hs & Hall).
  split; [simpl; now rewrite key_count_leaf_paths|].
  split; [now apply leaf_paths_NoDup|]. split.
  - intros Hne k Hin. simpl. f_equal.
    apply (lookup_root_paths (root t) k (reachable_wf t Hr)).
    destruct (root t) as [rk cs]. cbn [node_key node_children] in *.
    subst rk. rewrite leaf_paths_eq in Hin.
    destruct cs as [|c cs]; [congruence|]. cbn [list_empty] in Hin.
    apply in_map_iff in Hin. destruct Hin as (q & <- & Hq). cbn [app].
    apply in_flat_map in Hq. destruct Hq as (x & Hx & Hq).
    apply in_flat_map. exists x. split; [exact Hx|].
    now apply leaf_paths_node_paths.
  - intros Hnil. split.
    + simpl. rewrite key_count_leaf_paths. destruct (root t) as [rk cs].
      cbn [node_children] in Hnil. now subst cs.
    + intros k. simpl. f_equal.
      destruct (lookup_bit true (root t) k) as [E|E]; [exact E|].
      apply (lookup_root_paths (root t) k (reachable_wf t Hr)) in E.
      rewrite Hnil in E. destruct E.
Qed.

(** X13 at work on the tree of "cat", "car" and "dog". *)
Lemma print_stats_counts_leaf_keys_witness :
  reachable tree_cat_car_dog /\
  patricia_print_stats (Some tree_cat_car_dog) = Ret 3 /\
  leaf_paths (root tree_cat_car_dog) = [cstr "car"; cstr "cat"; cstr "dog"] /\
  NoDup (leaf_paths (root tree_cat_car_dog)).
Proof.
  split; [exact tree_cat_car_dog_reachable|]. split; [reflexivity|].
  split; [reflexivity|].
  exact (proj1 (proj2 (print_stats_counts_leaf_keys tree_cat_car_dog
                         tree_cat_car_dog_reachable))).
Defined.

Lemma list_sum_add_child_scan c l :
  list_sum (map patricia_get_key_count (add_child_scan c l))
  = patricia_get_key_count c + list_sum (map patricia_get_key_count l).
Proof.
  induction l as [|n next IH]; simpl; [lia|].
  destruct (strcmp (node_key c) (node_key n) <? 0)%Z; simpl; lia.
Qed.

Lemma add_internal_key_count cur :
  forall b key ret cur',
    patricia_add_internal b cur key = Ret (ret, cur') ->
    patricia_get_key_count cur <= patricia_get_key_count cur' /\
    patricia_get_key_count cur' <= patricia_get_key_count cur + 1.
Proof.
  induction cur as [k cs IH] using patricia_node_ind.
  intros b key ret cur'. rewrite patricia_add_internal_eq. cbv zeta.
  pose proof (common_prefix_le_l key k) as Hlk.
  pose proof (common_prefix_le_r key k) as Hlr.
  destruct (descend b (common_prefix_loop key k) key k) eqn:Hd.
  - destruct (substring key _ _) as [nk|]; [|intros [= <- <-]; lia].
    destruct (find_child _ cs) as [[[pre x] post]|] eqn:Hf.
    + apply find_child_some in Hf. destruct Hf as (-> & _ & _).
      destruct (patricia_add_internal false x nk) as [[r x']|] eqn:Hadd;
        [|discriminate].
      cbn [bind]. intros [= _ <-].
      rewrite Forall_app in IH. destruct IH as [_ IHx].
      apply Forall_inv in IHx. specialize (IHx _ _ _ _ Hadd).
      rewrite !key_count_eq, !map_app, !list_sum_app. cbn [map list_sum fold_right].
      assert (list_empty (pre ++ x :: post) = false) as ->
          by (now destruct pre).
      assert (list_empty (pre ++ x' :: post) = false) as ->
          by (now destruct pre).
      lia.
    + unfold patricia_node_init. rewrite patricia_add_child_node_scan.
      intros [= _ <-]. rewrite !key_count_eq, list_sum_add_child_scan.
      rewrite key_count_eq.
      assert (list_empty
                (add_child_scan (Node nk (list_create patricia_node)) cs)
              = false) as ->.
      { destruct cs as [|c cs]; [reflexivity|]. simpl.
        now destruct (_ <? _)%Z. }
      destruct cs; cbn [list_empty map list_sum fold_right list_create];
        lia.
  - apply descend_false in Hd. destruct Hd as (_ & Hpos & Hcase).
    destruct (common_prefix_pos_inv key k Hpos) as (Hkey & Hk & _).
    destruct (Nat.ltb_spec (common_prefix_loop key k) (strlen key))
      as [Hlt|Hge].
    + unfold strlen in *.
      rewrite !substring_tail, !substring_head by (auto; lia).
      cbn [bind set_children rewrite_node patricia_node_init].
      rewrite !patricia_add_child_node_scan.
      match goal with
      | |- Ret (_, Node _ ?l) = _ -> _ => remember l as l' eqn:El
      end.
      intros [= _ <-]. rewrite (key_count_eq _ l'). subst l'.
      rewrite !list_sum_add_child_scan.
      assert (list_empty
                (add_child_scan
                   (Node (skipn (common_prefix_loop key k) key)
                      (list_create patricia_node))
                   (add_child_scan
                      (Node (skipn (common_prefix_loop key k) k) cs)
                      (list_create patricia_node))) = false) as ->.
      { simpl. now destruct (_ <? _)%Z. }
      rewrite !key_count_eq.
      cbn [map list_sum fold_right list_create list_empty]. lia.
    + destruct (_ =? strlen key); [|intros [= <- <-]; lia].
      destruct (Nat.eqb_spec (common_prefix_loop key k) (strlen k))
        as [|Hne]; [intros [= <- <-]; lia|].
      unfold strlen in *.
      rewrite !substring_tail, !substring_head by (auto; lia).
      cbn [bind set_children rewrite_node patricia_node_init].
      rewrite !patricia_add_child_node_scan.
      intros [= _ <-]. rewrite !key_count_eq.
      cbn [add_child_scan list_insert list_create app map list_sum fold_right
             list_empty].
      rewrite !key_count_eq. lia.
Qed.

(** X14.  [patricia_add], whatever its status, never lowers the key count
    and raises it by one at most. *)
Theorem add_key_count t k ret t' :
  patricia_add (Some t) k = Ret (ret, Some t') ->
  patricia_get_key_count (root t) <= patricia_get_key_count (root t') /\
  patricia_get_key_count (root t')
  <= patricia_get_key_count (root t) + 1.
Proof.
  destruct k as [k|]; simpl.
  - destruct (patricia_add_internal true (root t) k) as [[r n]|] eqn:E;
      [|discriminate].
    simpl. intros [= _ <-]. simpl.
    exact (add_internal_key_count (root t) true k r n E).
  - intros [= _ <-]. lia.
Qed.

(** X14 at work: "car" added to the tree of "cat". *)
Lemma add_key_count_witness :
  patricia_add (Some tree_cat) (Some (cstr "car"))
  = Ret (0%Z, Some tree_cat_car) /\
  patricia_get_key_count (root tree_cat) = 1 /\
  patricia_get_key_count (root tree_cat_car) = 2 /\
  patricia_get_key_count (root tree_cat)
  <= patricia_get_key_count (root tree_cat_car).
Proof.
  split; [reflexivity|]. split; [reflexivity|]. split; [reflexivity|].
  exact (proj1 (add_key_count tree_cat (Some (cstr "car")) 0%Z tree_cat_car
                  eq_refl)).
Defined.

Lemma delete_internal_effect cur :
  forall b key,
    (fst (patricia_delete_internal b cur key) = (-1)%Z /\
     snd (patricia_delete_internal b cur key) = cur) \/
    (fst (patricia_delete_internal b cur key) = 0%Z /\
     patricia_get_key_count (snd (patricia_delete_internal b cur key))
     <= patricia_get_key_count cur).
Proof.
  induction cur as [k cs IH] using patricia_node_ind.
  intros b key. rewrite patricia_delete_internal_eq. cbv zeta.
  destruct (descend _ _ _ _); [|now left].
  destruct (substring _ _ _) as [nk|]; [|now left].
  destruct (find_child _ cs) as [[[pre x] post]|] eqn:Hf; [|now left].
  apply find_child_some in Hf. destruct Hf as (-> & _ & _).
  rewrite Forall_app in IH. destruct IH as [_ IHx].
  apply Forall_inv in IHx. specialize (IHx false nk).
  destruct (_ =? 0)%Z.
  - right. split; [reflexivity|]. cbn [fst snd].
    rewrite !key_count_eq, !map_app, !list_sum_app.
    unfold list_sum. cbn [map fold_right]. pose proof (key_count_positive x).
    assert (list_empty (pre ++ x :: post) = false) as ->
        by (now destruct pre).
    destruct (list_empty (pre ++ post)); lia.
  - cbn [fst snd]. destruct IHx as [[E1 E2]|[E1 E2]].
    + left. now rewrite E1, E2.
    + right. split; [exact E1|].
      rewrite !key_count_eq, !map_app, !list_sum_app.
      unfold list_sum. cbn [map fold_right].
      assert (list_empty (pre ++ x :: post) = false) as ->
          by (now destruct pre).
      match goal with
      | |- context [list_empty (pre ++ ?y :: post)] =>
          assert (list_empty (pre ++ y :: post) = false) as ->
              by (now destruct pre)
      end.
      lia.
Qed.

(** X15.  [patricia_delete] either reports -1 and hands the tree back as it
    was, or reports 0 and leaves a tree whose key count has not grown: a
    node whose last child goes counts as a key itself, so the count need not
    fall.  The count is never below 1. *)
Theorem delete_status_and_key_count t k ret t' :
  patricia_delete (Some t) k = (ret, Some t') ->
  (ret = (-1)%Z /\ root t' = root t \/
   ret = 0%Z /\
   patricia_get_key_count (root t') <= patricia_get_key_count (root t)) /\
  1 <= patricia_get_key_count (root t').
Proof.
  intros H. split; [|apply key_count_positive].
  destruct k as [k|]; simpl in H.
  - pose proof (delete_internal_effect (root t) true k) as E.
    destruct (patricia_delete_internal true (root t) k) as [r n].
    injection H as <- <-. exact E.
  - injection H as <- <-. now left.
Qed.

(** X15 at work: "dog" leaves the tree of "cat", "car" and "dog". *)
Lemma delete_status_and_key_count_witness :
  patricia_delete (Some tree_cat_car_dog) (Some (cstr "dog"))
  = (0%Z, Some tree_cat_car) /\
  patricia_get_key_count (root tree_cat_car_dog) = 3 /\
  patricia_get_key_count (root tree_cat_car) = 2 /\
  1 <= patricia_get_key_count (root tree_cat_car).
Proof.
  split; [reflexivity|]. split; [reflexivity|]. split; [reflexivity|].
  exact (proj2 (delete_status_and_key_count tree_cat_car_dog
                  (Some (cstr "dog")) 0%Z tree_cat_car eq_refl)).
Defined.

(** ** The scratch arrays of the enumerations *)

Lemma store_ok s : strlen s < PATRICIA_DEFAULT_KEYLEN -> store s = Ret s.
Proof. unfold store. intros H. apply Nat.ltb_lt in H. now rewrite H. Qed.

Lemma full_walk_runs cs :
  Forall (fun c => forall res buf,
            (forall lp, In lp (node_paths c) ->
                        length (res ++ lp) < PATRICIA_DEFAULT_KEYLEN) ->
            exists out,
              patricia_lookup_prefix_full_internal c res buf
              = Ret (res, out)) cs ->
  forall res buf,
    (forall c lp, In c cs -> In lp (node_paths c) ->
                  length (res ++ lp) < PATRICIA_DEFAULT_KEYLEN) ->
    exists out,
      (fix walk (cs : list patricia_node) (res res_list : cstring)
         : outcome (cstring * cstring) :=
         match cs with
         | [] => Ret (res, res_list)
         | child :: next =>
             '(res, res_list) <-
               patricia_lookup_prefix_full_internal child res res_list ;;
             walk next res res_list
         end) cs res buf = Ret (res, out).
Proof.
  induction 1 as [|c cs Hc Hcs IH]; intros res buf Hb.
  - now exists buf.
  - destruct (Hc res buf) as [o1 E1].
    { intros lp Hlp. apply (Hb c); [now left | exact Hlp]. }
    rewrite E1. cbn [bind]. apply IH.
    intros c' lp Hc' Hlp. apply (Hb c'); [now right | exact Hlp].
Qed.

Lemma patricia_lookup_prefix_full_internal_runs n :
  forall res buf,
    (forall lp, In lp (node_paths n) ->
                length (res ++ lp) < PATRICIA_DEFAULT_KEYLEN) ->
    exists out,
      patricia_lookup_prefix_full_internal n res buf = Ret (res, out).
Proof.
  induction n as [k cs IH] using patricia_node_ind.
  intros res buf Hb. cbn [patricia_lookup_prefix_full_internal].
  assert (length (res ++ k) < PATRICIA_DEFAULT_KEYLEN) as Hk
      by (apply Hb; rewrite node_paths_eq; now left).
  rewrite store_ok.
  2:{ unfold strlen in *. rewrite length_app in Hk.
      rewrite firstn_all. lia. }
  cbn [bind]. rewrite (store_ok (res ++ k)) by exact Hk. cbn [bind].
  destruct (full_walk_runs cs IH (res ++ k) buf) as [o E].
  { intros c lp Hc Hlp. rewrite <- app_assoc. apply Hb.
    apply node_paths_In. right. now exists c, lp. }
  rewrite E. cbn [bind]. rewrite !firstn_length_self. eexists.
  reflexivity.
Qed.

(** X16.  In a reachable tree, for a prefix that lookup finds, the full
    enumeration stays inside its 256-byte scratch arrays and reports 0 as
    soon as every key that lookup finds and that begins with the prefix is
    shorter than 256 bytes. *)
Theorem full_enumeration_runs t p buf :
  reachable t ->
  patricia_lookup (Some t) (Some p) = Ret 1%Z ->
  (forall k, patricia_lookup (Some t) (Some k) = Ret 1%Z ->
             is_prefix p k -> strlen k < PATRICIA_DEFAULT_KEYLEN) ->
  exists out,
    patricia_lookup_prefix_full (Some t) (Some p) (Some buf)
    = Ret (0%Z, Some out).
Proof.
  intros Hr [= Hl] Hshort.
  destruct (lookup_node_agrees (root t) true p) as [H1 _].
  apply H1 in Hl. destruct Hl as [n Hn].
  destruct (resolve_root t p n Hr Hn) as (q & Ep & Hne & Hp).
  assert (forall lp, In lp (node_paths n) ->
                     length (q ++ lp) < PATRICIA_DEFAULT_KEYLEN) as Hb.
  { intros lp Hlp. apply (Hshort (q ++ lp)).
    - simpl. f_equal.
      apply (lookup_root_paths (root t) _ (reachable_wf t Hr)).
      now apply Hp.
    - destruct (node_paths_start n lp Hlp) as [s ->]. exists s.
      now rewrite Ep, <- app_assoc. }
  unfold patricia_lookup_prefix_full. unfold patricia_lookup_node in Hn.
  unfold patricia_lookup_node. rewrite Hn.
  destruct (strstr_suffix q (node_key n)) as (i & Hi & Hle).
  rewrite <- Ep in Hi. rewrite Hi.
  assert (length (firstn i p) <= length q) as Hf
      by (rewrite length_firstn; lia).
  rewrite store_ok.
  2:{ unfold strlen. specialize (Hb (node_key n)).
      rewrite length_app in Hb.
      assert (In (node_key n) (node_paths n)) as Hin
          by (destruct n; rewrite node_paths_eq; now left).
      specialize (Hb Hin). lia. }
  cbn [bind].
  destruct (patricia_lookup_prefix_full_internal_runs n (firstn i p) buf)
    as [out E].
  { intros lp Hlp. specialize (Hb lp Hlp). rewrite length_app in *. lia. }
  rewrite E. cbn [bind]. now exists out.
Qed.

(** X16 at work on the tree of "cat", "car" and "dog" with the prefix
    "ca". *)
Lemma full_enumeration_runs_witness :
  reachable tree_cat_car_dog /\
  exists out,
    patricia_lookup_prefix_full (Some tree_cat_car_dog) (Some (cstr "ca"))
      (Some []) = Ret (0%Z, Some out).
Proof.
  split; [exact tree_cat_car_dog_reachable|].
  apply (full_enumeration_runs tree_cat_car_dog (cstr "ca") []
           tree_cat_car_dog_reachable eq_refl).
  intros k [= Hk] _.
  apply (lookup_root_paths (root tree_cat_car_dog) k
           (reachable_wf _ tree_cat_car_dog_reachable)) in Hk.
  simpl in Hk. unfold PATRICIA_DEFAULT_KEYLEN.
  repeat (destruct Hk as [<-|Hk]; [simpl; lia|]). destruct Hk.
Defined.

Lemma removelast_shorter (l : cstring) : length (removelast l) <= length l.
Proof.
  induction l as [|x l IH]; [simpl; lia|].
  destruct l; [simpl; lia|]. cbn [removelast length] in *. lia.
Qed.

Lemma patricia_key_has_delimiter_runs key :
  key <> [] -> exists delim, patricia_key_has_delimiter key = Ret delim.
Proof. destruct key; [congruence|]. intros _. eexists. reflexivity. Qed.

Lemma append_token_runs rl prefix res :
  space_closed rl ->
  length (prefix ++ res) < PATRICIA_DEFAULT_KEYLEN ->
  exists out, append_token rl prefix res = Ret out /\ space_closed out.
Proof.
  intros Hrl Hlen. unfold append_token.
  rewrite store_ok by (unfold strlen; rewrite length_app in Hlen; lia).
  cbn [bind]. rewrite store_ok by exact Hlen. cbn [bind].
  destruct (is_substring_runs rl (prefix ++ res) Hrl) as [dup ->].
  cbn [bind]. eexists. split; [reflexivity|].
  destruct dup; [exact Hrl|]. right. exists (rl ++ prefix ++ res).
  now rewrite <- !app_assoc.
Qed.

Lemma partial_walk_runs prefix cs :
  Forall (fun c => node_key c <> [] /\ partial_runs prefix c) cs ->
  forall res rl,
    space_closed rl ->
    length (prefix ++ res) < PATRICIA_DEFAULT_KEYLEN ->
    (forall c lp, In c cs -> In lp (node_paths c) ->
                  length (prefix ++ res ++ lp) < PATRICIA_DEFAULT_KEYLEN) ->
    exists out,
      (fix walk (cs : list patricia_node) (res res_list : cstring)
         : outcome (cstring * cstring) :=
         match cs with
         | [] => Ret (res, res_list)
         | child :: next =>
             let len := strlen res in
             prev_res <- store (firstn len res) ;;
             res <- store (res ++ node_key child) ;;
             delim <- patricia_key_has_delimiter (node_key child) ;;
             '(res, res_list) <-
               (if delim : bool then
                  let res := removelast res in
                  res_list <- append_token res_list prefix res ;;
                  Ret ([], res_list)
                else
                  patricia_lookup_prefix_partial_internal
                    child res res_list prefix) ;;
             let res := firstn len prev_res in
             walk next res res_list
         end) cs res rl = Ret (res, out) /\ space_closed out.
Proof.
  induction 1 as [|c cs [Hkey Hc] Hcs IH]; intros res rl Hrl Hlen Hb.
  - now exists rl.
  - assert (length (prefix ++ res ++ node_key c) < PATRICIA_DEFAULT_KEYLEN)
      as Hck.
    { apply (Hb c); [now left|]. destruct c. rewrite node_paths_eq.
      now left. }
    assert (forall c' lp, In c' cs -> In lp (node_paths c') ->
              length (prefix ++ res ++ lp) < PATRICIA_DEFAULT_KEYLEN)
      as Hb' by (intros c' lp Hc' Hlp; apply (Hb c'); [now right | exact Hlp]).
    cbv zeta.
    rewrite store_ok.
    2:{ unfold strlen. rewrite firstn_all. rewrite length_app in Hlen.
        lia. }
    cbn [bind]. rewrite (store_ok (res ++ node_key c)).
    2:{ unfold strlen. rewrite !length_app in *. lia. }
    cbn [bind].
    destruct (patricia_key_has_delimiter_runs _ Hkey) as [delim ->].
    cbn [bind]. destruct delim.
    + destruct (append_token_runs rl prefix
                  (removelast (res ++ node_key c)) Hrl) as (o1 & E1 & Ho1).
      { pose proof (removelast_shorter (res ++ node_key c)).
        rewrite !length_app in *. lia. }
      rewrite E1. cbn [bind]. rewrite !firstn_length_self.
      now apply IH.
    + destruct (Hc (res ++ node_key c) rl Hrl) as (o1 & E1 & Ho1).
      { exact Hck. }
      { intros c' lp Hc' Hlp. rewrite <- app_assoc. apply (Hb c).
        - now left.
        - destruct c as [ck ccs]. apply node_paths_In. right.
          now exists c', lp. }
      rewrite E1. cbn [bind]. rewrite !firstn_length_self.
      now apply IH.
Qed.

Lemma patricia_lookup_prefix_partial_internal_runs prefix n :
  Forall wf_node (node_children n) -> partial_runs prefix n.
Proof.
  induction n as [k cs IH] using patricia_node_ind.
  cbn [node_children]. intros Hwf res rl Hrl Hlen Hb.
  cbn [node_children] in Hb.
  cbn [patricia_lookup_prefix_partial_internal].
  assert (Forall (fun c => node_key c <> [] /\ partial_runs prefix c) cs)
    as Hcs.
  { rewrite Forall_forall in *. intros c Hc.
    destruct (wf_node_children c (Hwf c Hc)) as (Hk & _ & Hall).
    split; [exact Hk|]. now apply IH. }
  destruct (partial_walk_runs prefix cs Hcs res rl Hrl Hlen Hb)
    as (o1 & E1 & Ho1).
  match goal with
  | |- exists out, bind ?m _ = _ /\ _ =>
      assert (m = Ret (res, o1)) as -> by exact E1
  end.
  cbn [bind]. destruct (list_empty cs).
  - destruct (append_token_runs o1 prefix res Ho1 Hlen) as (o2 & E2 & Ho2).
    rewrite E2. cbn [bind]. now exists o2.
  - now exists o1.
Qed.

(** X17.  In a reachable tree, for a prefix that lookup finds and a result
    buffer that is empty or ends in a space, the partial enumeration stays
    inside its 256-byte scratch arrays and inside the buffer it scans: it
    reports 0 as soon as every key that lookup finds and that begins with
    the prefix is shorter than 256 bytes, and the buffer it hands back is
    again empty or ends in a space. *)
Theorem partial_enumeration_runs t p buf :
  reachable t ->
  patricia_lookup (Some t) (Some p) = Ret 1%Z ->
  space_closed buf ->
  (forall k, patricia_lookup (Some t) (Some k) = Ret 1%Z ->
             is_prefix p k -> strlen k < PATRICIA_DEFAULT_KEYLEN) ->
  exists out,
    patricia_lookup_prefix_partial (Some t) (Some p) (Some buf)
    = Ret (0%Z, Some out) /\ space_closed out.
Proof.
  intros Hr [= Hl] Hbuf Hshort.
  destruct (lookup_node_agrees (root t) true p) as [H1 _].
  apply H1 in Hl. destruct Hl as [n Hn].
  destruct (resolve_root t p n Hr Hn) as (q & Ep & Hne & Hp).
  destruct (reachable_resolved_node t p n Hr Hn) as [_ Hwf].
  assert (forall lp, In lp (node_paths n) ->
                     length (q ++ lp) < PATRICIA_DEFAULT_KEYLEN) as Hb.
  { intros lp Hlp. apply (Hshort (q ++ lp)).
    - simpl. f_equal.
      apply (lookup_root_paths (root t) _ (reachable_wf t Hr)).
      now apply Hp.
    - destruct (node_paths_start n lp Hlp) as [s ->]. exists s.
      now rewrite Ep, <- app_assoc. }
  unfold patricia_lookup_prefix_partial. unfold patricia_lookup_node in Hn.
  unfold patricia_lookup_node. rewrite Hn.
  destruct (patricia_lookup_prefix_partial_internal_runs p n Hwf [] buf Hbuf)
    as (out & E & Hout).
  - rewrite app_nil_r, Ep. apply Hb. destruct n. rewrite node_paths_eq.
    now left.
  - intros c lp Hc Hlp. cbn [app]. rewrite Ep, <- app_assoc. apply Hb.
    destruct n as [nk ncs]. apply node_paths_In. right. now exists c, lp.
  - rewrite E. cbn [bind]. now exists out.
Qed.

(** X17 at work on the tree of "cat", "car" and "dog" with the prefix
    "ca" and the buffer "car ". *)
Lemma partial_enumeration_runs_witness :
  reachable tree_cat_car_dog /\ space_closed (cstr "car ") /\
  exists out,
    patricia_lookup_prefix_partial (Some tree_cat_car_dog)
      (Some (cstr "ca")) (Some (cstr "car ")) = Ret (0%Z, Some out) /\
    space_closed out.
Proof.
  assert (space_closed (cstr "car ")) as Hbuf
      by (right; now exists (cstr "car")).
  split; [exact tree_cat_car_dog_reachable|]. split; [exact Hbuf|].
  apply (partial_enumeration_runs tree_cat_car_dog (cstr "ca") (cstr "car ")
           tree_cat_car_dog_reachable eq_refl Hbuf).
  intros k [= Hk] _.
  apply (lookup_root_paths (root tree_cat_car_dog) k
           (reachable_wf _ tree_cat_car_dog_reachable)) in Hk.
  simpl in Hk. unfold PATRICIA_DEFAULT_KEYLEN.
  repeat (destruct Hk as [<-|Hk]; [simpl; lia|]). destruct Hk.
Defined.

(** * The partial enumeration as a filter on its candidates *)

Lemma append_new_app a :
  forall buf b,
    append_new buf (a ++ b) = (out <- append_new buf a ;; append_new out b).
Proof.
  induction a as [|c a IH]; intros buf b; [reflexivity|].
  cbn [app append_new]. destruct (is_substring buf c) as [dup|];
    [|reflexivity].
  cbn [bind]. apply IH.
Qed.

Lemma append_token_append_new rl prefix res out :
  append_token rl prefix res = Ret out ->
  append_new rl [prefix ++ res] = Ret out.
Proof.
  intros H. apply append_token_ret in H. destruct H as (dup & Hdup & ->).
  cbn [append_new]. rewrite Hdup. cbn [bind].
  destruct dup; [reflexivity|]. cbn [join_tokens].
  now rewrite app_nil_r.
Qed.

Lemma partial_walk_filter prefix cs :
  Forall (partial_filter prefix) cs ->
  forall res rl r' out,
    (fix walk (cs : list patricia_node) (res res_list : cstring)
       : outcome (cstring * cstring) :=
       match cs with
       | [] => Ret (res, res_list)
       | child :: next =>
           let len := strlen res in
           prev_res <- store (firstn len res) ;;
           res <- store (res ++ node_key child) ;;
           delim <- patricia_key_has_delimiter (node_key child) ;;
           '(res, res_list) <-
             (if delim : bool then
                let res := removelast res in
                res_list <- append_token res_list prefix res ;;
                Ret ([], res_list)
              else
                patricia_lookup_prefix_partial_internal
                  child res res_list prefix) ;;
           let res := firstn len prev_res in
           walk next res res_list
       end) cs res rl = Ret (r', out) ->
    r' = res /\
    append_new rl (map (fun s => prefix ++ res ++ s)
                     (flat_map child_paths cs)) = Ret out.
Proof.
  induction 1 as [|c cs Hc Hcs IH]; intros res rl r' out H.
  - injection H as <- <-. now split.
  - cbv zeta in H.
    inv_bind H. apply store_ret in E. subst a.
    inv_bind H. apply store_ret in E. subst a.
    inv_bind H. rename a into delim, E into Hdelim.
    inv_bind H. destruct a as [r1 rl1].
    rewrite !firstn_length_self in H.
    destruct (IH _ _ _ _ H) as (-> & Hrest).
    split; [reflexivity|].
    assert (append_new rl (map (fun s => prefix ++ res ++ s) (child_paths c))
            = Ret rl1) as Hfirst.
    { unfold child_paths. rewrite Hdelim. destruct delim.
      - inv_bind E. injection E as _ <-.
        apply append_token_append_new in E0.
        rewrite removelast_app in E0; [exact E0|].
        intros Hnil. rewrite Hnil in Hdelim. discriminate.
      - destruct (Hc _ _ _ _ E) as (_ & Hc').
        rewrite map_map.
        erewrite map_ext; [exact Hc'|].
        intros s. simpl. now rewrite <- !app_assoc. }
    cbn [flat_map]. rewrite map_app, append_new_app.
    match goal with
    | |- bind ?m _ = _ => assert (m = Ret rl1) as -> by exact Hfirst
    end.
    exact Hrest.
Qed.

Lemma patricia_lookup_prefix_partial_internal_filter prefix n :
  partial_filter prefix n.
Proof.
  induction n as [k cs IH] using patricia_node_ind.
  intros res rl r' out H. rewrite partial_paths_eq.
  cbn [patricia_lookup_prefix_partial_internal] in H.
  inv_bind H. destruct a as [r1 rl1].
  destruct (partial_walk_filter prefix cs IH _ _ _ _ E) as (-> & Hwalk).
  destruct cs as [|c cs]; cbn [list_empty] in *.
  - inv_bind H. injection H as <- <-. split; [reflexivity|].
    injection Hwalk as <-. cbn [map].
    rewrite app_nil_r. now apply append_token_append_new.
  - injection H as <- <-. now split.
Qed.

(** ** Tokens that stay distinct *)

Lemma no_space_prefix a b : no_space (a ++ b) -> no_space a.
Proof. intros H Hin. apply H, in_or_app. now left. Qed.

Lemma join_tokens_snoc ts tok :
  join_tokens (ts ++ [tok]) = join_tokens ts ++ tok ++ [SPACE].
Proof.
  rewrite join_tokens_app. cbn [join_tokens]. now rewrite app_nil_r.
Qed.

(** Filtering space-free candidates into a buffer of pairwise different
    space-free tokens leaves such a buffer: a candidate that stands in the
    buffer already is taken for a duplicate. *)
Lemma append_new_distinct cands :
  forall ts out,
    Forall no_space ts -> NoDup ts ->
    Forall (fun c => no_space c /\ c <> []) cands ->
    append_new (join_tokens ts) cands = Ret out ->
    exists toks,
      out = join_tokens (ts ++ toks) /\ NoDup (ts ++ toks) /\
      Forall no_space (ts ++ toks) /\ subseq toks cands.
Proof.
  induction cands as [|c cands IH]; intros ts out Hns Hnd Hc H.
  - injection H as <-. exists []. rewrite app_nil_r.
    repeat split; auto. constructor.
  - inversion Hc as [|? ? [Hcns Hcne] Hc']; subst.
    cbn [append_new] in H. inv_bind H. destruct a.
    + destruct (IH ts out Hns Hnd Hc' H) as (toks & -> & Hnd' & Hns' & Hsub).
      exists toks. repeat split; auto. now apply subseq_skip.
    + assert (~ In c ts) as Hnew.
      { intros Hin.
        rewrite (is_substring_leading_match ts c c Hns Hin
                   (is_prefix_refl c) Hcne) in E.
        discriminate. }
      rewrite <- join_tokens_snoc in H.
      destruct (IH (ts ++ [c]) out) as (toks & -> & Hnd' & Hns' & Hsub);
        auto.
      * apply Forall_app. split; [exact Hns|]. now constructor.
      * apply NoDup_app; [exact Hnd | repeat constructor; auto; intros []|].
        intros x Hx [<-|[]]. contradiction.
      * exists (c :: toks). rewrite <- app_assoc in *. cbn [app] in *.
        repeat split; auto. now apply subseq_take.
Qed.

(** Every candidate of the partial walk below a node is the beginning of a
    path from that node down to some node below it. *)
Lemma partial_paths_prefix n :
  forall s,
    In s (partial_paths n) ->
    exists lp, In lp (node_paths n) /\ is_prefix (node_key n ++ s) lp.
Proof.
  induction n as [k cs IH] using patricia_node_ind.
  intros s. rewrite partial_paths_eq. cbn [node_key].
  destruct cs as [|c0 cs0] eqn:Ecs; cbn [list_empty].
  - intros [<-|[]]. exists k. split; [rewrite node_paths_eq; now left|].
    rewrite app_nil_r. apply is_prefix_refl.
  - rewrite <- Ecs in *. clear Ecs c0 cs0. intros Hs.
    apply in_flat_map in Hs. destruct Hs as (c & Hc & Hs).
    rewrite Forall_forall in IH. unfold child_paths in Hs.
    assert (In (node_key c) (node_paths c)) as Hkc
        by (destruct c; rewrite node_paths_eq; now left).
    destruct (patricia_key_has_delimiter (node_key c)) as [[|]|] eqn:Hd.
    + destruct Hs as [<-|[]]. exists (k ++ node_key c). split.
      * apply node_paths_In. right. now exists c, (node_key c).
      * apply is_prefix_app. destruct (node_key c) as [|x kc] eqn:Ek;
          [discriminate|].
        exists [last (x :: kc) x]. apply app_removelast_last. discriminate.
    + apply in_map_iff in Hs. destruct Hs as (s' & <- & Hs').
      destruct (IH c Hc s' Hs') as (lp & Hlp & Hpre).
      exists (k ++ lp). split.
      * apply node_paths_In. right. now exists c, lp.
      * now apply is_prefix_app.
    + apply in_map_iff in Hs. destruct Hs as (s' & <- & Hs').
      destruct (IH c Hc s' Hs') as (lp & Hlp & Hpre).
      exists (k ++ lp). split.
      * apply node_paths_In. right. now exists c, lp.
      * now apply is_prefix_app.
Qed.

(** The candidates of a partial enumeration begin keys that lookup finds. *)
Lemma partial_candidates_found t p n :
  reachable t -> patricia_lookup_node t p = Some n ->
  p <> [] /\
  forall s, In s (partial_paths n) ->
            exists k, patricia_lookup (Some t) (Some k) = Ret 1%Z /\
                      is_prefix (p ++ s) k.
Proof.
  intros Hr Hn.
  destruct (resolve_root t p n Hr Hn) as (q & Ep & Hne & Hp).
  split.
  { intros E. rewrite E in Ep. symmetry in Ep.
    apply app_eq_nil in Ep. now destruct Ep. }
  intros s Hs. destruct (partial_paths_prefix n s Hs) as (lp & Hlp & Hpre).
  exists (q ++ lp). split.
  - simpl. f_equal.
    apply (lookup_root_paths (root t) _ (reachable_wf t Hr)).
    now apply Hp.
  - rewrite Ep, <- app_assoc. now apply is_prefix_app.
Qed.

(** * Repeated tokens *)

(** C5 as stated fails: the full enumeration appends without looking at the
    buffer.  Called below "ca" on the tree of "cat", "car" and "dog" with a
    buffer that holds the token "car", it leaves "car" twice in the
    buffer. *)
Lemma full_enumeration_repeats_token :
  patricia_lookup_prefix_full (Some tree_cat_car_dog) (Some (cstr "ca"))
    (Some (cstr "car ")) = Ret (0%Z, Some (cstr "car car cat ")) /\
  tokens (cstr "car car cat ") = [cstr "car"; cstr "car"; cstr "cat"] /\
  ~ NoDup (tokens (cstr "car car cat ")).
Proof.
  split; [reflexivity|]. split; [reflexivity|].
  intros H. inversion H as [|x l Hx _]; subst. apply Hx. now left.
Qed.

(** C5, as the code has it.  On a reachable tree the tokens that one call
    of either enumeration appends are pairwise different: the full walk
    appends the paths to the leaves below the resolved node, the partial
    walk some of its candidates, in their order.  The partial walk tests
    each candidate against the buffer: when no key that lookup finds holds
    a space and the buffer given holds pairwise different tokens without
    spaces, a space after each, so does the buffer that comes back.  The
    full walk has no test: the buffer that comes back holds no token twice
    when the buffer given was empty and no token holds a space. *)
Theorem enumeration_tokens_distinct t p :
  reachable t ->
  (forall buf out,
      patricia_lookup_prefix_full (Some t) (Some p) (Some buf)
      = Ret (0%Z, Some out) ->
      exists node keylen toks,
        patricia_lookup_node t p = Some node /\
        strstr p (node_key node) = Some keylen /\
        toks = map (app (firstn keylen p)) (leaf_paths node) /\
        out = buf ++ join_tokens toks /\
        NoDup toks /\
        (buf = [] -> Forall no_space toks ->
         tokens out = toks /\ NoDup (tokens out))) /\
  (forall buf out,
      patricia_lookup_prefix_partial (Some t) (Some p) (Some buf)
      = Ret (0%Z, Some out) ->
      exists node toks,
        patricia_lookup_node t p = Some node /\
        subseq toks (map (app p) (partial_paths node)) /\
        out = buf ++ join_tokens toks /\
        NoDup toks) /\
  (forall toks0 out,
      (forall k, patricia_lookup (Some t) (Some k) = Ret 1%Z -> no_space k) ->
      Forall no_space toks0 -> NoDup toks0 ->
      patricia_lookup_prefix_partial (Some t) (Some p)
        (Some (join_tokens toks0)) = Ret (0%Z, Some out) ->
      exists node toks,
        patricia_lookup_node t p = Some node /\
        subseq toks (map (app p) (partial_paths node)) /\
        out = join_tokens (toks0 ++ toks) /\
        tokens out = toks0 ++ toks /\
        NoDup (tokens out)).
Proof.
  intros Hr. split; [|split].
  - intros buf out H.
    cbn [patricia_lookup_prefix_full] in H.
    destruct (patricia_lookup_node t p) as [node|] eqn:Hn; [|discriminate].
    destruct (strstr p (node_key node)) as [keylen|] eqn:Hk;
      [|discriminate].
    inv_bind H. apply store_ret in E. subst a.
    inv_bind H. destruct a as [r1 b1]. injection H as <-.
    apply patricia_lookup_prefix_full_internal_spec in E.
    destruct E as [_ ->].
    destruct (reachable_resolved_node t p node Hr Hn) as [Hs Hall].
    assert (NoDup (map (app (firstn keylen p)) (leaf_paths node))) as Hnd
        by (apply NoDup_map_app; now apply leaf_paths_NoDup).
    exists node, keylen, (map (app (firstn keylen p)) (leaf_paths node)).
    split; [reflexivity|]. split; [exact Hk|]. split; [reflexivity|].
    split; [reflexivity|]. split; [exact Hnd|].
    intros -> Hns. cbn [app]. rewrite tokens_join_tokens by exact Hns.
    now split.
  - intros buf out H.
    cbn [patricia_lookup_prefix_partial] in H.
    destruct (patricia_lookup_node t p) as [node|] eqn:Hn;
      [|discriminate].
    inv_bind H. destruct a as [r1 b1]. injection H as <-.
    apply patricia_lookup_prefix_partial_internal_spec in E.
    destruct E as (_ & toks & -> & Hsub). simpl in Hsub.
    destruct (reachable_resolved_node t p node Hr Hn) as [Hs Hall].
    exists node, toks. split; [reflexivity|]. split; [exact Hsub|].
    split; [reflexivity|].
    apply (subseq_NoDup _ _ _ Hsub).
    apply NoDup_map_app. now apply partial_paths_NoDup.
  - intros toks0 out Hkeys Hns0 Hnd0 H.
    cbn [patricia_lookup_prefix_partial] in H.
    destruct (patricia_lookup_node t p) as [node|] eqn:Hn;
      [|discriminate].
    inv_bind H. destruct a as [r1 b1]. injection H as <-.
    apply patricia_lookup_prefix_partial_internal_filter in E.
    destruct E as (_ & Hfilter). cbn [app] in Hfilter.
    destruct (partial_candidates_found t p node Hr Hn) as (Hp & Hfound).
    assert (Forall (fun c => no_space c /\ c <> [])
              (map (fun s => p ++ s) (partial_paths node))) as Hcands.
    { apply Forall_forall. intros c Hc. apply in_map_iff in Hc.
      destruct Hc as (s & <- & Hs). split.
      - destruct (Hfound s Hs) as (k & Hk & [s' ->]).
        apply (no_space_prefix _ s'). now apply Hkeys.
      - intros E. apply app_eq_nil in E. now destruct E. }
    destruct (append_new_distinct _ toks0 b1 Hns0 Hnd0 Hcands Hfilter)
      as (toks & -> & Hnd & Hns & Hsub).
    exists node, toks. split; [reflexivity|]. split; [exact Hsub|].
    split; [reflexivity|]. rewrite tokens_join_tokens by exact Hns.
    now split.
Qed.

(** C5 at work below "ca" in the tree of "cat", "car", "dog": the partial
    walk leaves alone the token "car" that the buffer holds already. *)
Lemma enumeration_tokens_distinct_witness :
  reachable tree_cat_car_dog /\
  patricia_lookup_prefix_partial (Some tree_cat_car_dog) (Some (cstr "ca"))
    (Some (join_tokens [cstr "car"])) = Ret (0%Z, Some (cstr "car cat ")) /\
  exists node toks,
    patricia_lookup_node tree_cat_car_dog (cstr "ca") = Some node /\
    subseq toks (map (app (cstr "ca")) (partial_paths node)) /\
    cstr "car cat " = join_tokens ([cstr "car"] ++ toks) /\
    tokens (cstr "car cat ") = [cstr "car"] ++ toks /\
    NoDup (tokens (cstr "car cat ")).
Proof.
  split; [exact tree_cat_car_dog_reachable|]. split; [reflexivity|].
  destruct (enumeration_tokens_distinct tree_cat_car_dog (cstr "ca")
              tree_cat_car_dog_reachable) as (_ & _ & Hpartial).
  apply (Hpartial [cstr "car"] (cstr "car cat ")).
  - intros k [= Hk].
    apply (lookup_root_paths (root tree_cat_car_dog) k
             (reachable_wf _ tree_cat_car_dog_reachable)) in Hk.
    simpl in Hk. unfold no_space.
    repeat (destruct Hk as [<-|Hk];
            [simpl; intros H;
             repeat (destruct H as [H|H]; [discriminate H|]); exact H|]).
    destruct Hk.
  - constructor; [|constructor]. unfold no_space. simpl.
    intros H. repeat (destruct H as [H|H]; [discriminate H|]). exact H.
  - constructor; [intros []|constructor].
  - reflexivity.
Defined.

(** * The duplicate test and the tokens it leaves out *)

(** C10 as stated fails: "ab" is not the beginning of "aaxab", the only
    token in the buffer, and [is_substring] answers 1 all the same: after
    the mismatch at the second character the scan goes on two characters
    further, inside the token, and meets "ab" at its end.  So, with "aaxab"
    and "ab" stored, the partial enumeration below "a" has the candidates
    "aaxab" and "ab" and does not append "ab". *)
Lemma partial_omits_token_without_leading_match :
  tree_of_keys ["aaxab"; "ab"]%string = Some tree_a_fork /\
  patricia_lookup_node tree_a_fork (cstr "a") = Some node_a_fork /\
  map (app (cstr "a")) (partial_paths node_a_fork)
  = [cstr "aaxab"; cstr "ab"] /\
  patricia_lookup_prefix_partial (Some tree_a_fork) (Some (cstr "a"))
    (Some []) = Ret (0%Z, Some (cstr "aaxab ")) /\
  tokens (cstr "aaxab ") = [cstr "aaxab"] /\
  ~ is_prefix (cstr "ab") (cstr "aaxab") /\
  is_substring (cstr "aaxab ") (cstr "ab") = Ret true /\
  append_token (cstr "aaxab ") (cstr "a") (cstr "b") = Ret (cstr "aaxab ").
Proof.
  repeat (split; [reflexivity|]). split; [|split; reflexivity].
  intros [s E]. discriminate E.
Qed.

(** C10, as the code has it.  The partial enumeration takes its candidates
    in the order of the walk and appends one, with a space, exactly when
    [is_substring] answers 0 for the buffer as the candidates before it have
    left it.  The test answers 1 for every candidate that is the beginning
    of a token in the buffer, and for some that are not, as "ab" in the
    buffer "aaxab ".  So, with "x/b-c", "x/b/" and "x/z" stored, the
    enumeration below "x/" has the candidates "x/b-c", "x/b" and "x/z" and
    writes only "x/b-c" and "x/z". *)
Theorem partial_append_iff_not_is_substring :
  (forall t p buf out,
      patricia_lookup_prefix_partial (Some t) (Some p) (Some buf)
      = Ret (0%Z, Some out) ->
      exists node,
        patricia_lookup_node t p = Some node /\
        append_new buf (map (app p) (partial_paths node)) = Ret out) /\
  (forall toks t tok,
      Forall no_space toks -> In t toks -> is_prefix tok t -> tok <> [] ->
      is_substring (join_tokens toks) tok = Ret true) /\
  (is_substring (join_tokens [cstr "aaxab"]) (cstr "ab") = Ret true /\
   ~ is_prefix (cstr "ab") (cstr "aaxab")) /\
  (tree_of_keys ["x/b-c"; "x/b/"; "x/z"]%string = Some tree_x_dir /\
   patricia_lookup_node tree_x_dir (cstr "x/") = Some node_x_dir /\
   map (app (cstr "x/")) (partial_paths node_x_dir)
   = [cstr "x/b-c"; cstr "x/b"; cstr "x/z"] /\
   patricia_lookup_prefix_partial (Some tree_x_dir) (Some (cstr "x/"))
     (Some []) = Ret (0%Z, Some (cstr "x/b-c x/z ")) /\
   tokens (cstr "x/b-c x/z ") = [cstr "x/b-c"; cstr "x/z"]).
Proof.
  split; [|split; [|split]].
  - intros t p buf out H.
    cbn [patricia_lookup_prefix_partial] in H.
    destruct (patricia_lookup_node t p) as [node|] eqn:Hn;
      [|discriminate].
    inv_bind H. destruct a as [r1 b1]. injection H as <-.
    apply patricia_lookup_prefix_partial_internal_filter in E.
    destruct E as (_ & Hfilter). exists node. now split.
  - exact is_substring_leading_match.
  - split; [reflexivity|]. intros [s E]. discriminate E.
  - repeat split.
Qed.

(** C10 at work: the candidate "x/b" against the buffer "x/b-c ". *)
Lemma partial_append_iff_not_is_substring_witness :
  patricia_lookup_prefix_partial (Some tree_x_dir) (Some (cstr "x/"))
    (Some []) = Ret (0%Z, Some (cstr "x/b-c x/z ")) /\
  (exists node,
      patricia_lookup_node tree_x_dir (cstr "x/") = Some node /\
      append_new [] (map (app (cstr "x/")) (partial_paths node))
      = Ret (cstr "x/b-c x/z ")) /\
  is_substring (join_tokens [cstr "x/b-c"]) (cstr "x/b") = Ret true.
Proof.
  destruct partial_append_iff_not_is_substring as (Hfilter & Hlead & _).
  split; [reflexivity|]. split.
  - exact (Hfilter tree_x_dir (cstr "x/") [] (cstr "x/b-c x/z ") eq_refl).
  - apply (Hlead [cstr "x/b-c"] (cstr "x/b-c") (cstr "x/b")).
    + repeat constructor. unfold no_space. simpl.
      intros H; repeat destruct H as [H|H]; try discriminate H; exact H.
    + now left.
    + now exists (cstr "-c").
    + discriminate.
Defined.
